(** * vermouth: the attributed molecule graph and the resolution mapping

    A shallow embedding of [vermouth/molecule.py] and of
    [vermouth/processors/do_mapping.py].

    Conventions of the embedding.
    - A Python object that is mutated in place ([self] of a method, the
      output graph of the mapping) is the state of a small state and
      exception monad: a raised exception leaves the state as it was at the
      point of the [raise], so partial mutation stays visible.
    - An insertion-ordered [dict] whose order the code iterates over is an
      association list; a [dict] that is only looked up is a [gmap].
    - Attribute values are the closed type [pyval]; floating point values
      and user objects are outside the model.
    - The argument of a method is a different object from its receiver. *)

From Stdlib Require Import ZArith Lia.
From stdpp Require Import base option list strings gmap sorting.

Open Scope Z_scope.

(** ** Python values *)

Inductive pyval : Type :=
  | VNone
  | VBool (b : bool)
  | VInt (n : Z)
  | VStr (s : string)
  | VStrs (l : list string)
  | VWeights (w : list (Z * Z))
  | VSubgraph (ns : list Z).

#[global] Instance pyval_eq_dec : EqDecision pyval.
Proof. solve_decision. Defined.

(** [bool(v)] *)
Definition truthy (v : pyval) : bool :=
  match v with
  | VNone => false
  | VBool b => b
  | VInt n => negb (n =? 0)
  | VStr s => negb (String.eqb s "")
  | VStrs l => negb (bool_decide (l = []))
  | VWeights w => negb (bool_decide (w = []))
  | VSubgraph ns => negb (bool_decide (ns = []))
  end.

(** [v == w]: [bool] is a subclass of [int], so [True == 1]. *)
Definition py_eq (v w : pyval) : bool :=
  match v, w with
  | VBool b, VInt n | VInt n, VBool b => Z.b2z b =? n
  | _, _ => bool_decide (v = w)
  end.

(** [v is None] *)
Definition is_None (v : pyval) : bool :=
  match v with VNone => true | _ => false end.

Abbreviation attrs := (gmap string pyval).

(** [d.get(key, default)] *)
Definition dict_get (d : attrs) (key : string) (dflt : pyval) : pyval :=
  default dflt (d !! key).

(** ** Exceptions and the monad of a method *)

Inductive exn : Type :=
  | ValueError
  | KeyError
  | TypeError
  | AttributeError
  | NotImplementedError
  | IndexError.

#[global] Instance exn_eq_dec : EqDecision exn.
Proof. solve_decision. Defined.

Inductive result (A : Type) : Type :=
  | Ok (a : A)
  | Raise (e : exn).
Arguments Ok {A} a.
Arguments Raise {A} e.

#[global] Instance result_ret : MRet result := λ A a, Ok a.
#[global] Instance result_bind : MBind result := λ A B f r,
  match r with Ok a => f a | Raise e => Raise e end.

(** A computation on a mutable object of type [S]. *)
Definition M (S A : Type) : Type := S → result A * S.

#[global] Instance M_ret {S} : MRet (M S) := λ A a s, (Ok a, s).
#[global] Instance M_bind {S} : MBind (M S) := λ A B f m s,
  match m s with
  | (Ok a, s') => f a s'
  | (Raise e, s') => (Raise e, s')
  end.

Definition raise {S A} (e : exn) : M S A := λ s, (Raise e, s).
Definition get {S} : M S S := λ s, (Ok s, s).
Definition modify {S} (f : S → S) : M S unit := λ s, (Ok tt, f s).
Definition lift {S A} (r : result A) : M S A := λ s, (r, s).

(** [for x in l: body(x)] *)
Fixpoint for_each {S A} (l : list A) (body : A → M S unit) : M S unit :=
  match l with
  | [] => mret tt
  | x :: rest => body x ;; for_each rest body
  end.

(** [d[key]] on a plain dict *)
Definition getitem {K V} `{EqDecision K} `{Countable K}
    (d : gmap K V) (key : K) : result V :=
  match d !! key with Some v => Ok v | None => Raise KeyError end.

(** [v + k] for an integer [k] *)
Definition py_add (v : pyval) (k : Z) : result Z :=
  match v with
  | VInt n => Ok (n + k)
  | VBool b => Ok (Z.b2z b + k)
  | _ => Raise TypeError
  end.

(** ** Insertion-ordered dicts *)

Section assoc.
Context {K V : Type} `{EqDecision K}.

(** [d.get(k)] *)
Definition lookup_key (k : K) (d : list (K * V)) : option V :=
  match list_find (λ p, p.1 = k) d with
  | Some (_, p) => Some p.2
  | None => None
  end.

(** [d[k] = v]: a known key keeps its place, a new one goes last. *)
Fixpoint set_key (k : K) (v : V) (d : list (K * V)) : list (K * V) :=
  match d with
  | [] => [(k, v)]
  | (k', v') :: rest =>
      if decide (k' = k) then (k, v) :: rest else (k', v') :: set_key k v rest
  end.
End assoc.

(** [d[k]] on a dict kept as an association list *)
Definition getitem_key {K V} `{EqDecision K} (d : list (K * V)) (k : K) : result V :=
  match lookup_key k d with Some v => Ok v | None => Raise KeyError end.

(** ** The graph: [networkx.Graph] with ordered nodes *)

Record Graph (N : Type) : Type := mkGraph {
  nodes : list (N * attrs);
  edges : list (N * N)
}.
Arguments mkGraph {N} nodes edges.
Arguments nodes {N} g.
Arguments edges {N} g.

Section graph.
Context {N : Type} `{EqDecision N}.

Definition empty_graph : Graph N := mkGraph [] [].

(** [n in g] *)
Definition has_node (g : Graph N) (n : N) : bool :=
  bool_decide (n ∈ (nodes g).*1).

(** [g.nodes[n]] *)
Definition node_attrs (g : Graph N) (n : N) : option attrs :=
  lookup_key n (nodes g).

(** [d.update(new)] on the attributes of a node *)
Definition update_attrs (new old : attrs) : attrs := new ∪ old.

Fixpoint update_node (ns : list (N * attrs)) (n : N) (a : attrs)
    : list (N * attrs) :=
  match ns with
  | [] => []
  | (m, b) :: rest =>
      if decide (m = n) then (m, update_attrs a b) :: rest
      else (m, b) :: update_node rest n a
  end.

(** [g.add_node(n, **a)]: a new node goes last, a known node has its
    attributes updated. *)
Definition add_node (n : N) (a : attrs) (g : Graph N) : Graph N :=
  if has_node g n then mkGraph (update_node (nodes g) n a) (edges g)
  else mkGraph (nodes g ++ [(n, a)]) (edges g).

(** [g.has_edge(u, v)], edges being undirected *)
Definition has_edge (g : Graph N) (u v : N) : bool :=
  bool_decide ((u, v) ∈ edges g ∨ (v, u) ∈ edges g).

(** [g.add_edge(u, v)]: missing end points become nodes without
    attributes. *)
Definition add_edge (u v : N) (g : Graph N) : Graph N :=
  let g1 := if has_node g u then g else mkGraph (nodes g ++ [(u, ∅)]) (edges g) in
  let g2 := if has_node g1 v then g1 else mkGraph (nodes g1 ++ [(v, ∅)]) (edges g1) in
  if has_edge g2 u v then g2 else mkGraph (nodes g2) (edges g2 ++ [(u, v)]).

(** [g.add_edges_from(pairs)] *)
Definition add_edges_from (pairs : list (N * N)) (g : Graph N) : Graph N :=
  foldl (λ g e, add_edge e.1 e.2 g) g pairs.

(** [g.remove_nodes_from(ns)]: the nodes go with their edges, unknown
    nodes are skipped. *)
Definition remove_nodes_from (ns : list N) (g : Graph N) : Graph N :=
  mkGraph (filter (λ p, p.1 ∉ ns) (nodes g))
          (filter (λ e, (e.1 ∉ ns) ∧ (e.2 ∉ ns)) (edges g)).

(** [g[n]], the neighbours of [n] *)
Definition neighbors (g : Graph N) (n : N) : list N :=
  omap (λ e, if decide (e.1 = n) then Some e.2
             else if decide (e.2 = n) then Some e.1 else None) (edges g).
End graph.

(** ** Interactions and molecules *)

Record Interaction (N : Type) : Type := mkInteraction {
  atoms : list N;
  parameters : list pyval;
  meta : attrs
}.
Arguments mkInteraction {N} atoms parameters meta.
Arguments atoms {N} i.
Arguments parameters {N} i.
Arguments meta {N} i.

#[global] Instance Interaction_eq_dec {N} `{EqDecision N} : EqDecision (Interaction N).
Proof. solve_decision. Defined.

(** [interactions]: type name to the list of the interactions of that type,
    in insertion order of the type names. *)
Abbreviation itable N := (list (string * list (Interaction N))).

(** [d.get(type_, [])], also what [d[type_]] reads on a [defaultdict(list)] *)
Definition get_list {N} (d : itable N) (type_ : string) : list (Interaction N) :=
  default [] (lookup_key type_ d).

(** Reading [d[type_]] on a [defaultdict(list)] creates a missing entry. *)
Definition touch {N} (type_ : string) (d : itable N) : itable N :=
  if bool_decide (type_ ∈ d.*1) then d else d ++ [(type_, [])].

(** [d[type_] = f(d[type_])] for a known key *)
Fixpoint alter_list {N} (f : list (Interaction N) → list (Interaction N))
    (type_ : string) (d : itable N) : itable N :=
  match d with
  | [] => []
  | (t, l) :: rest =>
      if decide (t = type_) then (t, f l) :: rest
      else (t, l) :: alter_list f type_ rest
  end.

Record Molecule : Type := mkMolecule {
  graph : Graph Z;
  interactions : itable Z;
  nrexcl : option Z;
  (** the identity of the force field object, [None] when unset *)
  force_field : option nat;
  mol_meta : attrs
}.

Definition with_graph (f : Graph Z → Graph Z) (m : Molecule) : Molecule :=
  mkMolecule (f (graph m)) (interactions m) (nrexcl m) (force_field m) (mol_meta m).

Definition with_interactions (f : itable Z → itable Z) (m : Molecule) : Molecule :=
  mkMolecule (graph m) (f (interactions m)) (nrexcl m) (force_field m) (mol_meta m).

Definition with_nrexcl (n : option Z) (m : Molecule) : Molecule :=
  mkMolecule (graph m) (interactions m) n (force_field m) (mol_meta m).

(** [Molecule(force_field=ff, meta=meta)] *)
Definition new_molecule (ff : option nat) (meta : attrs) : Molecule :=
  mkMolecule empty_graph [] None ff meta.

(** [Molecule.get_interaction]: reading the [defaultdict] registers the type *)
Definition get_interaction (type_ : string) : M Molecule (list (Interaction Z)) :=
  modify (with_interactions (touch type_)) ;;
  self ← get;
  mret (get_list (interactions self) type_).

(** [Molecule.add_interaction] *)
Definition add_interaction (type_ : string) (atoms_ : list Z)
    (parameters_ : list pyval) (meta_ : option attrs) : M Molecule unit :=
  let meta_ := default ∅ meta_ in
  for_each atoms_ (λ atom,
    self ← get;
    if has_node (graph self) atom then mret tt else raise ValueError) ;;
  modify (with_interactions (λ d,
    alter_list (λ l, l ++ [mkInteraction atoms_ parameters_ meta_]) type_ (touch type_ d))).

(** The index of the first interaction the loop of [remove_interaction]
    breaks on. *)
Definition find_removable (atoms_ : list Z) (l : list (Interaction Z)) : option nat :=
  fst <$> list_find (λ i, atoms i = atoms_
                          ∧ truthy (dict_get (meta i) "version" (VInt 0)) = true) l.

(** [Molecule.remove_interaction]; [version] only appears in the message of
    the error. *)
Definition remove_interaction (type_ : string) (atoms_ : list Z) (version : Z)
    : M Molecule unit :=
  l ← get_interaction type_;
  match find_removable atoms_ l with
  | None => raise KeyError
  | Some idx => modify (with_interactions (alter_list (delete idx) type_))
  end.

(** [max(self)] for a graph with at least one node *)
Definition max_node (g : Graph Z) : Z :=
  match (nodes g).*1 with
  | [] => 0
  | n :: rest => foldr Z.max n rest
  end.

(** The three offsets [merge_molecule] starts from. *)
Definition merge_offsets (self : Molecule) : result (Z * Z * Z) :=
  if bool_decide (nodes (graph self) = []) then Ok (0, 0, 0)
  else
    let last_node_idx := max_node (graph self) in
    let last_node := default ∅ (node_attrs (graph self) last_node_idx) in
    resid ← getitem last_node "resid";
    residue_offset ← py_add resid 1;
    offset_charge_group ← py_add (dict_get last_node "charge_group" (VInt (-1))) 1;
    Ok (last_node_idx + 1, residue_offset, offset_charge_group).

(** The attributes of a merged atom. *)
Definition merged_atom (residue_offset offset_charge_group : Z) (atom : attrs)
    : result attrs :=
  resid ← getitem atom "resid";
  resid' ← py_add resid residue_offset;
  let new_atom := <["resid" := VInt resid']> atom in
  cg ← py_add (dict_get new_atom "charge_group" (VInt 0)) offset_charge_group;
  Ok (<["charge_group" := VInt cg]> new_atom).

(** The first loop of [merge_molecule]:
    [for idx, node in enumerate(molecule.nodes(), start=idx)]. *)
Fixpoint merge_nodes (residue_offset offset_charge_group : Z) (idx : Z)
    (ns : list (Z * attrs)) (correspondence : gmap Z Z)
    : M Molecule (gmap Z Z) :=
  match ns with
  | [] => mret correspondence
  | (node, atom) :: rest =>
      let correspondence := <[node := idx]> correspondence in
      new_atom ← lift (merged_atom residue_offset offset_charge_group atom);
      modify (with_graph (add_node idx new_atom)) ;;
      merge_nodes residue_offset offset_charge_group (idx + 1) rest correspondence
  end.

(** [tuple(correspondence[atom] for atom in atoms)] *)
Fixpoint translate (correspondence : gmap Z Z) (atoms_ : list Z) : result (list Z) :=
  match atoms_ with
  | [] => Ok []
  | atom :: rest =>
      a ← getitem correspondence atom;
      r ← translate correspondence rest;
      Ok (a :: r)
  end.

(** What a Python call hands back: [merge_molecule] has no [return]
    statement, its callers expect a dict. *)
Inductive retval : Type :=
  | RNone
  | RDict (d : gmap Z Z).

(** [Molecule.merge_molecule] *)
Definition merge_molecule (molecule : Molecule) : M Molecule retval :=
  self ← get;
  if bool_decide (force_field self ≠ force_field molecule) then raise ValueError
  else if bool_decide (nrexcl self ≠ nrexcl molecule) then raise ValueError
  else
    '(offset, residue_offset, offset_charge_group) ← lift (merge_offsets self);
    correspondence ←
      merge_nodes residue_offset offset_charge_group offset
                  (nodes (graph molecule)) ∅;
    for_each (interactions molecule) (λ '(name, interactions_),
      for_each interactions_ (λ interaction,
        atoms_ ← lift (translate correspondence (atoms interaction));
        add_interaction name atoms_ (parameters interaction)
                        (Some (meta interaction)))) ;;
    for_each (edges (graph molecule)) (λ edge,
      u ← lift (getitem correspondence edge.1);
      v ← lift (getitem correspondence edge.2);
      modify (with_graph (add_edge u v))) ;;
    mret RNone.

(** ** Residue templates *)

Record Block : Type := mkBlock {
  block_graph : Graph string;
  block_name : option string;
  block_interactions : itable string
}.

Definition with_block_graph (f : Graph string → Graph string) (b : Block) : Block :=
  mkBlock (f (block_graph b)) (block_name b) (block_interactions b).

(** [zip(atoms[:-1], atoms[1:])] *)
Definition consecutive_pairs {N} (atoms_ : list N) : list (N * N) :=
  zip (removelast atoms_) (tail atoms_).

(** [u] and [v] are joined by one of [pairs], in either direction. *)
Definition joined {N} (pairs : list (N * N)) (u v : N) : Prop :=
  (u, v) ∈ pairs ∨ (v, u) ∈ pairs.

(** [interaction.meta.get('edge', True)] as the condition of an [if] *)
Definition makes_edges {N} (interaction : Interaction N) : bool :=
  truthy (dict_get (meta interaction) "edge" (VBool true)).

(** [Block.make_edges_from_interaction_type] *)
Definition make_edges_from_interaction_type (type_ : string) (self : Block) : Block :=
  foldl (λ self interaction,
           if makes_edges interaction
           then with_block_graph
                  (add_edges_from (consecutive_pairs (atoms interaction))) self
           else self)
        self (get_list (block_interactions self) type_).

Definition known_types : list string :=
  ["bonds"; "angles"; "dihedrals"; "cmap"; "constraints"].

(** [Block.make_edges_from_interactions] *)
Definition make_edges_from_interactions (self : Block) : Block :=
  foldl (λ self type_, make_edges_from_interaction_type type_ self) self known_types.

(** ** Attribute patterns *)

(** The classes of predicate a template attribute can hold; [LinkPredicate]
    is the base class, whose [match] is not implemented. *)
Inductive LinkPredicate : Type :=
  | BasePredicate (value : pyval)
  | Choice (value : list pyval)
  | NotDefinedOrNot (value : pyval).

(** The value of a template attribute *)
Inductive tvalue : Type :=
  | Lit (v : pyval)
  | Pred (p : LinkPredicate).

(** [predicate.match(node, key)] *)
Definition predicate_match (p : LinkPredicate) (node : attrs) (key : string)
    : result bool :=
  match p with
  | BasePredicate _ => Raise NotImplementedError
  | Choice value => Ok (existsb (py_eq (dict_get node key VNone)) value)
  | NotDefinedOrNot value =>
      Ok (match node !! key with
          | None => true
          | Some v => negb (py_eq v value)
          end)
  end.

(** [attributes_match]; the template is walked in the order of its dict. *)
Fixpoint attributes_match (attributes : attrs)
    (template_attributes : list (string * tvalue)) (ignore_keys : list string)
    : result bool :=
  match template_attributes with
  | [] => Ok true
  | (attr, value) :: rest =>
      if bool_decide (attr ∈ ignore_keys)
      then attributes_match attributes rest ignore_keys
      else
        match value with
        | Pred p =>
            match predicate_match p attributes attr with
            | Raise e => Raise e
            | Ok false => Ok false
            | Ok true => attributes_match attributes rest ignore_keys
            end
        | Lit v =>
            if negb (py_eq (dict_get attributes attr VNone) v) then Ok false
            else attributes_match attributes rest ignore_keys
        end
  end.

(** [del template_attributes[k]] *)
Definition without_key (k : string) (template_attributes : list (string * tvalue))
    : list (string * tvalue) :=
  filter (λ p, p.1 ≠ k) template_attributes.

(** ** Covering modification names *)

(** [l.remove(x)]: the leftmost [x] goes, [ValueError] without one. *)
Fixpoint list_remove (x : string) (l : list string) : result (list string) :=
  match l with
  | [] => Raise ValueError
  | y :: rest =>
      if decide (y = x) then Ok rest
      else rest' ← list_remove x rest; Ok (y :: rest')
  end.

(** [for item in option: left_to_cover.remove(item)] *)
Fixpoint remove_items (option_ : list string) (left_to_cover : list string)
    : result (list string) :=
  match option_ with
  | [] => Ok left_to_cover
  | item :: rest =>
      l ← list_remove item left_to_cover;
      remove_items rest l
  end.

(** [all(item in to_cover for item in option)] *)
Definition usable (to_cover option_ : list string) : bool :=
  forallb (λ item, bool_decide (item ∈ to_cover)) option_.

(** [cover]; [fuel] bounds the depth of the recursion, [None] says that it
    was used up. The inner loop is [for idx, option in enumerate(options)],
    [opts] being [options[idx:]]. *)
Fixpoint cover (fuel : nat) (to_cover : list string) (options : list (list string))
    : option (result (option (list (list string)))) :=
  match fuel with
  | O => None
  | S fuel =>
      if bool_decide (to_cover = []) then Some (Ok (Some []))
      else
        (fix loop (opts : list (list string)) :=
           match opts return option (result (option (list (list string)))) with
           | [] => Some (Ok None)
           | option_ :: rest =>
               if usable to_cover option_ then
                 match remove_items option_ to_cover with
                 | Raise e => Some (Raise e)
                 | Ok left_to_cover =>
                     match cover fuel left_to_cover opts with
                     | None => None
                     | Some (Raise e) => Some (Raise e)
                     | Some (Ok (Some found)) => Some (Ok (Some (option_ :: found)))
                     | Some (Ok None) => loop rest
                     end
                 end
               else loop rest
           end) options
  end.

(** An exact cover of [to_cover] by [options]: templates taken from
    [options], a template as often as needed, whose names together are the
    names to cover, each as often as it occurs. *)
Definition exact_cover (to_cover : list string) (options found : list (list string))
    : Prop :=
  Forall (λ o, o ∈ options) found ∧ concat found ≡ₚ to_cover.

(** What the answer of [cover] says: a list is an exact cover, [None] that
    there is none. *)
Definition cover_answer (to_cover : list string) (options : list (list string))
    (r : option (list (list string))) : Prop :=
  match r with
  | Some found => exact_cover to_cover options found
  | None => ∀ found, ¬ exact_cover to_cover options found
  end.

(** ** The resolution mapping: correspondence tables *)

(** A dict of dicts, index to index to weight, in insertion order. Weights
    are never computed with; they are integers here. *)
Abbreviation table := (list (Z * list (Z * Z))).

(** [t[i][j] = w], the row [t[i]] being created empty when missing *)
Definition table_set (i j w : Z) (t : table) : table :=
  set_key i (set_key j w (default [] (lookup_key i t))) t.

(** One match of a template: the weighted correspondence from the atoms of
    the molecule to the nodes of the template, the template graph, and the
    reference atoms. *)
Record Match : Type := mkMatch {
  match_map : table;
  match_graph : Molecule;
  match_references : gmap Z Z
}.

(** The objects [do_mapping] mutates while it merges the matches. *)
Record MapState : Type := mkMapState {
  graph_out : Molecule;
  mol_to_out : table;
  out_to_mol : table
}.

Definition with_graph_out (f : Molecule → Molecule) (s : MapState) : MapState :=
  mkMapState (f (graph_out s)) (mol_to_out s) (out_to_mol s).

Definition with_mol_to_out (f : table → table) (s : MapState) : MapState :=
  mkMapState (graph_out s) (f (mol_to_out s)) (out_to_mol s).

Definition with_out_to_mol (f : table → table) (s : MapState) : MapState :=
  mkMapState (graph_out s) (mol_to_out s) (f (out_to_mol s)).

(** A method call on [graph_out] *)
Definition on_graph_out {A} (m : M Molecule A) : M MapState A := λ s,
  let '(r, g) := m (graph_out s) in (r, with_graph_out (λ _, g) s).

(** [for x in l: acc = body(x, acc)] *)
Fixpoint for_fold {S A B} (l : list A) (acc : B) (body : A → B → M S B) : M S B :=
  match l with
  | [] => mret acc
  | x :: rest => acc' ← body x acc; for_fold rest acc' body
  end.

(** [r[k]] on what a call returned: [None] is not subscriptable. *)
Definition subscript (r : retval) (k : Z) : result Z :=
  match r with
  | RNone => Raise TypeError
  | RDict d => getitem d k
  end.

(** [mol_to_out[mol_idx][out_idx] = weight; out_to_mol[out_idx][mol_idx] = weight] *)
Definition record_weight (mol_idx out_idx weight : Z) : M MapState unit :=
  modify (with_mol_to_out (table_set mol_idx out_idx weight)) ;;
  modify (with_out_to_mol (table_set out_idx mol_idx weight)).

(** [apply_block_mapping]; it hands back [overlap] and
    [none_to_one_mappings]. The sets are lists without order of their own:
    the one set that is iterated, the spawned nodes, is taken in the order of
    the nodes of the block. *)
Definition apply_block_mapping (match_ : Match) : M MapState (list Z * list Z) :=
  let mol_to_block := match_map match_ in
  let blocks_to := match_graph match_ in
  s ← get;
  (if nrexcl (graph_out s) is None
   then modify (with_graph_out (with_nrexcl (nrexcl blocks_to)))
   else mret tt) ;;
  block_to_out ← on_graph_out (merge_molecule blocks_to);
  s ← get;
  let overlap := filter (λ k, k ∈ mol_to_block.*1) (mol_to_out s).*1 in
  for_each mol_to_block (λ '(mol_idx, row),
    for_each row (λ '(block_idx, weight),
      out_idx ← lift (subscript block_to_out block_idx);
      record_weight mol_idx out_idx weight)) ;;
  let mapped_block_idxs := mol_to_block ≫= (λ p, p.2.*1) in
  none_to_one_mappings ←
    for_fold (filter (λ n, n ∉ mapped_block_idxs) (nodes (graph blocks_to)).*1) []
      (λ spawned none_to_one_mappings,
         spawned ← lift (subscript block_to_out spawned);
         for_each mol_to_block (λ '(mol_idx, _), record_weight mol_idx spawned 0) ;;
         mret (none_to_one_mappings ++ [spawned]));
  mret (overlap, none_to_one_mappings).

(** The search of [apply_mod_mapping] for the output node that carries the
    atom name of a node of the modification: the [for ... else] loop. *)
Fixpoint find_out_idx (g : Graph Z) (mod_node : attrs) (out_idxs : list Z) : result Z :=
  match out_idxs with
  | [] => Raise ValueError
  | out_idx :: rest =>
      out_node ← getitem_key (nodes g) out_idx;
      name ← getitem mod_node "atomname";
      out_name ← getitem out_node "atomname";
      if py_eq name out_name then Ok out_idx else find_out_idx g mod_node rest
  end.

(** [[f(x) for x in l]] for an [f] that can raise *)
Fixpoint map_result {A B} (f : A → result B) (l : list A) : result (list B) :=
  match l with
  | [] => Ok []
  | x :: rest => y ← f x; ys ← map_result f rest; Ok (y :: ys)
  end.

(** [apply_mod_mapping]. The set [out_idxs] is walked in the order in which
    its elements are met. [applied_interactions] is the empty dict the source
    creates and indexes by the interaction type before it stores anything in
    it; what follows that lookup is never reached. *)
Definition apply_mod_mapping (match_ : Match) : M MapState (gmap string unit) :=
  let mol_to_mod := match_map match_ in
  let modification := match_graph match_ in
  let mod_to_mol : table :=
    foldl (λ t '(mol_idx, mod_idxs),
             foldl (λ t '(mod_idx, weight), table_set mod_idx mol_idx weight t)
                   t mod_idxs)
          [] mol_to_mod in
  mod_to_out ←
    for_fold (nodes (graph modification)) (∅ : gmap Z Z)
      (λ '(mod_idx, mod_node) mod_to_out,
         if truthy (dict_get mod_node "PTM_atom" (VBool false)) then
           s ← get;
           let out_idx :=
             if bool_decide (nodes (graph (graph_out s)) = []) then 0
             else max_node (graph (graph_out s)) + 1 in
           modify (with_graph_out (with_graph (add_node out_idx mod_node))) ;;
           mret (<[mod_idx := out_idx]> mod_to_out)
         else
           mol_idxs ← lift (getitem_key mod_to_mol mod_idx);
           s ← get;
           let out_idxs :=
             remove_dups (mol_idxs.*1 ≫= (λ mol_idx,
               (default [] (lookup_key mol_idx (mol_to_out s))).*1)) in
           out_idx ← lift (find_out_idx (graph (graph_out s)) mod_node out_idxs);
           mret (<[mod_idx := out_idx]> mod_to_out));
  for_each mol_to_mod (λ '(mol_idx, row),
    for_each row (λ '(mod_idx, weight),
      out_idx ← lift (getitem mod_to_out mod_idx);
      record_weight mol_idx out_idx weight)) ;;
  let applied_interactions : gmap string unit := ∅ in
  for_each (interactions modification) (λ '(interaction_type, interactions_),
    for_each interactions_ (λ interaction,
      _ ← lift (map_result (getitem_key mod_to_mol) (atoms interaction));
      _ ← lift (getitem applied_interactions interaction_type);
      raise TypeError)) ;;
  mret applied_interactions.

(** ** The resolution mapping: ordering the matches *)

(** [min(x[0].keys())], the key both lists of matches are sorted on; [min]
    of no key at all is a [ValueError]. *)
Definition min_key (match_ : Match) : result Z :=
  match (match_map match_).*1 with
  | [] => Raise ValueError
  | k :: rest => Ok (foldr Z.min k rest)
  end.

(** The place of [x] in a list that is sorted on decreasing keys, before
    the elements of equal key. *)
Fixpoint insert_desc (x : Z * Match) (l : list (Z * Match)) : list (Z * Match) :=
  match l with
  | [] => [x]
  | y :: rest => if x.1 <? y.1 then y :: insert_desc x rest else x :: l
  end.

(** [sorted(matches, key=lambda x: min(x[0].keys()), reverse=True)]: a
    stable sort, matches of equal key keep their order. *)
Definition sorted_desc (matches : list Match) : result (list Match) :=
  keys ← map_result min_key matches;
  Ok (foldr insert_desc [] (zip keys matches)).*2.

(** The locals of [do_mapping] that the loop over the matches fills in. *)
Record LoopVars : Type := mkLoopVars {
  overlapping_mappings : list Z;
  none_to_one_mappings : list Z;
  modified_interactions : gmap string unit;
  all_references : gmap Z Z;
  all_matches : list Match
}.

(** [all_matches.append(match); all_references.update(match[-1])] *)
Definition processed (match_ : Match) (v : LoopVars) : LoopVars :=
  mkLoopVars (overlapping_mappings v) (none_to_one_mappings v)
             (modified_interactions v)
             (match_references match_ ∪ all_references v)
             (all_matches v ++ [match_]).

(** The branch of the loop that applies a modification match *)
Definition mod_branch (match_ : Match) (v : LoopVars) : M MapState LoopVars :=
  applied_interactions ← apply_mod_mapping match_;
  mret (processed match_
          (mkLoopVars (overlapping_mappings v) (none_to_one_mappings v)
                      (applied_interactions ∪ modified_interactions v)
                      (all_references v) (all_matches v))).

(** The branch of the loop that applies a block match *)
Definition block_branch (match_ : Match) (v : LoopVars) : M MapState LoopVars :=
  '(overlap, none_to_one) ← apply_block_mapping match_;
  mret (processed match_
          (mkLoopVars (overlapping_mappings v ++ overlap)
                      (none_to_one_mappings v ++ none_to_one)
                      (modified_interactions v)
                      (all_references v) (all_matches v))).

(** The test of the loop: [not block_matches or (mod_matches and
    min(mod_matches[-1][0].keys()) < min(block_matches[-1][0].keys()))] *)
Definition takes_mod (block_matches mod_matches : list Match) : result bool :=
  match last block_matches, last mod_matches with
  | None, _ => Ok true
  | Some _, None => Ok false
  | Some b, Some m => km ← min_key m; kb ← min_key b; Ok (km <? kb)
  end.

(** [while block_matches or mod_matches: ...], each turn popping the last
    match of one of the two lists; [fuel] bounds the number of turns. *)
Fixpoint mapping_loop (fuel : nat) (block_matches mod_matches : list Match)
    (v : LoopVars) : M MapState LoopVars :=
  match fuel with
  | O => mret v
  | S fuel =>
      if bool_decide (block_matches = [] ∧ mod_matches = []) then mret v
      else
        mod_first ← lift (takes_mod block_matches mod_matches);
        if (mod_first : bool) then
          match last mod_matches with
          | None => raise IndexError
          | Some match_ =>
              v ← mod_branch match_ v;
              mapping_loop fuel block_matches (removelast mod_matches) v
          end
        else
          match last block_matches with
          | None => raise IndexError
          | Some match_ =>
              v ← block_branch match_ v;
              mapping_loop fuel (removelast block_matches) mod_matches v
          end
  end.

(** ** The resolution mapping: attributes, edges, result *)

(** [attrs_from_node]. A node with a ['replace'] attribute makes the source
    call [.items()] on the [None] that [dict.update] returns. *)
Definition attrs_from_node (node : attrs) (attrs_keep : list string) : result attrs :=
  if bool_decide (is_Some (node !! "replace")) then Raise AttributeError
  else Ok (filter (λ p, p.1 ∈ attrs_keep) node).

(** [g.nodes[n][key] = value] and [g.nodes[n].update(new)] on a known node *)
Definition set_node_attrs (n : Z) (new : attrs) : M MapState unit :=
  s ← get;
  if has_node (graph (graph_out s)) n
  then modify (with_graph_out (with_graph (add_node n new)))
  else raise KeyError.

(** [molecule.nodes[idx]] *)
Definition molecule_node (molecule : Molecule) (idx : Z) : result attrs :=
  getitem_key (nodes (graph molecule)) idx.

(** The keys of the adjacency of a node are node ids; the lookup is by any
    Python key. *)
Inductive pykey : Type :=
  | KInt (n : Z)
  | KStr (s : string).

#[global] Instance pykey_eq_dec : EqDecision pykey.
Proof. solve_decision. Defined.

(** [g[n].get(key, dflt)]: [g[n]] is the adjacency of [n], a dict from each
    neighbour to the data of the edge, an empty dict. *)
Definition adjacency_get (g : Graph Z) (n : Z) (key : pykey) (dflt : pyval)
    : result pyval :=
  if has_node g n then
    Ok (if bool_decide (key ∈ KInt <$> neighbors g n) then VWeights [] else dflt)
  else Raise KeyError.

(** The attributes the contributing atoms give to an output node: for each
    kept attribute the list of the values met, of which the first is taken. *)
Fixpoint collect_attrs (molecule : Molecule) (attribute_keep : list string)
    (mol_idxs : list Z) (acc : gmap string (list pyval))
    : result (gmap string (list pyval)) :=
  match mol_idxs with
  | [] => Ok acc
  | mol_idx :: rest =>
      node ← molecule_node molecule mol_idx;
      new_attrs ← attrs_from_node node attribute_keep;
      collect_attrs molecule attribute_keep rest
        (union_with (λ vals new, Some (vals ++ new)) acc ((λ v, [v]) <$> new_attrs))
  end.

(** The body of the loop over [out_to_mol] that sets the attributes of the
    output nodes and queues nodes in [to_remove]. *)
Definition reconcile_node (molecule : Molecule) (attribute_keep : list string)
    (all_references : gmap Z Z) (out_idx : Z) (weights : list (Z * Z))
    (to_remove : list Z) : M MapState (list Z) :=
  let mol_idxs := weights.*1 in
  let subgraph := filter (λ n, n ∈ mol_idxs) (nodes (graph molecule)).*1 in
  set_node_attrs out_idx {["graph" := VSubgraph subgraph]} ;;
  set_node_attrs out_idx {["mapping_weights" := VWeights weights]} ;;
  match all_references !! out_idx with
  | Some ref_idx =>
      node ← lift (molecule_node molecule ref_idx);
      new_attrs ← lift (attrs_from_node node attribute_keep);
      set_node_attrs out_idx new_attrs
  | None =>
      attrs_ ← lift (collect_attrs molecule attribute_keep mol_idxs ∅);
      set_node_attrs out_idx ((λ vals, default VNone (head vals)) <$> attrs_)
  end ;;
  s ← get;
  name ← lift (adjacency_get (graph (graph_out s)) out_idx (KStr "atomname") (VStr ""));
  mret (if is_None name then to_remove ++ [out_idx] else to_remove).

(** [itertools.combinations(l, 2)] *)
Fixpoint combinations2 {A} (l : list A) : list (A * A) :=
  match l with
  | [] => []
  | x :: rest => ((λ y, (x, y)) <$> rest) ++ combinations2 rest
  end.

(** [Molecule.edges_between] is called by [do_mapping] and defined by no
    class of [vermouth/molecule.py]: [Molecule.__getattr__] raises
    [AttributeError] for a name that starts with none of [get_], [add_] and
    [remove_]. The mapping takes the method as a parameter; this is the
    method the source has. *)
Definition edges_between_undefined (molecule : Molecule) (idxs jdxs : list Z)
    : result (list (Z * Z)) :=
  Raise AttributeError.

Section do_mapping.
Variable edges_between : Molecule → list Z → list Z → result (list (Z * Z)).

(** [mol_to_out[mol_idx].keys() - none_to_one_mappings]; reading the
    [defaultdict] creates a missing row. *)
Definition out_idxs_of (none_to_one_mappings : list Z) (mol_idx : Z)
    : M MapState (list Z) :=
  modify (with_mol_to_out (λ t,
    if bool_decide (mol_idx ∈ t.*1) then t else t ++ [(mol_idx, [])])) ;;
  s ← get;
  mret (filter (λ o, o ∉ none_to_one_mappings)
               (default [] (lookup_key mol_idx (mol_to_out s))).*1).

(** The edges between the output nodes of two matches *)
Definition connect_matches (molecule : Molecule) (none_to_one_mappings : list Z)
    (match1 match2 : Match) : M MapState unit :=
  edges_ ← lift (edges_between molecule (match_map match1).*1 (match_map match2).*1);
  for_each edges_ (λ '(mol_idx, mol_jdx),
    out_idxs ← out_idxs_of none_to_one_mappings mol_idx;
    out_jdxs ← out_idxs_of none_to_one_mappings mol_jdx;
    for_each (out_idxs ≫= (λ i, (λ j, (i, j)) <$> out_jdxs)) (λ '(out_idx, out_jdx),
      if bool_decide (out_idx ≠ out_jdx)
      then modify (with_graph_out (with_graph (add_edge out_idx out_jdx)))
      else mret tt)).

(** [do_mapping], from the two lists of matches that the [map] methods of
    the templates and [modification_matches] hand back. The reports of the
    sanity checks are left out: they log and change nothing. *)
Definition do_mapping_steps (molecule : Molecule)
    (block_matches mod_matches : list Match) (attribute_keep : list string)
    : M MapState (list Z) :=
  v ← mapping_loop (length block_matches + length mod_matches)
                   block_matches mod_matches
                   (mkLoopVars [] [] ∅ ∅ []);
  s ← get;
  to_remove ←
    for_fold (out_to_mol s) []
      (λ '(out_idx, weights) to_remove,
         reconcile_node molecule attribute_keep (all_references v)
                        out_idx weights to_remove);
  for_each (combinations2 (all_matches v)) (λ '(match1, match2),
    connect_matches molecule (none_to_one_mappings v) match1 match2) ;;
  mret to_remove.

Definition do_mapping (molecule : Molecule)
    (block_matches mod_matches : list Match) (to_ff : option nat)
    (attribute_keep : list string) : result Molecule :=
  let graph_out0 := new_molecule to_ff (mol_meta molecule) in
  let attribute_keep := "chain" :: attribute_keep in
  block_matches ← sorted_desc block_matches;
  mod_matches ← sorted_desc mod_matches;
  match do_mapping_steps molecule block_matches mod_matches attribute_keep
                         (mkMapState graph_out0 [] []) with
  | (Ok to_remove, s) =>
      Ok (with_graph (remove_nodes_from to_remove) (graph_out s))
  | (Raise e, _) => Raise e
  end.
End do_mapping.

(** ** Well-formed molecules *)

(** Every atom that an interaction of the table refers to satisfies [P]. *)
Definition table_atoms_all {N} (P : N → bool) (d : itable N) : bool :=
  forallb (λ p, forallb (λ i, forallb P (atoms i)) p.2) d.

(** The invariant of the interactions: every atom referenced by a stored
    interaction is a node of the graph. *)
Definition interactions_wf (m : Molecule) : bool :=
  table_atoms_all (has_node (graph m)) (interactions m).

(** A value that [+] adds an integer to *)
Definition numeric (v : pyval) : bool :=
  match v with VInt _ | VBool _ => true | _ => false end.

(** An atom that [merge_molecule] can renumber: its residue id is a number
    and so is its charge group when it has one. *)
Definition mergeable_atom (atom : attrs) : bool :=
  match atom !! "resid" with Some v => numeric v | None => false end
  && numeric (dict_get atom "charge_group" (VInt 0)).

(** The atom of the largest id, the one that [merge_molecule] reads the
    offsets of the residue and of the charge group from *)
Definition last_atom (m : Molecule) : attrs :=
  default ∅ (node_attrs (graph m) (max_node (graph m))).

Definition mergeable_atoms (m : Molecule) : bool :=
  forallb (λ p, mergeable_atom p.2) (nodes (graph m)).

(** The two ends of every edge are nodes. *)
Definition edges_wf (g : Graph Z) : bool :=
  forallb (λ e, has_node g e.1 && has_node g e.2) (edges g).

(** A molecule as [networkx] and [add_interaction] keep it: no id twice,
    edges and interactions between nodes of the molecule. *)
Definition molecule_wf (m : Molecule) : bool :=
  bool_decide (NoDup (nodes (graph m)).*1) && interactions_wf m && edges_wf (graph m).

(** The id that the atom [n] of a molecule with the ids [ids], in this
    order, gets when the molecule is merged at [offset]: the offset plus the
    place of [n] among the ids. *)
Definition renumber (offset : Z) (ids : list Z) (n : Z) : Z :=
  match list_find (λ m, m = n) ids with
  | Some (i, _) => offset + Z.of_nat i
  | None => offset
  end.

(** An interaction with its atoms renumbered *)
Definition renumbered (offset : Z) (ids : list Z) (x : Interaction Z) : Interaction Z :=
  mkInteraction (renumber offset ids <$> atoms x) (parameters x) (meta x).

(** ** Invariants of a computation *)

(** [m] keeps the property [I] of the object it works on, whether it
    returns or raises. *)
Definition preserves {S A} (I : S → Prop) (m : M S A) : Prop :=
  ∀ s, I s → I (m s).2.

(** ** The order of the merge *)

(** The matches in the order in which they are applied, a modification
    match under the flag [true], a block match under [false]. *)
Fixpoint apply_in_order (order : list (bool * Match)) (v : LoopVars)
    : M MapState LoopVars :=
  match order with
  | [] => mret v
  | (true, match_) :: rest => v ← mod_branch match_ v; apply_in_order rest v
  | (false, match_) :: rest => v ← block_branch match_ v; apply_in_order rest v
  end.

(** The lowest atom of the molecule that a match touches *)
Definition key_of (match_ : Match) : Z :=
  match min_key match_ with Ok k => k | Raise _ => 0 end.

(** [x] may be applied before [y]: its lowest atom is not above that of
    [y], and is strictly below it when [x] is a modification match and [y] a
    block match. *)
Definition goes_before (x y : bool * Match) : Prop :=
  key_of x.2 ≤ key_of y.2 ∧ (x.1 = true → y.1 = false → key_of x.2 < key_of y.2).

(** Sorted on decreasing keys, as [sorted(..., reverse=True)] leaves a list *)
Definition desc (matches : list Match) : Prop :=
  StronglySorted (λ a b, key_of b ≤ key_of a) matches.

(** ** Sample molecules *)

(** A particle with a name and a residue id *)
Definition particle (name : string) (resid : Z) : attrs :=
  {[ "atomname" := VStr name; "resid" := VInt resid ]}.

(** Two bonded particles, ids 0 and 1 *)
Definition dimer : Molecule :=
  mkMolecule (mkGraph [(0, particle "A" 1); (1, particle "B" 1)] [(0, 1)])
             [("bonds", [mkInteraction [0; 1] [] ∅])] None None ∅.

(** Two bonded particles whose ids, 5 and 7, do not start at 0 *)
Definition dimer_5_7 : Molecule :=
  mkMolecule (mkGraph [(5, particle "C" 1); (7, particle "D" 1)] [(5, 7)])
             [("bonds", [mkInteraction [5; 7] [] ∅])] None None ∅.

(** [dimer] with the bond stored under version 2 *)
Definition dimer_v2 : Molecule :=
  mkMolecule (mkGraph [(0, particle "A" 1); (1, particle "B" 1)] [(0, 1)])
             [("bonds", [mkInteraction [0; 1] [] {[ "version" := VInt 2 ]}])]
             None None ∅.

(** [dimer] without its interaction *)
Definition dimer_bare : Molecule :=
  mkMolecule (graph dimer) [("bonds", [])] None None ∅.

(** [dimer] with another exclusion radius *)
Definition dimer_nrexcl_3 : Molecule :=
  mkMolecule (graph dimer) (interactions dimer) (Some 3) None ∅.

(** A template for the particle ["A"] of residue 1 or 2 *)
Definition sample_template : list (string * tvalue) :=
  [("atomname", Lit (VStr "A")); ("resid", Pred (Choice [VInt 1; VInt 2]))].

(** A block with an edge drawn by hand and no interaction *)
Definition block_with_edge : Block :=
  mkBlock (mkGraph [("X", ∅); ("Y", ∅)] [("X", "Y")]) None [].

(** A block with two bonds, one of which is marked as making no edge, and
    an improper torsion, which is of none of the known types *)
Definition sample_block : Block :=
  mkBlock (mkGraph [] []) (Some "ALA")
    [("bonds", [mkInteraction ["N"; "CA"] [] ∅;
                mkInteraction ["CA"; "C"] [] {[ "edge" := VBool false ]}]);
     ("impropers", [mkInteraction ["N"; "C"; "CA"; "CB"] [] ∅])].

(** A block match and a modification match that both start at atom 1;
    their templates are empty, so that applying them goes through. *)
Definition tie_block : Match := mkMatch [(1, [])] (new_molecule None ∅) ∅.
Definition tie_mod : Match := mkMatch [(1, []); (2, [])] (new_molecule None ∅) ∅.

(** One atom of a molecule in force field 1, tagged with a modification *)
Definition source_atom : Molecule :=
  mkMolecule (mkGraph [(0, {[ "atomname" := VStr "CA"; "chain" := VStr "A";
                             "modifications" := VStrs ["phos"] ]})] [])
             [] None (Some 1%nat) ∅.

(** A match of a modification whose one node is new to the output and has
    [None] for its atom name *)
Definition unnamed_mod_match : Match :=
  mkMatch [(0, [(0, 1)])]
          (mkMolecule (mkGraph [(0, {[ "PTM_atom" := VBool true; "atomname" := VNone ]})] [])
                      [] None None ∅)
          ∅.

(** One particle that has a name and no residue id *)
Definition nameless_residue : Molecule :=
  mkMolecule (mkGraph [(0, {[ "atomname" := VStr "A" ]})] []) [] None None ∅.

(** * More of [vermouth/molecule.py] *)

(** ** Replacing, matching and finding *)

(** The test of [add_or_replace_interaction]: the same atoms and the same
    version, an interaction without a version being of version 0. *)
Definition same_slot (atoms_ : list Z) (meta_ : attrs) (i : Interaction Z) : bool :=
  bool_decide (atoms i = atoms_)
  && py_eq (dict_get (meta i) "version" (VInt 0)) (dict_get meta_ "version" (VInt 0)).

(** [Molecule.add_or_replace_interaction] *)
Definition add_or_replace_interaction (type_ : string) (atoms_ : list Z)
    (parameters_ : list pyval) (meta_ : option attrs) : M Molecule unit :=
  let meta_ := default ∅ meta_ in
  l ← get_interaction type_;
  match list_find (λ i, same_slot atoms_ meta_ i = true) l with
  | Some (idx, _) =>
      modify (with_interactions
                (alter_list (λ l, <[idx := mkInteraction atoms_ parameters_ meta_]> l)
                            type_))
  | None => add_interaction type_ atoms_ parameters_ (Some meta_)
  end.

(** The template of an interaction: an [Interaction] or, with attributes
    asked of each atom, a [DeleteInteraction]; its metadata can hold
    predicates. *)
Record TemplateInteraction : Type := mkTemplateInteraction {
  template_atoms : list Z;
  template_atom_attrs : option (list (list (string * tvalue)));
  template_parameters : list pyval;
  template_meta : list (string * tvalue)
}.

(** [tuple(l) == tuple(k)] *)
Fixpoint tuple_eq (l k : list pyval) : bool :=
  match l, k with
  | [], [] => true
  | x :: l, y :: k => py_eq x y && tuple_eq l k
  | _, _ => false
  end.

(** The loop of [interaction_match] over the atoms and what the template
    asks of them *)
Fixpoint atoms_match (nodes_ : list attrs) (atom_attrs : list (list (string * tvalue)))
    (and_then : result bool) : result bool :=
  match nodes_, atom_attrs with
  | atom :: nodes_, template_atom :: atom_attrs =>
      match attributes_match atom template_atom [] with
      | Raise e => Raise e
      | Ok false => Ok false
      | Ok true => atoms_match nodes_ atom_attrs and_then
      end
  | _, _ => and_then
  end.

(** [interaction_match] *)
Definition interaction_match (molecule : Molecule) (interaction : Interaction Z)
    (template_interaction : TemplateInteraction) : result bool :=
  let atoms_match_ :=
    bool_decide (template_atoms template_interaction = atoms interaction) in
  let parameters_match :=
    bool_decide (template_parameters template_interaction = [])
    || tuple_eq (template_parameters template_interaction) (parameters interaction) in
  if atoms_match_ && parameters_match then
    let atom_attrs :=
      default (replicate (length (template_atoms template_interaction)) [])
              (template_atom_attrs template_interaction) in
    nodes_ ← map_result (molecule_node molecule) (atoms interaction);
    atoms_match nodes_ atom_attrs
      (attributes_match (meta interaction) (template_meta template_interaction) [])
  else Ok false.

(** The loop of [remove_matching_interaction]: the index it breaks on *)
Fixpoint find_matching (molecule : Molecule) (template_interaction : TemplateInteraction)
    (l : list (Interaction Z)) (idx : nat) : result (option nat) :=
  match l with
  | [] => Ok None
  | interaction :: rest =>
      match interaction_match molecule interaction template_interaction with
      | Raise e => Raise e
      | Ok true => Ok (Some idx)
      | Ok false => find_matching molecule template_interaction rest (S idx)
      end
  end.

(** [Molecule.remove_matching_interaction] *)
Definition remove_matching_interaction (type_ : string)
    (template_interaction : TemplateInteraction) : M Molecule unit :=
  l ← get_interaction type_;
  self ← get;
  found ← lift (find_matching self template_interaction l 0);
  match (found : option nat) with
  | Some idx => modify (with_interactions (alter_list (delete idx) type_))
  | None => raise ValueError
  end.

(** [Molecule.find_atoms] with its keyword arguments, the ids it yields *)
Definition find_atoms (attrs_ : list (string * pyval)) (self : Molecule) : list Z :=
  (filter (λ p, forallb (λ q, py_eq (dict_get p.2 q.1 VNone) q.2) attrs_ = true)
          (nodes (graph self))).*1.

(** [Molecule.copy()]: the graph is copied into a new [Molecule], which
    starts without interactions and without [nrexcl], and is then given the
    force field and a copy of the meta. *)
Definition copy (self : Molecule) : Molecule :=
  mkMolecule (graph self) [] None (force_field self) (mol_meta self).

(** [Molecule.subgraph(nodes)]: a new [Molecule] on the nodes of the graph
    that are among [nodes] and on the edges between them *)
Definition subgraph (nbunch : list Z) (self : Molecule) : Molecule :=
  mkMolecule (mkGraph (filter (λ p, p.1 ∈ nbunch) (nodes (graph self)))
                      (filter (λ e, (e.1 ∈ nbunch) ∧ (e.2 ∈ nbunch))
                              (edges (graph self))))
             [] None None ∅.

(** ** Methods by name *)










(** The template that asks for an interaction as it is stored: its atoms,
    its parameters and every entry of its metadata, by value. *)
Definition template_of (x : Interaction Z) : TemplateInteraction :=
  mkTemplateInteraction (atoms x) None (parameters x)
                        ((λ q, (q.1, Lit q.2)) <$> map_to_list (meta x)).

(** * More of [Block] *)

(** Every end of an edge is a node of the graph, as [networkx] keeps it. *)
Definition ends_are_nodes {N} `{EqDecision N} (g : Graph N) : bool :=
  forallb (λ e, has_node g e.1 && has_node g e.2) (edges g).

(** [Block.guess_angles], the triples it yields *)
Definition guess_angles (self : Block) : list (string * string * string) :=
  a ← (nodes (block_graph self)).*1;
  b ← neighbors (block_graph self) a;
  c ← neighbors (block_graph self) b;
  if decide (c = a) then [] else [(a, b, c)].

(** [Block.guess_dihedrals()], called without angles: they are those of
    [guess_angles]. *)
Definition guess_dihedrals (self : Block) : list (string * string * string * string) :=
  abc ← guess_angles self;
  d ← neighbors (block_graph self) abc.2;
  if bool_decide (d ∈ [abc.1.1; abc.1.2]) then [] else [(abc.1.1, abc.1.2, abc.2, d)].

(** A block with the bonds N-CA, CA-C and C-O *)
Definition tripeptide_block : Block :=
  mkBlock (mkGraph [] []) (Some "GLY")
          [("bonds", [mkInteraction ["N"; "CA"] [] ∅; mkInteraction ["CA"; "C"] [] ∅;
                      mkInteraction ["C"; "O"] [] ∅])].

(** ** From a block to a molecule *)

(** [hash(v)] is defined: lists and dicts are no keys of a dict. *)
Definition hashable (v : pyval) : bool :=
  match v with VStrs _ | VWeights _ => false | _ => true end.

(** [Block.atoms]: the attributes of the nodes that have any *)
Definition block_atoms (self : Block) : list attrs :=
  filter (λ a, a ≠ ∅) (nodes (block_graph self)).*2.

(** [name_to_idx[atom['atomname']] = idx]. The dict is read by the names of
    nodes, which are strings: an entry under another key is never read and
    is left out. *)
Definition name_atom (atom : attrs) (idx : Z) (name_to_idx : gmap string Z)
    : result (gmap string Z) :=
  atomname ← getitem atom "atomname";
  match atomname with
  | VStr name => Ok (<[name := idx]> name_to_idx)
  | v => if hashable v then Ok name_to_idx else Raise TypeError
  end.

(** The attributes of an atom of the new molecule *)
Definition block_atom (resid : Z) (resname : option string) (offset_charge_group : Z)
    (atom : attrs) : result attrs :=
  let new_atom :=
    <["resname" := from_option VStr VNone resname]> (<["resid" := VInt resid]> atom) in
  cg ← py_add (dict_get new_atom "charge_group" (VInt 0)) offset_charge_group;
  Ok (<["charge_group" := VInt cg]> new_atom).

(** The first loop of [to_molecule]:
    [for idx, atom in enumerate(self.atoms, start=idx)] *)
Fixpoint block_nodes (resid : Z) (resname : option string) (offset_charge_group : Z)
    (idx : Z) (atoms_ : list attrs) (name_to_idx : gmap string Z)
    : M Molecule (gmap string Z) :=
  match atoms_ with
  | [] => mret name_to_idx
  | atom :: rest =>
      name_to_idx ← lift (name_atom atom idx name_to_idx);
      new_atom ← lift (block_atom resid resname offset_charge_group atom);
      modify (with_graph (add_node idx new_atom)) ;;
      block_nodes resid resname offset_charge_group (idx + 1) rest name_to_idx
  end.

(** The body of [to_molecule] on the new molecule; [block_nrexcl] is the
    attribute [nrexcl] of the block, which the class does not set: [None]
    when the block has none. *)
Definition to_molecule_steps (block_nrexcl : option (option Z))
    (atom_offset resid offset_charge_group : Z) (self : Block) : M Molecule unit :=
  name_to_idx ←
    block_nodes resid (block_name self) offset_charge_group atom_offset
                (block_atoms self) ∅;
  for_each (block_interactions self) (λ '(name, interactions_),
    for_each interactions_ (λ interaction,
      atoms_ ← lift (map_result (getitem name_to_idx) (atoms interaction));
      add_interaction name atoms_ (parameters interaction) None)) ;;
  for_each (edges (block_graph self)) (λ edge,
    u ← lift (getitem name_to_idx edge.1);
    v ← lift (getitem name_to_idx edge.2);
    modify (with_graph (add_edge u v))) ;;
  match block_nrexcl with
  | Some n => modify (with_nrexcl n)
  | None => mret tt
  end.

(** [Block.to_molecule] *)
Definition to_molecule (block_nrexcl : option (option Z))
    (atom_offset resid offset_charge_group : Z) (self : Block) : result Molecule :=
  match to_molecule_steps block_nrexcl atom_offset resid offset_charge_group self
                          (new_molecule None ∅) with
  | (Ok _, mol) => Ok mol
  | (Raise e, _) => Raise e
  end.

(** An interaction of a molecule is an interaction of the block it was made
    from: between the atoms that [name_to_idx] gives for the names, with the
    same parameters, and without metadata. *)
Definition renamed (name_to_idx : gmap string Z) (block_interaction : Interaction string)
    (interaction : Interaction Z) : Prop :=
  Forall2 (λ name idx, name_to_idx !! name = Some idx)
          (atoms block_interaction) (atoms interaction)
  ∧ parameters interaction = parameters block_interaction
  ∧ meta interaction = ∅.

(** A block of two named atoms with a bond that carries a comment *)
Definition named_block : Block :=
  mkBlock (mkGraph [("N", {[ "atomname" := VStr "N" ]});
                    ("CA", {[ "atomname" := VStr "CA"; "charge_group" := VInt 2 ]})]
                   [("N", "CA")])
          (Some "GLY")
          [("bonds", [mkInteraction ["N"; "CA"] [VStr "0.15"] {[ "comment" := VStr "x" ]}])].

(** * More about the resolution mapping *)

(** [t[i][j]], when both keys are there *)
Definition entry (t : table) (i j : Z) : option Z :=
  lookup_key i t ≫= lookup_key j.

(** The two tables of [do_mapping] hold the same weights, one by atom of
    the molecule and the other by atom of the output. *)
Definition transposed (mol_to_out_ out_to_mol_ : table) : Prop :=
  ∀ i j, entry mol_to_out_ i j = entry out_to_mol_ j i.

(** A property of a molecule that the four ways in which the mapping edits
    its output keep: a new or updated node, a new edge, a new interaction
    and a new [nrexcl]. *)
Definition kept_by_edits (I : Molecule → Prop) : Prop :=
  (∀ n a m, I m → I (with_graph (add_node n a) m))
  ∧ (∀ u v m, I m → I (with_graph (add_edge u v) m))
  ∧ (∀ type_ atoms_ parameters_ meta_,
       preserves I (add_interaction type_ atoms_ parameters_ meta_))
  ∧ (∀ n m, I m → I (with_nrexcl n m)).


(** ** The node matchers of the mapping *)

(** [node_matcher]: the attributes of the template, but for those the two
    force fields need not agree on. *)
Definition node_matcher (node1 : attrs) (node2 : list (string * tvalue)) : result bool :=
  attributes_match node1 node2
    ["atype"; "charge"; "charge_group"; "resid"; "replace"; "_old_atomname"].

(** [_old_atomname_match]: the default of [get] is evaluated whether it is
    needed or not, so both nodes are subscripted by ['atomname']. *)
Definition old_atomname_match (node1 : attrs) (node2 : list (string * tvalue))
    : result bool :=
  atomname1 ← getitem node1 "atomname";
  let name1 := dict_get node1 "_old_atomname" atomname1 in
  atomname2 ← getitem_key node2 "atomname";
  let name2 := default atomname2 (lookup_key "_old_atomname" node2) in
  let node1 := delete "atomname" (<["_name" := name1]> node1) in
  let node2 := without_key "atomname" (set_key "_name" name2 node2) in
  node_matcher node1 node2.

(** [bool(value)] for a value of a template: a predicate is an object
    without [__bool__] and without [__len__]. *)
Definition tvalue_truthy (value : tvalue) : bool :=
  match value with Lit v => truthy v | Pred _ => true end.

(** [key in node and not node[key]] *)
Definition falsy_at (key : string) (node : list (string * tvalue)) : bool :=
  match lookup_key key node with
  | Some value => negb (tvalue_truthy value)
  | None => false
  end.

(** [ptm_resname_match], with the dict of the caller as the call leaves it:
    [node2] is copied only when its residue name is dropped, so that the
    [del] of ['PTM_atom'] is otherwise made in the dict that was passed. *)
Definition ptm_resname_match (node1 : attrs) (node2 : list (string * tvalue))
    : result bool * list (string * tvalue) :=
  let copied := falsy_at "resname" node2 in
  let local := if copied then without_key "resname" node2 else node2 in
  let dropped := falsy_at "PTM_atom" local in
  let local := if dropped then without_key "PTM_atom" local else local in
  (node_matcher node1 local,
   if dropped && negb copied then without_key "PTM_atom" node2 else node2).

(** ** The matches of the modifications *)

(** The last loop of [modification_matches], over the matches that the [map]
    method of the needed mappings yields, in the order in which the loop
    meets them: a match is kept when it holds a node that is still among the
    modified ones, and the nodes it holds are then no longer among them. *)
Fixpoint keep_matches (yielded : list Match) (modified_nodes : gset Z) : list Match :=
  match yielded with
  | [] => []
  | match_ :: rest =>
      let touched : gset Z := list_to_set (match_map match_).*1 in
      if bool_decide (modified_nodes ∩ touched = ∅)
      then keep_matches rest modified_nodes
      else match_ :: keep_matches rest (modified_nodes ∖ touched)
  end.

(** ** Dihedrals and impropers around a bond *)

(** [interaction[key]] for a string [key]: an interaction is a named tuple,
    and the indices of a tuple are integers or slices. *)
Definition subscript_name {N} (interaction : Interaction N) (key : string)
    : result (list N) :=
  Raise TypeError.

(** [l[1:-1]] *)
Definition middle {A} (l : list A) : list A := removelast (tail l).

(** [Block.has_dihedral_around] *)
Definition has_dihedral_around (center : list string) (self : Block) : result bool :=
  all_centers ←
    map_result (λ dih, atoms_ ← subscript_name dih "atoms"; Ok (middle atoms_))
               (get_list (block_interactions self) "dihedrals");
  Ok (bool_decide (center ∈ all_centers)).

(** [Block.has_improper_around] *)
Definition has_improper_around (center : list string) (self : Block) : bool :=
  let all_centers :=
    (λ dih, middle (atoms dih)) <$> get_list (block_interactions self) "impropers" in
  bool_decide (center ∈ all_centers).

(** ** The processor *)

(** A system: its molecules and its force field *)
Record System : Type := mkSystem {
  molecules : list Molecule;
  system_force_field : option nat
}.

(** [bool(molecule)]: a graph is true when it has a node. *)
Definition molecule_truthy (molecule : Molecule) : bool :=
  negb (bool_decide (nodes (graph molecule) = [])).

Section DoMapping.
Variable edges_between : Molecule → list Z → list Z → result (list (Z * Z)).
(** What the mappings give for a molecule: the lookup of the two force
    fields in [build_graph_mapping_collection], the [map] method of every
    mapping, and [modification_matches]. The mappings are objects of another
    module. *)
Variable find_matches : Molecule → result (list Match * list Match).
Variable to_ff : option nat.
Variable delete_unknown : bool.
Variable attribute_keep : list string.

Definition run_molecule (molecule : Molecule) : result Molecule :=
  '(block_matches, mod_matches) ← find_matches molecule;
  do_mapping edges_between molecule block_matches mod_matches to_ff attribute_keep.

(** The loop of [run_system], [mols] being the list it builds *)
Fixpoint run_molecules (todo mols : list Molecule) : result (list Molecule) :=
  match todo with
  | [] => Ok mols
  | molecule :: rest =>
      match run_molecule molecule with
      | Raise KeyError =>
          if negb delete_unknown then Raise KeyError else Raise KeyError
      | Raise e => Raise e
      | Ok new_molecule =>
          run_molecules rest
            (if molecule_truthy new_molecule then mols ++ [new_molecule] else mols)
      end
  end.

(** [run_system], with the system as the call leaves it; the system is
    assigned to after the loop only. *)
Definition run_system (system : System) : result System :=
  mols ← run_molecules (molecules system) [];
  Ok (mkSystem mols to_ff).
End DoMapping.


(** ** What a computation ensures *)

(** [m] keeps the property [I] whenever it returns. *)
Definition ensures {S A} (I : S → Prop) (m : M S A) : Prop :=
  ∀ s, I s → match m s with (Ok _, s') => I s' | (Raise _, _) => True end.

(** A molecule without a bond: it has no edge, and none of its interactions
    names an atom. *)
Definition unbonded (m : Molecule) : Prop :=
  edges (graph m) = [] ∧ table_atoms_all (λ _, false) (interactions m) = true.

(** * Properties *)

(** ** The monad *)

Lemma bind_run {S A B} (m : M S A) (f : A → M S B) (s : S) :
  (m ≫= f) s = match m s with
               | (Ok a, s') => f a s'
               | (Raise e, s') => (Raise e, s')
               end.
Proof. reflexivity. Qed.

(** One step of a computation: the first action is run, and the case in
    which it raises is closed when the goal is about a computation that
    returns. *)
Ltac bind_step :=
  rewrite bind_run;
  match goal with
  | |- context [match ?m ?s with (_, _) => _ end] =>
      destruct (m s) as [[?|?] ?] eqn:?; [|done]
  end.

Lemma forallb_false_elem {A} (P : A → bool) (l : list A) :
  forallb P l = false ↔ ∃ a, a ∈ l ∧ P a = false.
Proof.
  induction l as [|x l IH]; simpl.
  - split; [done|]. by intros (a & Ha%elem_of_nil & _).
  - rewrite andb_false_iff, IH. split.
    + intros [Hx|(a & Ha & Hf)]; [exists x | exists a]; (split; [|done]).
      * apply elem_of_cons; by left.
      * apply elem_of_cons; by right.
    + intros (a & [->|Ha]%elem_of_cons & Hf); [by left | right; eauto].
Qed.

Lemma forallb_true_elem {A} (P : A → bool) (l : list A) :
  forallb P l = true ↔ ∀ a, a ∈ l → P a = true.
Proof.
  rewrite forallb_forall. split; intros H a Ha; apply H; by apply list_elem_of_In.
Qed.

(** ** [add_interaction] *)

Lemma check_atoms_run (atoms_ : list Z) (self : Molecule) :
  for_each atoms_ (λ atom,
    self ← get;
    if has_node (graph self) atom then mret tt else raise ValueError) self
  = (if forallb (has_node (graph self)) atoms_ then Ok tt else Raise ValueError, self).
Proof.
  induction atoms_ as [|a atoms_ IH]; simpl; [done|].
  rewrite !bind_run. unfold get at 1.
  destruct (has_node (graph self) a); simpl; [apply IH | done].
Qed.

Lemma add_interaction_run type_ atoms_ parameters_ meta_ (self : Molecule) :
  add_interaction type_ atoms_ parameters_ meta_ self =
  if forallb (has_node (graph self)) atoms_
  then (Ok tt, with_interactions (λ d,
          alter_list (λ l, l ++ [mkInteraction atoms_ parameters_ (default ∅ meta_)])
                     type_ (touch type_ d)) self)
  else (Raise ValueError, self).
Proof.
  unfold add_interaction. rewrite bind_run, check_atoms_run.
  by destruct (forallb _ atoms_).
Qed.

Lemma table_atoms_all_app {N} (P : N → bool) (d1 d2 : itable N) :
  table_atoms_all P (d1 ++ d2) = table_atoms_all P d1 && table_atoms_all P d2.
Proof. apply forallb_app. Qed.

Lemma table_atoms_all_touch {N} (P : N → bool) type_ (d : itable N) :
  table_atoms_all P (touch type_ d) = table_atoms_all P d.
Proof.
  unfold touch. case_bool_decide; [done|].
  rewrite table_atoms_all_app. cbn. by rewrite andb_true_r.
Qed.

Lemma table_atoms_all_alter {N} (P : N → bool) f type_ (d : itable N) :
  (∀ l, forallb (λ i, forallb P (atoms i)) l = true →
        forallb (λ i, forallb P (atoms i)) (f l) = true) →
  table_atoms_all P d = true →
  table_atoms_all P (alter_list f type_ d) = true.
Proof.
  intros Hf. induction d as [|[t l] d IH]; simpl; [done|].
  intros [Hl Hd]%andb_prop. case_decide; simpl.
  - by rewrite Hf, Hd.
  - by rewrite Hl, IH.
Qed.

Lemma table_atoms_all_append {N} (P : N → bool) type_ (x : Interaction N) (d : itable N) :
  forallb P (atoms x) = true →
  table_atoms_all P d = true →
  table_atoms_all P (alter_list (λ l, l ++ [x]) type_ (touch type_ d)) = true.
Proof.
  intros Hx Hd. apply table_atoms_all_alter.
  - intros l Hl. rewrite forallb_app, Hl. simpl. by rewrite Hx.
  - by rewrite table_atoms_all_touch.
Qed.

(** C10. [add_interaction] raises exactly when one of the atoms is not a
    node of the molecule; when it raises, the molecule, its interaction lists
    included, is as it was before the call; and a call that returns keeps
    the invariant that every atom of a stored interaction is a node. *)
Theorem add_interaction_validates_atoms
    type_ atoms_ parameters_ meta_ (self : Molecule) :
  let run := add_interaction type_ atoms_ parameters_ meta_ self in
  ((∃ e, run.1 = Raise e) ↔ (∃ a, a ∈ atoms_ ∧ has_node (graph self) a = false))
  ∧ (∀ e, run.1 = Raise e → e = ValueError ∧ run.2 = self)
  ∧ (run.1 = Ok tt → graph run.2 = graph self
                     ∧ (interactions_wf self = true → interactions_wf run.2 = true)).
Proof.
  cbn zeta. rewrite add_interaction_run.
  destruct (forallb (has_node (graph self)) atoms_) eqn:Hall; cbn.
  - split; [|split].
    + split; [by intros [e ?]|]. intros (a & Ha & Hn).
      rewrite forallb_true_elem in Hall. rewrite (Hall a Ha) in Hn. discriminate.
    + intros e ?; discriminate.
    + intros _. split; [done|]. unfold interactions_wf. cbn.
      by apply table_atoms_all_append.
  - split; [|split].
    + split; [|by eauto]. intros _. by apply forallb_false_elem.
    + intros e [= <-]. done.
    + intros ?; discriminate.
Qed.

Lemma add_interaction_validates_atoms_witness :
  interactions_wf (add_interaction "angles" [0; 1; 0] [] None dimer).2 = true.
Proof.
  apply (add_interaction_validates_atoms "angles" [0; 1; 0] [] None dimer);
    reflexivity.
Defined.

(** ** [remove_interaction] *)

(** The version asked for plays no part in what is removed. *)
Lemma remove_interaction_ignores_version type_ atoms_ v w (self : Molecule) :
  remove_interaction type_ atoms_ v self = remove_interaction type_ atoms_ w self.
Proof. reflexivity. Qed.

(** C5. The code at the inputs on which it departs from the claim. The bond
    between 0 and 1 of [dimer] is stored without a version, that is under
    version 0: removing it under version 0 raises [KeyError] and leaves it
    in place. The same bond stored under version 2 is removed by a call that
    asks for version 1. *)
Theorem remove_interaction_misses_version :
  remove_interaction "bonds" [0; 1] 0 dimer = (Raise KeyError, dimer)
  ∧ remove_interaction "bonds" [0; 1] 1 dimer_v2 = (Ok tt, dimer_bare).
Proof. split; reflexivity. Qed.

(** ** [merge_molecule] *)

(** C9. A molecule of another force field or of another [nrexcl] is
    refused with a [ValueError], and the receiver is left as it was. *)
Theorem merge_molecule_refuses_mismatch (self molecule : Molecule) :
  force_field self ≠ force_field molecule ∨ nrexcl self ≠ nrexcl molecule →
  merge_molecule molecule self = (Raise ValueError, self).
Proof.
  intros H. unfold merge_molecule. rewrite bind_run. unfold get at 1.
  case_bool_decide; [done|]. case_bool_decide; [done|]. tauto.
Qed.

Lemma merge_molecule_refuses_mismatch_witness :
  merge_molecule dimer_nrexcl_3 dimer = (Raise ValueError, dimer).
Proof.
  apply (merge_molecule_refuses_mismatch dimer dimer_nrexcl_3).
  right. discriminate.
Defined.

(** C1. What [merge_molecule] hands back. Whenever it returns it returns
    [None], never the dict of correspondences that it builds: merging
    [dimer_5_7] into [dimer] returns [None], and [apply_block_mapping], which
    indexes the returned value, stops with a [TypeError] on a match of that
    block. *)
Theorem merge_molecule_returns_None :
  (∀ self molecule r merged,
     merge_molecule molecule self = (Ok r, merged) → r = RNone)
  ∧ (merge_molecule dimer_5_7 dimer).1 = Ok RNone
  ∧ (apply_block_mapping (mkMatch [(0, [(5, 1)])] dimer_5_7 ∅)
       (mkMapState (new_molecule None ∅) [] [])).1 = Raise TypeError.
Proof.
  split; [|split; reflexivity].
  intros self molecule r merged. unfold merge_molecule.
  rewrite bind_run. unfold get at 1.
  case_bool_decide; [done|]. case_bool_decide; [done|].
  rewrite bind_run. destruct (lift (merge_offsets self) self) as [[[[o ro] ocg]|e] s1]; [|done].
  rewrite bind_run. destruct (merge_nodes _ _ _ _ _ s1) as [[corr|e] s2]; [|done].
  rewrite bind_run. destruct (for_each (interactions molecule) _ s2) as [[[]|e] s3]; [|done].
  rewrite bind_run. destruct (for_each (edges (graph molecule)) _ s3) as [[[]|e] s4]; [|done].
  by intros [= <- _].
Qed.

Lemma merge_molecule_returns_None_witness :
  match (merge_molecule dimer_5_7 dimer).1 with
  | Ok r => r = RNone
  | Raise _ => True
  end.
Proof.
  destruct (merge_molecule dimer_5_7 dimer) as [[r|e] merged] eqn:E; simpl; [|done].
  exact (proj1 merge_molecule_returns_None dimer dimer_5_7 r merged E).
Defined.

(** ** [attributes_match] *)

(** The test that [attributes_match] makes on one key of the template;
    it reads [attributes] at that key only. *)
Lemma predicate_match_agree p (attributes1 attributes2 : attrs) key :
  attributes1 !! key = attributes2 !! key →
  predicate_match p attributes1 key = predicate_match p attributes2 key.
Proof.
  intros H. destruct p; simpl; [done| |]; unfold dict_get; by rewrite H.
Qed.

Lemma attributes_match_without_key (attributes : attrs) template_attributes
    ignore_keys k :
  attributes_match attributes template_attributes ignore_keys = Ok true →
  attributes_match attributes (without_key k template_attributes) ignore_keys = Ok true.
Proof.
  unfold without_key.
  induction template_attributes as [|[attr value] rest IH]; [done|].
  cbn [attributes_match]. intros H. rewrite filter_cons. cbn [fst].
  destruct (bool_decide (attr ∈ ignore_keys)) eqn:Hig.
  - destruct (decide (attr ≠ k)); cbn [attributes_match]; [rewrite Hig|]; by apply IH.
  - destruct value as [v|p].
    + destruct (negb _) eqn:Hv; [done|].
      destruct (decide (attr ≠ k)); cbn [attributes_match];
        [rewrite Hig, Hv|]; by apply IH.
    + destruct (predicate_match p attributes attr) as [[]|] eqn:Hp; [|done..].
      destruct (decide (attr ≠ k)); cbn [attributes_match];
        [rewrite Hig, Hp|]; by apply IH.
Qed.

Lemma attributes_match_agree (attributes1 attributes2 : attrs) template_attributes
    ignore_keys :
  (∀ k, k ∈ template_attributes.*1 → k ∉ ignore_keys →
        attributes1 !! k = attributes2 !! k) →
  attributes_match attributes1 template_attributes ignore_keys
  = attributes_match attributes2 template_attributes ignore_keys.
Proof.
  induction template_attributes as [|[attr value] rest IH]; simpl; [done|].
  intros H.
  assert (attributes_match attributes1 rest ignore_keys
          = attributes_match attributes2 rest ignore_keys) as Hrest.
  { apply IH. intros k Hk. apply H. by right. }
  case_bool_decide as Hig; [done|].
  assert (attributes1 !! attr = attributes2 !! attr) as Hattr.
  { apply H; [by left | done]. }
  clear H IH.
  destruct value as [v|p].
  - unfold dict_get. by rewrite Hattr, Hrest.
  - by rewrite (predicate_match_agree p _ _ attr Hattr), Hrest.
Qed.

(** C7. [attributes_match] is a conjunction over the keys of the template
    that are not ignored: a match stays a match when a key is taken out of
    the template, and attributes that agree on the keys the template
    constrains get the same answer, whatever their other keys hold. *)
Theorem attributes_match_conjunction (attributes : attrs) template_attributes
    ignore_keys :
  (∀ k, k ∈ template_attributes.*1 → k ∉ ignore_keys →
        attributes_match attributes template_attributes ignore_keys = Ok true →
        attributes_match attributes (without_key k template_attributes) ignore_keys
        = Ok true)
  ∧ (∀ attributes' : attrs,
       (∀ k, k ∈ template_attributes.*1 → k ∉ ignore_keys →
             attributes !! k = attributes' !! k) →
       attributes_match attributes template_attributes ignore_keys
       = attributes_match attributes' template_attributes ignore_keys).
Proof.
  split.
  - intros k _ _. apply attributes_match_without_key.
  - intros attributes'. apply attributes_match_agree.
Qed.

Lemma attributes_match_conjunction_witness :
  attributes_match (particle "A" 1) (without_key "resid" sample_template) ["charge"]
  = Ok true.
Proof.
  apply (attributes_match_conjunction (particle "A" 1) sample_template ["charge"]).
  - compute_done.
  - compute_done.
  - reflexivity.
Defined.

(** ** Edges from interactions *)

Section edges.
Context {N : Type} `{EqDecision N}.

Lemma has_edge_joined (g : Graph N) u v :
  has_edge g u v = true ↔ joined (edges g) u v.
Proof. unfold has_edge. by rewrite bool_decide_eq_true. Qed.

Lemma edges_add_edge (a b : N) (g : Graph N) :
  edges (add_edge a b g) = if has_edge g a b then edges g else edges g ++ [(a, b)].
Proof.
  unfold add_edge, has_edge.
  destruct (has_node g a); cbn zeta; destruct (has_node _ b); cbn [edges nodes];
    by case_bool_decide.
Qed.

Lemma joined_add_edge (a b : N) (g : Graph N) u v :
  joined (edges (add_edge a b g)) u v ↔ joined (edges g) u v ∨ joined [(a, b)] u v.
Proof.
  rewrite edges_add_edge. destruct (has_edge g a b) eqn:Hab.
  - apply has_edge_joined in Hab. unfold joined in *.
    rewrite !list_elem_of_singleton. split; [by left|].
    intros [?|[[= -> ->]|[= -> ->]]]; tauto.
  - unfold joined. rewrite !elem_of_app. tauto.
Qed.

Lemma joined_add_edges_from (pairs : list (N * N)) (g : Graph N) u v :
  joined (edges (add_edges_from pairs g)) u v
  ↔ joined (edges g) u v ∨ joined pairs u v.
Proof.
  unfold add_edges_from. revert g.
  induction pairs as [|[a b] pairs IH]; intros g; simpl.
  - unfold joined at 3. rewrite !elem_of_nil. tauto.
  - rewrite IH, joined_add_edge. unfold joined.
    rewrite !elem_of_cons, !elem_of_nil. tauto.
Qed.
End edges.

(** The interactions of type [type_] add the edges of the interaction
    type to the block; the interactions stay as they are. *)
Lemma make_edges_fold (l : list (Interaction string)) (self : Block) u v :
  let self' :=
    foldl (λ self interaction,
             if makes_edges interaction
             then with_block_graph
                    (add_edges_from (consecutive_pairs (atoms interaction))) self
             else self) self l in
  block_interactions self' = block_interactions self
  ∧ (joined (edges (block_graph self')) u v
     ↔ joined (edges (block_graph self)) u v
       ∨ ∃ i, i ∈ l ∧ makes_edges i = true ∧ joined (consecutive_pairs (atoms i)) u v).
Proof.
  cbn zeta. revert self. induction l as [|i l IH]; intros self; simpl.
  - split; [done|]. split; [by left|]. intros [?|(i & []%elem_of_nil & _)]. done.
  - destruct (IH (if makes_edges i
                  then with_block_graph
                         (add_edges_from (consecutive_pairs (atoms i))) self
                  else self)) as [Hint Hedges].
    split.
    + rewrite Hint. by destruct (makes_edges i).
    + rewrite Hedges. destruct (makes_edges i) eqn:Hi.
      * cbn [with_block_graph block_graph]. rewrite joined_add_edges_from. split.
        -- intros [[?|?]|(j & ? & ? & ?)]; [by left| |].
           ++ right. exists i. split; [by left|done].
           ++ right. exists j. split; [by right|done].
        -- intros [?|(j & [->|?]%elem_of_cons & ? & ?)]; [by left; left|by left; right|].
           right. by exists j.
      * split.
        -- intros [?|(j & ? & ? & ?)]; [by left|].
           right. exists j. split; [by right|done].
        -- intros [?|(j & [->|?]%elem_of_cons & Hj & ?)]; [by left|congruence|].
           right. by exists j.
Qed.

Lemma make_edges_from_interaction_type_spec type_ (self : Block) u v :
  block_interactions (make_edges_from_interaction_type type_ self)
  = block_interactions self
  ∧ (joined (edges (block_graph (make_edges_from_interaction_type type_ self))) u v
     ↔ joined (edges (block_graph self)) u v
       ∨ ∃ i, i ∈ get_list (block_interactions self) type_
              ∧ makes_edges i = true ∧ joined (consecutive_pairs (atoms i)) u v).
Proof. apply make_edges_fold. Qed.

Lemma make_edges_types_spec (types : list string) (self : Block) u v :
  let self' := foldl (λ self type_, make_edges_from_interaction_type type_ self)
                     self types in
  block_interactions self' = block_interactions self
  ∧ (joined (edges (block_graph self')) u v
     ↔ joined (edges (block_graph self)) u v
       ∨ ∃ type_ i, type_ ∈ types ∧ i ∈ get_list (block_interactions self) type_
                    ∧ makes_edges i = true
                    ∧ joined (consecutive_pairs (atoms i)) u v).
Proof.
  cbn zeta. revert self. induction types as [|t types IH]; intros self; simpl.
  - split; [done|]. split; [by left|]. intros [?|(t & i & []%elem_of_nil & _)]. done.
  - destruct (IH (make_edges_from_interaction_type t self)) as [Hint Hedges].
    destruct (make_edges_from_interaction_type_spec t self u v) as [Hint1 Hedges1].
    split; [by rewrite Hint|].
    rewrite Hedges, Hedges1, Hint1. split.
    + intros [[?|(i & ? & ? & ?)]|(t' & i & ? & ? & ? & ?)]; [by left| |].
      * right. exists t, i. split; [by left|done].
      * right. exists t', i. split; [by right|done].
    + intros [?|(t' & i & [->|?]%elem_of_cons & ? & ? & ?)]; [by left; left| |].
      * left; right. by exists i.
      * right. by exists t', i.
Qed.

(** C8, as amended. After [make_edges_from_interactions] two atoms are
    joined by an edge exactly when they were joined before the call or are
    consecutive atoms of an interaction that is of one of the known types
    and whose metadata does not switch the edges off; so on a block without
    edges the edges are exactly those consecutive pairs. An interaction that
    is switched off or of another type adds nothing, and the interactions
    themselves are left as they were. *)
Theorem make_edges_from_interactions_spec (self : Block) (u v : string) :
  let made type_ i :=
    type_ ∈ known_types ∧ i ∈ get_list (block_interactions self) type_
    ∧ makes_edges i = true ∧ joined (consecutive_pairs (atoms i)) u v in
  (has_edge (block_graph (make_edges_from_interactions self)) u v = true
   ↔ has_edge (block_graph self) u v = true ∨ ∃ type_ i, made type_ i)
  ∧ (edges (block_graph self) = [] →
     (has_edge (block_graph (make_edges_from_interactions self)) u v = true
      ↔ ∃ type_ i, made type_ i))
  ∧ block_interactions (make_edges_from_interactions self) = block_interactions self.
Proof.
  cbn zeta. destruct (make_edges_types_spec known_types self u v) as [Hint Hedges].
  fold (make_edges_from_interactions self) in Hint, Hedges.
  rewrite !has_edge_joined. split; [done|]. split; [|done].
  intros Hnone. rewrite Hedges. split; [|by right].
  intros [[H|H]|?]; [| |done]; rewrite Hnone in H; by apply elem_of_nil in H.
Qed.

Lemma make_edges_from_interactions_spec_witness :
  has_edge (block_graph (make_edges_from_interactions sample_block)) "N" "CA" = true.
Proof.
  apply (make_edges_from_interactions_spec sample_block "N" "CA"); [reflexivity|].
  exists "bonds", (mkInteraction ["N"; "CA"] [] ∅).
  split; [compute_done|]. split; [compute_done|]. split; [reflexivity|].
  left. compute_done.
Defined.

(** C8, the claim as it stands fails: an edge that the block had before the
    call is an edge after it, and no interaction accounts for it. *)
Lemma make_edges_keeps_earlier_edges :
  has_edge (block_graph (make_edges_from_interactions block_with_edge)) "X" "Y" = true
  ∧ ¬ ∃ type_ i, type_ ∈ known_types
                 ∧ i ∈ get_list (block_interactions block_with_edge) type_
                 ∧ makes_edges i = true
                 ∧ joined (consecutive_pairs (atoms i)) "X" "Y".
Proof.
  split; [reflexivity|].
  intros (type_ & i & _ & Hi & _). by apply elem_of_nil in Hi.
Qed.

(** ** What [merge_molecule] adds *)

Lemma max_node_bound (g : Graph Z) :
  Forall (λ k, k < max_node g + 1) (nodes g).*1.
Proof.
  unfold max_node. destruct ((nodes g).*1) as [|n rest]; [constructor|].
  assert (n ≤ foldr Z.max n rest ∧ Forall (λ k, k ≤ foldr Z.max n rest) rest) as [Hn Hrest].
  { induction rest as [|k rest [IH1 IH2]]; simpl; [split; [lia|constructor]|].
    split; [lia|]. constructor; [lia|].
    eapply Forall_impl; [done|]. simpl. lia. }
  constructor; [lia|]. eapply Forall_impl; [done|]. simpl. lia.
Qed.

Lemma seqZ_succ (idx : Z) (n : nat) :
  seqZ idx (Z.of_nat (S n)) = idx :: seqZ (idx + 1) (Z.of_nat n).
Proof.
  rewrite seqZ_cons by lia. f_equal. f_equal; lia.
Qed.

Lemma merged_atom_ok (residue_offset offset_charge_group : Z) (atom : attrs) :
  mergeable_atom atom = true →
  ∃ new_atom, merged_atom residue_offset offset_charge_group atom = Ok new_atom.
Proof.
  unfold mergeable_atom, merged_atom, getitem, dict_get.
  intros [Hresid Hcg]%andb_prop.
  destruct (atom !! "resid") as [v|]; [|done]. simpl.
  assert (∀ v k, numeric v = true → ∃ n, py_add v k = Ok n) as Hadd.
  { intros [] k ?; try done; by eexists. }
  destruct (Hadd v residue_offset Hresid) as [r ->]. simpl.
  rewrite lookup_insert_ne by done.
  destruct (Hadd _ offset_charge_group Hcg) as [c ->]. simpl. by eexists.
Qed.

Lemma merge_offsets_ok (self : Molecule) :
  nodes (graph self) ≠ [] → mergeable_atom (last_atom self) = true →
  ∃ residue_offset offset_charge_group,
    merge_offsets self
    = Ok (max_node (graph self) + 1, residue_offset, offset_charge_group).
Proof.
  unfold merge_offsets, last_atom, mergeable_atom, getitem, dict_get.
  intros Hne [Hresid Hcg]%andb_prop. rewrite bool_decide_eq_false_2 by done.
  set (last_node := default ∅ _) in *.
  destruct (last_node !! "resid") as [v|]; [|done]. simpl.
  assert (∀ v k, numeric v = true → ∃ n, py_add v k = Ok n) as Hadd.
  { intros [] k ?; try done; by eexists. }
  destruct (Hadd v 1 Hresid) as [r ->]. simpl.
  destruct (last_node !! "charge_group") as [c|]; simpl in *.
  - destruct (Hadd c 1 Hcg) as [r' ->]. simpl. by eexists _, _.
  - by eexists _, _.
Qed.

(** The dict that the first loop of [merge_molecule] fills *)
Lemma merge_nodes_run residue_offset offset_charge_group
    (ns : list (Z * attrs)) (idx : Z) (correspondence : gmap Z Z) (s : Molecule) :
  Forall (λ p, mergeable_atom p.2 = true) ns →
  Forall (λ k, k < idx) (nodes (graph s)).*1 →
  ∃ correspondence' s',
    merge_nodes residue_offset offset_charge_group idx ns correspondence s
    = (Ok correspondence', s')
    ∧ (nodes (graph s')).*1 = (nodes (graph s)).*1 ++ seqZ idx (Z.of_nat (length ns))
    ∧ edges (graph s') = edges (graph s)
    ∧ interactions s' = interactions s
    ∧ correspondence'
      = foldl (λ c p, <[p.1 := p.2]> c) correspondence
              (zip ns.*1 (seqZ idx (Z.of_nat (length ns)))).
Proof.
  revert idx correspondence s.
  induction ns as [|[node atom] ns IH]; intros idx corr s Hatoms Hfresh.
  { exists corr, s. simpl. by rewrite app_nil_r. }
  apply Forall_cons in Hatoms as [Hatom Hatoms].
  destruct (merged_atom_ok residue_offset offset_charge_group atom Hatom)
    as [new_atom Hnew].
  cbn [merge_nodes]. rewrite bind_run. unfold lift at 1. rewrite Hnew.
  rewrite bind_run. unfold modify at 1.
  assert (has_node (graph s) idx = false) as Hidx.
  { apply bool_decide_eq_false. intros Hin.
    rewrite Forall_forall in Hfresh. specialize (Hfresh idx Hin). lia. }
  set (s1 := with_graph (add_node idx new_atom) s).
  assert (nodes (graph s1) = nodes (graph s) ++ [(idx, new_atom)]) as Hnodes1.
  { unfold s1, add_node. simpl. by rewrite Hidx. }
  assert (edges (graph s1) = edges (graph s)) as Hedges1.
  { unfold s1, add_node. simpl. by rewrite Hidx. }
  destruct (IH (idx + 1) (<[node := idx]> corr) s1 Hatoms)
    as (corr' & s' & -> & Hnodes & Hedges & Hint & ->).
  { rewrite Hnodes1, fmap_app. apply Forall_app. split.
    - eapply Forall_impl; [done|]. simpl. lia.
    - apply Forall_singleton. simpl. lia. }
  eexists _, s'. split; [done|]. repeat split.
  - rewrite Hnodes, Hnodes1, fmap_app, <- (assoc_L (++)).
    cbn [length]. by rewrite (seqZ_succ idx (length ns)).
  - by rewrite Hedges.
  - done.
  - cbn [length]. by rewrite (seqZ_succ idx (length ns)).
Qed.

Lemma renumber_here (offset : Z) (ids : list Z) (n : Z) :
  renumber offset (n :: ids) n = offset.
Proof. unfold renumber. simpl. rewrite decide_True by done. simpl. lia. Qed.

Lemma renumber_later (offset : Z) (ids : list Z) (k n : Z) :
  k ≠ n → n ∈ ids → renumber offset (k :: ids) n = renumber (offset + 1) ids n.
Proof.
  intros Hne Hin. unfold renumber. simpl. rewrite decide_False by done.
  destruct (list_find (λ m, m = n) ids) as [[i m]|] eqn:Hfind; simpl; [lia|].
  apply list_find_None in Hfind. rewrite Forall_forall in Hfind.
  by destruct (Hfind n Hin).
Qed.

Lemma correspondence_other (ids idxs : list Z) (correspondence : gmap Z Z) (n : Z) :
  n ∉ ids →
  foldl (λ c p, <[p.1 := p.2]> c) correspondence (zip ids idxs) !! n
  = correspondence !! n.
Proof.
  revert idxs correspondence.
  induction ids as [|k ids IH]; intros idxs corr Hn; [done|].
  destruct idxs as [|i idxs]; [done|]. simpl.
  apply not_elem_of_cons in Hn as [Hne Hn].
  rewrite IH by done. by rewrite lookup_insert_ne.
Qed.

Lemma correspondence_renumber (ids : list Z) (idx : Z) (correspondence : gmap Z Z)
    (n : Z) :
  NoDup ids → n ∈ ids →
  foldl (λ c p, <[p.1 := p.2]> c) correspondence
        (zip ids (seqZ idx (Z.of_nat (length ids)))) !! n
  = Some (renumber idx ids n).
Proof.
  revert idx correspondence.
  induction ids as [|k ids IH]; intros idx corr Hnd Hin; [by apply elem_of_nil in Hin|].
  apply NoDup_cons in Hnd as [Hk Hnd].
  cbn [length]. rewrite seqZ_succ. simpl.
  destruct (decide (k = n)) as [->|Hne].
  - rewrite correspondence_other by done.
    by rewrite lookup_insert_eq, renumber_here.
  - apply elem_of_cons in Hin as [->|Hin]; [done|].
    rewrite IH by done. by rewrite renumber_later.
Qed.

Lemma translate_fmap (correspondence : gmap Z Z) (f : Z → Z) (atoms_ : list Z) :
  (∀ a, a ∈ atoms_ → correspondence !! a = Some (f a)) →
  translate correspondence atoms_ = Ok (f <$> atoms_).
Proof.
  induction atoms_ as [|a atoms_ IH]; intros H; simpl; [done|].
  unfold getitem. rewrite (H a) by (by left). simpl.
  rewrite IH; [done|]. intros b Hb. apply H. by right.
Qed.

(** *** Reading the table of the interactions *)

Section assoc_lemmas.
Context {K V : Type} `{EqDecision K}.

Lemma lookup_key_cons (k k' : K) (v : V) (d : list (K * V)) :
  lookup_key k ((k', v) :: d) = if decide (k' = k) then Some v else lookup_key k d.
Proof.
  unfold lookup_key. simpl. destruct (decide (k' = k)); [done|].
  by destruct (list_find _ d) as [[i p]|].
Qed.

Lemma lookup_key_app (k : K) (d1 d2 : list (K * V)) :
  lookup_key k (d1 ++ d2)
  = match lookup_key k d1 with Some v => Some v | None => lookup_key k d2 end.
Proof.
  induction d1 as [|[k' v] d1 IH]; [done|].
  rewrite <- app_comm_cons, !lookup_key_cons. by destruct (decide (k' = k)).
Qed.

Lemma lookup_key_None (k : K) (d : list (K * V)) :
  k ∉ d.*1 → lookup_key k d = None.
Proof.
  induction d as [|[k' v] d IH]; [done|]. simpl.
  intros [Hne Hk]%not_elem_of_cons. rewrite lookup_key_cons.
  rewrite decide_False by done. by apply IH.
Qed.

Lemma lookup_key_elem (k : K) (v : V) (d : list (K * V)) :
  lookup_key k d = Some v → (k, v) ∈ d.
Proof.
  induction d as [|[k' v'] d IH]; [done|]. rewrite lookup_key_cons.
  destruct (decide (k' = k)) as [->|]; [intros [= ->]; by left|].
  intros ?. right. by apply IH.
Qed.
End assoc_lemmas.

Lemma get_list_alter {N} (f : list (Interaction N) → list (Interaction N))
    (type_ t : string) (d : itable N) :
  type_ ∈ d.*1 →
  get_list (alter_list f type_ d) t
  = if decide (t = type_) then f (get_list d t) else get_list d t.
Proof.
  unfold get_list. induction d as [|[k l] d IH]; [by intros ?%elem_of_nil|].
  simpl. intros Hin. destruct (decide (k = type_)) as [->|Hne].
  - rewrite !lookup_key_cons. destruct (decide (t = type_)) as [->|Hne].
    + by rewrite !decide_True.
    + by rewrite !decide_False.
  - apply elem_of_cons in Hin as [?|Hin]; [done|].
    rewrite !lookup_key_cons. destruct (decide (k = t)) as [->|Hkt].
    + by rewrite decide_False.
    + by apply IH.
Qed.

Lemma get_list_touch {N} (type_ t : string) (d : itable N) :
  get_list (touch type_ d) t = get_list d t.
Proof.
  unfold get_list, touch. case_bool_decide as Hin; [done|].
  rewrite lookup_key_app. destruct (lookup_key t d); [done|].
  rewrite lookup_key_cons. by destruct (decide (type_ = t)).
Qed.

Lemma touch_keys {N} (type_ : string) (d : itable N) :
  type_ ∈ (touch type_ d).*1.
Proof.
  unfold touch. case_bool_decide; [done|].
  rewrite fmap_app. apply elem_of_app. right. by left.
Qed.

(** The lists of the interactions after one more interaction is stored *)
Lemma get_list_append {N} (x : Interaction N) (type_ t : string) (d : itable N) :
  get_list (alter_list (λ l, l ++ [x]) type_ (touch type_ d)) t
  = if decide (t = type_) then get_list d t ++ [x] else get_list d t.
Proof.
  rewrite get_list_alter by apply touch_keys. by rewrite get_list_touch.
Qed.

Lemma get_list_elem {N} (x : Interaction N) (t : string) (d : itable N) :
  x ∈ get_list d t → ∃ l, (t, l) ∈ d ∧ x ∈ l.
Proof.
  unfold get_list. destruct (lookup_key t d) as [l|] eqn:Hl; simpl.
  - intros Hx. exists l. split; [by apply lookup_key_elem|done].
  - by intros ?%elem_of_nil.
Qed.

(** *** The loops of [merge_molecule] over the interactions and the edges *)

Section merge_loops.
Variable correspondence : gmap Z Z.
Variable f : Z → Z.

Lemma merge_interactions_of_type (name : string) (l : list (Interaction Z))
    (s : Molecule) :
  (∀ x a, x ∈ l → a ∈ atoms x →
          correspondence !! a = Some (f a) ∧ has_node (graph s) (f a) = true) →
  ∃ s',
    for_each l (λ interaction,
      atoms_ ← lift (translate correspondence (atoms interaction));
      add_interaction name atoms_ (parameters interaction)
                      (Some (meta interaction))) s
    = (Ok tt, s')
    ∧ graph s' = graph s
    ∧ ∀ t, get_list (interactions s') t
           = if decide (t = name)
             then get_list (interactions s) t
                  ++ ((λ x, mkInteraction (f <$> atoms x) (parameters x) (meta x)) <$> l)
             else get_list (interactions s) t.
Proof.
  revert s. induction l as [|x l IH]; intros s Hl.
  { exists s. split; [done|]. split; [done|]. intros t.
    simpl. rewrite app_nil_r. by destruct (decide (t = name)). }
  cbn [for_each]. rewrite !bind_run. unfold lift at 1.
  rewrite (translate_fmap correspondence f).
  2:{ intros a Ha. apply (Hl x a); [by left|done]. }
  rewrite add_interaction_run.
  assert (forallb (has_node (graph s)) (f <$> atoms x) = true) as ->.
  { apply forallb_true_elem. intros b (a & -> & Ha)%list_elem_of_fmap.
    apply (Hl x a); [by left|done]. }
  set (s1 := with_interactions _ s).
  destruct (IH s1) as (s' & -> & Hgraph & Hlists).
  { intros y a Hy Ha. apply (Hl y a); [by right|done]. }
  exists s'. split; [done|]. split; [done|]. intros t. rewrite Hlists.
  unfold s1. cbn [interactions with_interactions]. rewrite get_list_append.
  destruct (decide (t = name)); [|done].
  by rewrite <- (assoc_L (++)).
Qed.

Lemma merge_interactions_run (table_ : itable Z) (s : Molecule) :
  (∀ name l x a, (name, l) ∈ table_ → x ∈ l → a ∈ atoms x →
                 correspondence !! a = Some (f a) ∧ has_node (graph s) (f a) = true) →
  ∃ s',
    for_each table_ (λ '(name, interactions_),
      for_each interactions_ (λ interaction,
        atoms_ ← lift (translate correspondence (atoms interaction));
        add_interaction name atoms_ (parameters interaction)
                        (Some (meta interaction)))) s
    = (Ok tt, s')
    ∧ graph s' = graph s
    ∧ (∀ t x, x ∈ get_list (interactions s) t → x ∈ get_list (interactions s') t)
    ∧ (∀ name l x, (name, l) ∈ table_ → x ∈ l →
                   mkInteraction (f <$> atoms x) (parameters x) (meta x)
                   ∈ get_list (interactions s') name).
Proof.
  revert s. induction table_ as [|[name l] table_ IH]; intros s Htable.
  { exists s. repeat split; [done|]. by intros ??? ?%elem_of_nil. }
  cbn [for_each]. rewrite bind_run.
  destruct (merge_interactions_of_type name l s) as (s1 & -> & Hgraph1 & Hlists1).
  { intros x a. apply (Htable name l). by left. }
  destruct (IH s1) as (s' & -> & Hgraph & Hkeep & Hnew).
  { intros name' l' x a Hin Hx Ha. rewrite Hgraph1. apply (Htable name' l' x a); [by right|done..]. }
  exists s'. split; [done|]. split; [by rewrite Hgraph|]. split.
  - intros t x Hx. apply Hkeep. rewrite Hlists1.
    destruct (decide (t = name)); [|done]. apply elem_of_app. by left.
  - intros name' l' x [[= -> ->]|Hin]%elem_of_cons Hx; [|by eapply Hnew].
    apply Hkeep. rewrite Hlists1, decide_True by done.
    apply elem_of_app. right. apply list_elem_of_fmap. by exists x.
Qed.

Lemma nodes_add_edge (u v : Z) (g : Graph Z) :
  has_node g u = true → has_node g v = true → nodes (add_edge u v g) = nodes g.
Proof.
  intros Hu Hv. unfold add_edge. rewrite Hu, Hv. by destruct (has_edge g u v).
Qed.

Lemma merge_edges_run (es : list (Z * Z)) (s : Molecule) :
  (∀ u v, (u, v) ∈ es →
          correspondence !! u = Some (f u) ∧ correspondence !! v = Some (f v)
          ∧ has_node (graph s) (f u) = true ∧ has_node (graph s) (f v) = true) →
  ∃ s',
    for_each es (λ edge,
      u ← lift (getitem correspondence edge.1);
      v ← lift (getitem correspondence edge.2);
      modify (with_graph (add_edge u v))) s
    = (Ok tt, s')
    ∧ nodes (graph s') = nodes (graph s)
    ∧ interactions s' = interactions s
    ∧ (∀ u v, joined (edges (graph s)) u v → joined (edges (graph s')) u v)
    ∧ (∀ u v, (u, v) ∈ es → joined (edges (graph s')) (f u) (f v)).
Proof.
  revert s. induction es as [|[u v] es IH]; intros s Hes.
  { exists s. repeat split; [done|]. by intros ?? ?%elem_of_nil. }
  destruct (Hes u v) as (Hu & Hv & Hnu & Hnv); [by left|].
  cbn [for_each]. rewrite !bind_run. unfold lift at 1, getitem at 1. cbn [fst].
  rewrite Hu. rewrite bind_run. unfold lift at 1, getitem at 1. cbn [snd].
  rewrite Hv. unfold modify at 1.
  set (s1 := with_graph (add_edge (f u) (f v)) s).
  assert (nodes (graph s1) = nodes (graph s)) as Hnodes1.
  { by apply nodes_add_edge. }
  assert (∀ n, has_node (graph s1) n = has_node (graph s) n) as Hhas.
  { intros n. unfold has_node. by rewrite Hnodes1. }
  destruct (IH s1) as (s' & -> & Hnodes & Hint & Hkeep & Hnew).
  { intros a b Hab. rewrite !Hhas. apply Hes. by right. }
  exists s'. split; [done|]. split; [by rewrite Hnodes|]. split; [done|].
  assert (∀ a b, joined (edges (graph s)) a b ∨ joined [(f u, f v)] a b →
                 joined (edges (graph s')) a b) as Hstep.
  { intros a b Hab. apply Hkeep. unfold s1. cbn [graph with_graph].
    by apply joined_add_edge. }
  split.
  - intros a b Hab. apply Hstep. by left.
  - intros a b [[= -> ->]|Hin]%elem_of_cons; [|by apply Hnew].
    apply Hstep. right. left. by left.
Qed.
End merge_loops.

Lemma renumber_lookup (offset : Z) (ids : list Z) (i : nat) (n : Z) :
  NoDup ids → ids !! i = Some n → renumber offset ids n = offset + Z.of_nat i.
Proof.
  intros Hnd Hi. unfold renumber.
  assert (list_find (λ m, m = n) ids = Some (i, n)) as ->; [|done].
  apply list_find_Some. split; [done|]. split; [done|].
  intros j y Hj Hlt ->. pose proof (NoDup_lookup _ _ _ _ Hnd Hi Hj). lia.
Qed.

Lemma renumber_range (offset : Z) (ids : list Z) (n : Z) :
  n ∈ ids → renumber offset ids n ∈ seqZ offset (Z.of_nat (length ids)).
Proof.
  intros Hin. unfold renumber.
  destruct (list_find (λ m, m = n) ids) as [[i m]|] eqn:Hfind.
  - apply list_find_Some in Hfind as (Hi & _ & _).
    apply lookup_lt_Some in Hi. apply elem_of_seqZ. lia.
  - apply list_find_None in Hfind. rewrite Forall_forall in Hfind.
    by destruct (Hfind n Hin).
Qed.

Lemma table_atoms_all_elem {N} (P : N → bool) (d : itable N) name l x a :
  table_atoms_all P d = true → (name, l) ∈ d → x ∈ l → a ∈ atoms x → P a = true.
Proof.
  unfold table_atoms_all. rewrite forallb_true_elem. intros Hd Hl Hx Ha.
  specialize (Hd _ Hl). simpl in Hd. rewrite forallb_true_elem in Hd.
  specialize (Hd _ Hx). rewrite forallb_true_elem in Hd. by apply Hd.
Qed.

(** C2, as amended. Merging [molecule] into a [self] that has atoms, of the
    same force field and [nrexcl], whose atoms carry the numbers that the
    merge adds to (a residue id on the last atom of [self] and on every atom
    of [molecule]), returns; the merged graph has the atoms of both, those of
    [molecule] under the ids that follow the largest id of [self], in the
    order of [molecule]; every interaction and every edge of [molecule] is in
    the merged graph with each atom renumbered to the largest id of [self]
    plus one plus the place of the atom among the atoms of [molecule]; and
    that is the id of the atom in [molecule] shifted by the largest id of
    [self] plus one when the ids of [molecule] are 0, 1, 2, ... in order. *)
Theorem merge_molecule_appends (self molecule : Molecule) :
  force_field self = force_field molecule →
  nrexcl self = nrexcl molecule →
  nodes (graph self) ≠ [] →
  mergeable_atom (last_atom self) = true →
  mergeable_atoms molecule = true →
  molecule_wf molecule = true →
  let offset := max_node (graph self) + 1 in
  let ids := (nodes (graph molecule)).*1 in
  ∃ merged,
    merge_molecule molecule self = (Ok RNone, merged)
    ∧ (nodes (graph merged)).*1
      = (nodes (graph self)).*1 ++ seqZ offset (Z.of_nat (length ids))
    ∧ length (nodes (graph merged))
      = (length (nodes (graph self)) + length (nodes (graph molecule)))%nat
    ∧ (∀ name x, x ∈ get_list (interactions molecule) name →
                 renumbered offset ids x ∈ get_list (interactions merged) name)
    ∧ (∀ u v, (u, v) ∈ edges (graph molecule) →
              has_edge (graph merged) (renumber offset ids u) (renumber offset ids v)
              = true)
    ∧ (ids = seqZ 0 (Z.of_nat (length ids)) →
       ∀ n, n ∈ ids → renumber offset ids n = n + offset).
Proof.
  intros Hff Hnrexcl Hne Hlast Hatoms Hwf offset ids.
  apply andb_prop in Hwf as [[Hnd Hint]%andb_prop Hedges].
  apply bool_decide_eq_true in Hnd. fold ids in Hnd.
  unfold merge_molecule. rewrite bind_run. unfold get at 1.
  rewrite (bool_decide_eq_false_2 (force_field self ≠ _)) by (intros H; by apply H).
  rewrite (bool_decide_eq_false_2 (nrexcl self ≠ _)) by (intros H; by apply H).
  destruct (merge_offsets_ok self Hne Hlast) as (ro & ocg & Hoffsets).
  rewrite bind_run. unfold lift at 1. rewrite Hoffsets. fold offset.
  destruct (merge_nodes_run ro ocg (nodes (graph molecule)) offset ∅ self)
    as (corr & s1 & Hrun1 & Hnodes1 & Hedges1 & Hint1 & Hcorr).
  { apply Forall_forall. intros p Hp. unfold mergeable_atoms in Hatoms.
    rewrite forallb_true_elem in Hatoms. by apply Hatoms. }
  { apply max_node_bound. }
  rewrite bind_run, Hrun1.
  rewrite <- (length_fmap fst (nodes (graph molecule))) in Hnodes1, Hcorr.
  fold ids in Hnodes1, Hcorr.
  set (f := renumber offset ids).
  assert (∀ n, n ∈ ids → corr !! n = Some (f n) ∧ has_node (graph s1) (f n) = true)
    as Hf.
  { intros n Hn. split.
    - rewrite Hcorr. by apply correspondence_renumber.
    - apply bool_decide_eq_true. rewrite Hnodes1. apply elem_of_app. right.
      by apply renumber_range. }
  assert (∀ n, has_node (graph molecule) n = true → n ∈ ids) as Hids.
  { intros n Hn. by apply bool_decide_eq_true in Hn. }
  destruct (merge_interactions_run corr f (interactions molecule) s1)
    as (s2 & Hrun2 & Hgraph2 & _ & Hnew2).
  { intros name l x a Hl Hx Ha. apply Hf, Hids.
    by eapply (table_atoms_all_elem _ _ name l x a Hint). }
  rewrite bind_run, Hrun2.
  destruct (merge_edges_run corr f (edges (graph molecule)) s2)
    as (s3 & Hrun3 & Hnodes3 & Hint3 & _ & Hnew3).
  { intros u v Huv. unfold edges_wf in Hedges. rewrite forallb_true_elem in Hedges.
    specialize (Hedges _ Huv). apply andb_prop in Hedges as [Hu Hv].
    rewrite Hgraph2. split; [by apply Hf, Hids|]. split; [by apply Hf, Hids|].
    split; by apply Hf, Hids. }
  rewrite bind_run, Hrun3.
  exists s3. split; [done|].
  assert ((nodes (graph s3)).*1
          = (nodes (graph self)).*1 ++ seqZ offset (Z.of_nat (length ids))) as Hnodes.
  { by rewrite Hnodes3, Hgraph2. }
  split; [done|]. split.
  { rewrite <- (length_fmap fst (nodes (graph s3))), Hnodes.
    rewrite length_app, length_seqZ, !length_fmap. unfold ids.
    rewrite length_fmap. lia. }
  split.
  { intros name x Hx. apply get_list_elem in Hx as (l & Hl & Hx).
    rewrite Hint3. by apply (Hnew2 name l x). }
  split.
  { intros u v Huv. apply has_edge_joined. by apply Hnew3. }
  intros Hseq n Hn.
  assert (ids !! Z.to_nat n = Some n) as Hlookup.
  { rewrite Hseq in Hn. apply elem_of_seqZ in Hn.
    rewrite Hseq. rewrite lookup_seqZ. lia. }
  unfold f. rewrite (renumber_lookup offset ids _ n Hnd Hlookup).
  apply lookup_lt_Some in Hlookup. rewrite Hseq in Hn. apply elem_of_seqZ in Hn. lia.
Qed.

Lemma merge_molecule_appends_witness :
  ∃ merged,
    merge_molecule dimer dimer_5_7 = (Ok RNone, merged)
    ∧ (nodes (graph merged)).*1 = [5; 7] ++ seqZ 8 2
    ∧ length (nodes (graph merged)) = 4%nat
    ∧ (∀ name x, x ∈ get_list (interactions dimer) name →
                 renumbered 8 [0; 1] x ∈ get_list (interactions merged) name)
    ∧ (∀ u v, (u, v) ∈ edges (graph dimer) →
              has_edge (graph merged) (renumber 8 [0; 1] u) (renumber 8 [0; 1] v) = true)
    ∧ ([0; 1] = seqZ 0 2 → ∀ n, n ∈ [0; 1] → renumber 8 [0; 1] n = n + 8).
Proof.
  apply (merge_molecule_appends dimer_5_7 dimer); try reflexivity. discriminate.
Defined.

(** C2, the claim as it stands fails: the atoms 5 and 7 of [dimer_5_7],
    merged into [dimer], whose largest id is 1, become the atoms 2 and 3; the
    bond and the edge between them are stored between 2 and 3, not between
    5 + 2 and 7 + 2. *)
Lemma merge_molecule_renumbers_by_position :
  max_node (graph dimer) + 1 = 2
  ∧ match merge_molecule dimer_5_7 dimer with
    | (Ok _, merged) =>
        (nodes (graph merged)).*1 = [0; 1; 2; 3]
        ∧ has_edge (graph merged) 2 3 = true
        ∧ has_edge (graph merged) (5 + 2) (7 + 2) = false
        ∧ atoms <$> get_list (interactions merged) "bonds" = [[0; 1]; [2; 3]]
    | (Raise _, _) => False
    end.
Proof. vm_compute. by repeat split. Qed.

(** Equal force fields and equal [nrexcl] do not make the merge go through:
    a receiver whose last atom has no residue id stops it with a [KeyError]. *)
Lemma merge_molecule_needs_resid :
  merge_molecule dimer nameless_residue = (Raise KeyError, nameless_residue).
Proof. reflexivity. Qed.

(** ** [cover] *)

Lemma list_remove_elem (x : string) (l : list string) :
  x ∈ l → ∃ l', list_remove x l = Ok l' ∧ l ≡ₚ x :: l'.
Proof.
  induction l as [|y l IH]; [by intros ?%elem_of_nil|].
  intros Hx. simpl. destruct (decide (y = x)) as [->|Hne]; [by eexists|].
  apply elem_of_cons in Hx as [->|Hx]; [done|].
  destruct (IH Hx) as (l' & -> & Hl'). exists (y :: l'). split; [done|].
  rewrite Hl'. apply Permutation_swap.
Qed.

Lemma list_remove_inv (x : string) (l : list string) :
  match list_remove x l with
  | Ok l' => l ≡ₚ x :: l'
  | Raise e => e = ValueError ∧ x ∉ l
  end.
Proof.
  induction l as [|y l IH]; simpl; [split; [done|apply not_elem_of_nil]|].
  destruct (decide (y = x)) as [->|Hne]; [done|].
  destruct (list_remove x l) as [l'|e]; simpl.
  - rewrite IH. apply Permutation_swap.
  - destruct IH as [-> Hx]. split; [done|]. by apply not_elem_of_cons.
Qed.

(** The removal of the names of a template goes through exactly when the
    names to cover hold each name as often as the template does. *)
Lemma remove_items_inv (option_ to_cover : list string) :
  match remove_items option_ to_cover with
  | Ok left_to_cover => to_cover ≡ₚ option_ ++ left_to_cover
  | Raise e => e = ValueError ∧ ¬ option_ ⊆+ to_cover
  end.
Proof.
  revert to_cover. induction option_ as [|x o IH]; intros to_cover; simpl; [done|].
  pose proof (list_remove_inv x to_cover) as Hx.
  destruct (list_remove x to_cover) as [l1|e]; simpl.
  - specialize (IH l1). destruct (remove_items o l1) as [l'|e].
    + by rewrite Hx, IH.
    + destruct IH as [-> Hnot]. split; [done|]. rewrite Hx. intros Hsub.
      by apply (submseteq_app_inv_l o l1 [x]) in Hsub.
  - destruct Hx as [-> Hx]. split; [done|]. intros Hsub. apply Hx.
    eapply elem_of_submseteq; [|done]. by left.
Qed.

Lemma concat_Permutation_proper {A} (l k : list (list A)) :
  l ≡ₚ k → concat l ≡ₚ concat k.
Proof.
  induction 1 as [|x l k _ IH|x y l|l k m _ IH1 _ IH2]; simpl.
  - done.
  - by rewrite IH.
  - rewrite !(assoc_L (++)). f_equiv. apply Permutation_app_comm.
  - by rewrite IH1.
Qed.

Lemma exact_cover_weaken to_cover o options found :
  exact_cover to_cover options found → exact_cover to_cover (o :: options) found.
Proof.
  intros [Hin Hperm]. split; [|done].
  eapply Forall_impl; [done|]. intros x Hx. by right.
Qed.

(** A cover either takes the first template, and then the rest of it covers
    what that template leaves, or it draws on the other templates only. *)
Lemma exact_cover_first to_cover o options found :
  exact_cover to_cover (o :: options) found →
  (∃ found', found ≡ₚ o :: found' ∧ Forall (λ x, x ∈ o :: options) found'
             ∧ o ++ concat found' ≡ₚ to_cover)
  ∨ exact_cover to_cover options found.
Proof.
  intros [Hin Hperm]. destruct (decide (o ∈ found)) as [Ho|Ho].
  - left. apply elem_of_Permutation in Ho as [found' Hfound'].
    exists found'. split; [done|]. split.
    + rewrite Hfound' in Hin. by apply Forall_cons in Hin as [_ ?].
    + rewrite <- Hperm. by rewrite (concat_Permutation_proper _ _ Hfound').
  - right. split; [|done].
    apply Forall_forall. intros x Hx.
    rewrite Forall_forall in Hin. specialize (Hin x Hx).
    apply elem_of_cons in Hin as [->|?]; done.
Qed.

(** Given more depth than there are names to cover, and no template
    without a name, [cover] either answers, and then rightly, or raises a
    [ValueError]. *)
Lemma cover_answers (fuel : nat) (to_cover : list string)
    (options : list (list string)) :
  Forall (λ o, o ≠ []) options →
  (length to_cover < fuel)%nat →
  ∃ x, cover fuel to_cover options = Some x
       ∧ match x with
         | Ok r => cover_answer to_cover options r
         | Raise e => e = ValueError
         end.
Proof.
  revert to_cover options.
  induction fuel as [|fuel IHf]; intros to_cover options Hgood Hlen; [lia|].
  cbn [cover]. case_bool_decide as Hempty.
  { subst. exists (Ok (Some [])). split; [done|]. by split. }
  revert Hgood. induction options as [|o rest IHo]; intros Hgood.
  { exists (Ok None). split; [done|]. intros [|x found] [Hin Hperm].
    - simpl in Hperm. symmetry in Hperm. by apply Permutation_nil_r in Hperm.
    - apply Forall_cons in Hin as [Hx _]. by apply elem_of_nil in Hx. }
  apply Forall_cons in Hgood as [Hne Hrest].
  destruct (IHo Hrest) as (x' & Hx' & Hans'). clear IHo.
  destruct (usable to_cover o) eqn:Hu.
  - pose proof (remove_items_inv o to_cover) as Hperm.
    destruct (remove_items o to_cover) as [left_to_cover|e].
    2:{ destruct Hperm as [-> _]. by exists (Raise ValueError). }
    assert (length left_to_cover < fuel)%nat as Hleft.
    { apply Permutation_length in Hperm. rewrite length_app in Hperm.
      destruct o; [done|]. simpl in Hperm. lia. }
    destruct (IHf left_to_cover (o :: rest)) as (x & -> & Hans); [|done|].
    { by apply Forall_cons. }
    destruct x as [[found|]|e]; [| |by exists (Raise e)].
    + exists (Ok (Some (o :: found))). split; [done|].
      destruct Hans as [Hin Hfound]. split.
      * apply Forall_cons. split; [by left|done].
      * simpl. by rewrite Hfound.
    + exists x'. split; [done|]. destruct x' as [[found|]|e]; simpl in *; [| |done].
      * by apply exact_cover_weaken.
      * intros found Hc.
        apply exact_cover_first in Hc as [(found' & _ & Hin & Hp)|Hc];
          [|by eapply Hans'].
        apply (Hans found'). split; [done|].
        apply (Permutation_app_inv_l o). by rewrite Hp.
  - exists x'. split; [done|]. destruct x' as [[found|]|e]; simpl in *; [| |done].
    + by apply exact_cover_weaken.
    + intros found Hc.
      apply exact_cover_first in Hc as [(found' & _ & _ & Hp)|Hc];
        [|by eapply Hans'].
      apply forallb_false_elem in Hu as (item & Hitem & Hnot).
      apply bool_decide_eq_false in Hnot. apply Hnot.
      rewrite <- Hp. apply elem_of_app. by left.
Qed.

(** C6. [cover] does not do what the claim says on every input. A template
    passes the test [all(item in to_cover for item in option)] as soon as
    each of its names is among the names to cover, also when it holds a name
    more often than they do; [left_to_cover.remove(item)], of which the
    source comment says that it cannot fail, then raises a [ValueError], and
    [cover] returns neither a cover nor [None]. So it is on the names
    ["a"; "b"] with the templates [("a", "a")], [("b",)] and [("a",)], and
    on the name ["phos"] with the templates [("phos", "phos")] and
    [("phos",)], which both have an exact cover. Where [cover] does answer,
    given templates that all have a name, its answer is as the claim says:
    [None] when there is no exact cover, an exact cover otherwise. *)
Theorem cover_raises_on_usable_option :
  (∀ fuel to_cover o rest,
     to_cover ≠ [] → usable to_cover o = true → ¬ o ⊆+ to_cover →
     cover (S fuel) to_cover (o :: rest) = Some (Raise ValueError))
  ∧ (cover 3 ["a"; "b"] [["a"; "a"]; ["b"]; ["a"]] = Some (Raise ValueError)
     ∧ exact_cover ["a"; "b"] [["a"; "a"]; ["b"]; ["a"]] [["b"]; ["a"]])
  ∧ (cover 3 ["phos"] [["phos"; "phos"]; ["phos"]] = Some (Raise ValueError)
     ∧ exact_cover ["phos"] [["phos"; "phos"]; ["phos"]] [["phos"]])
  ∧ (∀ fuel to_cover options,
       Forall (λ o, o ≠ []) options → (length to_cover < fuel)%nat →
       ∃ x, cover fuel to_cover options = Some x
            ∧ match x with
              | Ok r => cover_answer to_cover options r
              | Raise e => e = ValueError
              end).
Proof.
  split; [|split; [|split]].
  - intros fuel to_cover o rest Hne Husable Hnot. cbn [cover].
    rewrite bool_decide_eq_false_2 by done. rewrite Husable.
    pose proof (remove_items_inv o to_cover) as Hrem.
    destruct (remove_items o to_cover) as [left_to_cover|e].
    + exfalso. apply Hnot. rewrite Hrem. by apply submseteq_inserts_r.
    + by destruct Hrem as [-> _].
  - split; [reflexivity|]. split.
    + repeat constructor; set_solver.
    + simpl. apply Permutation_swap.
  - split; [reflexivity|]. split; [|done]. repeat constructor; set_solver.
  - apply cover_answers.
Qed.

Lemma cover_raises_on_usable_option_witness :
  cover 3 ["phos"] [["phos"; "phos"]; ["phos"]] = Some (Raise ValueError).
Proof.
  apply (proj1 cover_raises_on_usable_option 2%nat ["phos"] ["phos"; "phos"] [["phos"]]).
  - discriminate.
  - reflexivity.
  - apply (bool_decide_eq_false_1 _). vm_compute. reflexivity.
Defined.

(** A template without a name is usable whatever is left to cover and
    leaves it as it is: the recursion never ends. *)
Lemma cover_diverges_on_empty_option (fuel : nat) :
  cover fuel ["a"] [[]] = None.
Proof. induction fuel as [|fuel IH]; [done|]. cbn. by rewrite IH. Qed.

(** ** The order in which [do_mapping] merges the matches *)

Lemma min_key_key_of (match_ : Match) :
  match_map match_ ≠ [] → min_key match_ = Ok (key_of match_).
Proof.
  unfold key_of, min_key. intros H.
  destruct (match_map match_) as [|[k row] rest]; done.
Qed.

Lemma map_result_min_key (matches : list Match) :
  Forall (λ m, match_map m ≠ []) matches →
  map_result min_key matches = Ok (key_of <$> matches).
Proof.
  induction 1 as [|m l Hm _ IH]; simpl; [done|].
  by rewrite (min_key_key_of m Hm), IH.
Qed.

Lemma insert_desc_perm (x : Z * Match) (l : list (Z * Match)) :
  insert_desc x l ≡ₚ x :: l.
Proof.
  induction l as [|y l IH]; simpl; [done|].
  destruct (x.1 <? y.1); [|done]. rewrite IH. apply Permutation_swap.
Qed.

Lemma insert_desc_sorted (x : Z * Match) (l : list (Z * Match)) :
  StronglySorted (λ a b, b.1 ≤ a.1) l →
  StronglySorted (λ a b, b.1 ≤ a.1) (insert_desc x l).
Proof.
  induction 1 as [|y l Hl IH Hy]; simpl; [by repeat constructor|].
  destruct (Z.ltb_spec x.1 y.1) as [Hlt|Hge].
  - constructor; [done|]. rewrite insert_desc_perm. constructor; [lia|done].
  - constructor; [by constructor|]. constructor; [done|].
    eapply Forall_impl; [done|]. simpl. lia.
Qed.

Lemma StronglySorted_fmap {A B} (R : relation B) (f : A → B) (l : list A) :
  StronglySorted (λ a b, R (f a) (f b)) l → StronglySorted R (f <$> l).
Proof.
  induction 1 as [|x l _ IH Hx]; simpl; constructor; [done|].
  by apply Forall_fmap.
Qed.

Lemma sorted_desc_spec (matches : list Match) :
  Forall (λ m, match_map m ≠ []) matches →
  ∃ sorted_, sorted_desc matches = Ok sorted_
             ∧ sorted_ ≡ₚ matches ∧ desc sorted_
             ∧ Forall (λ m, match_map m ≠ []) sorted_.
Proof.
  intros Hne. unfold sorted_desc. rewrite (map_result_min_key _ Hne). simpl.
  eexists. split; [done|].
  assert (∃ P, foldr insert_desc [] (zip (key_of <$> matches) matches) = P
               ∧ P.*2 ≡ₚ matches
               ∧ Forall (λ p, p.1 = key_of p.2) P
               ∧ StronglySorted (λ a b, b.1 ≤ a.1) P) as (P & -> & Hperm & Hkeys & Hsorted).
  { clear Hne. induction matches as [|m l IH].
    - exists []. repeat split; constructor.
    - destruct IH as (P & HP & Hperm & Hkeys & Hsorted).
      exists (insert_desc (key_of m, m) P). split; [by rewrite <- HP|].
      split; [|split].
      + rewrite insert_desc_perm. simpl. by rewrite Hperm.
      + rewrite insert_desc_perm. by constructor.
      + by apply insert_desc_sorted. }
  split; [done|]. split.
  - unfold desc. apply StronglySorted_fmap.
    clear Hperm. induction Hsorted as [|p P HP IH Hp]; constructor.
    + apply IH. by apply Forall_cons in Hkeys as [_ ?].
    + apply Forall_cons in Hkeys as [Hk Hkeys].
      rewrite Forall_forall in Hp, Hkeys. apply Forall_forall. intros q Hq.
      rewrite <- Hk, <- (Hkeys q Hq). by apply Hp.
  - by rewrite Hperm.
Qed.

Lemma desc_snoc (matches : list Match) (match_ : Match) :
  desc (matches ++ [match_]) →
  desc matches ∧ Forall (λ m, key_of match_ ≤ key_of m) matches.
Proof.
  unfold desc. induction matches as [|m l IH]; simpl.
  - intros _. split; constructor.
  - intros [Hl Hm]%StronglySorted_inv. destruct (IH Hl) as [Hl' Hall].
    apply Forall_app in Hm as [Hm Hlast]. rewrite Forall_singleton in Hlast.
    split; [by constructor|]. by apply Forall_cons.
Qed.

Lemma snoc_cases {A} (l : list A) : l = [] ∨ ∃ l' x, l = l' ++ [x].
Proof. induction l using rev_ind; [by left | right; by eauto]. Qed.

Lemma mapping_loop_mod fuel block_matches mod_matches match_ v s :
  takes_mod block_matches (mod_matches ++ [match_]) = Ok true →
  mapping_loop (S fuel) block_matches (mod_matches ++ [match_]) v s
  = (mod_branch match_ v ≫= mapping_loop fuel block_matches mod_matches) s.
Proof.
  intros Htakes. cbn [mapping_loop]. case_bool_decide as Hempty.
  { destruct Hempty as [_ Hnil]. by destruct mod_matches. }
  rewrite bind_run, Htakes. unfold lift at 1.
  by rewrite last_snoc, removelast_last.
Qed.

Lemma mapping_loop_block fuel block_matches mod_matches match_ v s :
  takes_mod (block_matches ++ [match_]) mod_matches = Ok false →
  mapping_loop (S fuel) (block_matches ++ [match_]) mod_matches v s
  = (block_branch match_ v ≫= λ v, mapping_loop fuel block_matches mod_matches v) s.
Proof.
  intros Htakes. cbn [mapping_loop]. case_bool_decide as Hempty.
  { destruct Hempty as [Hnil _]. by destruct block_matches. }
  rewrite bind_run, Htakes. unfold lift at 1.
  by rewrite last_snoc, removelast_last.
Qed.

Lemma bind_ext {S A B} (m : M S A) (f g : A → M S B) (s : S) :
  (∀ a s', f a s' = g a s') → (m ≫= f) s = (m ≫= g) s.
Proof. intros H. rewrite !bind_run. by destruct (m s) as [[a|e] s']. Qed.

Lemma goes_before_all (x : bool * Match) (block_matches mod_matches : list Match) :
  Forall (λ m, key_of x.2 ≤ key_of m) block_matches →
  Forall (λ m, key_of x.2 ≤ key_of m) mod_matches →
  (x.1 = true → Forall (λ m, key_of x.2 < key_of m) block_matches) →
  Forall (goes_before x) ((pair false <$> block_matches) ++ (pair true <$> mod_matches)).
Proof.
  intros Hb Hm Hstrict. apply Forall_app. split; apply Forall_fmap.
  - destruct (decide (x.1 = true)) as [Hx|Hx].
    + eapply Forall_impl; [by apply Hstrict|]. intros m Hlt.
      split; simpl in *; [lia|done].
    + eapply Forall_impl; [done|]. intros m Hle. by split.
  - eapply Forall_impl; [done|]. intros m Hle. split; [done|]. simpl. congruence.
Qed.

Lemma mapping_loop_order (fuel : nat) (block_matches mod_matches : list Match) :
  (length block_matches + length mod_matches ≤ fuel)%nat →
  desc block_matches → desc mod_matches →
  Forall (λ m, match_map m ≠ []) block_matches →
  Forall (λ m, match_map m ≠ []) mod_matches →
  ∃ order,
    (∀ v s, mapping_loop fuel block_matches mod_matches v s = apply_in_order order v s)
    ∧ order ≡ₚ (pair false <$> block_matches) ++ (pair true <$> mod_matches)
    ∧ StronglySorted goes_before order.
Proof.
  revert block_matches mod_matches.
  induction fuel as [|fuel IH]; intros bs ms Hlen Hbs Hms Hnb Hnm.
  { destruct bs, ms; simpl in Hlen; try lia. exists []. by repeat split; constructor. }
  destruct (snoc_cases bs) as [->|(bs' & b & ->)];
    destruct (snoc_cases ms) as [->|(ms' & m & ->)].
  - exists []. split; [intros v s; reflexivity|split; constructor].
  - apply desc_snoc in Hms as [Hms' Hm]. apply Forall_app in Hnm as [Hnm' _].
    rewrite length_app in Hlen. simpl in Hlen.
    destruct (IH [] ms') as (order & Hrun & Hperm & Hsorted); [simpl; lia|done..|].
    exists ((true, m) :: order). split; [|split].
    + intros v s. rewrite mapping_loop_mod by done. by apply bind_ext.
    + rewrite Hperm, fmap_app. simpl. apply Permutation_cons_append.
    + constructor; [done|]. rewrite Hperm.
      apply (goes_before_all (true, m) [] ms'); [constructor|done|constructor].
  - apply desc_snoc in Hbs as [Hbs' Hb]. apply Forall_app in Hnb as [Hnb' _].
    rewrite length_app in Hlen. simpl in Hlen.
    destruct (IH bs' []) as (order & Hrun & Hperm & Hsorted); [simpl; lia|done..|].
    exists ((false, b) :: order). split; [|split].
    + intros v s. rewrite mapping_loop_block; [by apply bind_ext|].
      unfold takes_mod. by rewrite last_snoc.
    + rewrite Hperm, fmap_app. simpl. rewrite !app_nil_r.
      by rewrite Permutation_app_comm.
    + constructor; [done|]. rewrite Hperm.
      apply (goes_before_all (false, b) bs' []); [done|constructor|done].
  - pose proof (desc_snoc _ _ Hbs) as [Hbs' Hb].
    pose proof (desc_snoc _ _ Hms) as [Hms' Hm].
    pose proof Hnb as Hnb0. pose proof Hnm as Hnm0.
    apply Forall_app in Hnb as [Hnb' Hnb1]. apply Forall_app in Hnm as [Hnm' Hnm1].
    rewrite Forall_singleton in Hnb1. rewrite Forall_singleton in Hnm1.
    rewrite !length_app in Hlen. simpl in Hlen.
    assert (takes_mod (bs' ++ [b]) (ms' ++ [m]) = Ok (key_of m <? key_of b)) as Htakes.
    { unfold takes_mod. rewrite !last_snoc.
      by rewrite (min_key_key_of m Hnm1), (min_key_key_of b Hnb1). }
    destruct (Z.ltb_spec (key_of m) (key_of b)) as [Hlt|Hge].
    + destruct (IH (bs' ++ [b]) ms') as (order & Hrun & Hperm & Hsorted);
        [rewrite length_app; simpl; lia|done..|].
      exists ((true, m) :: order). split; [|split].
      * intros v s. rewrite mapping_loop_mod by done. by apply bind_ext.
      * rewrite Hperm, (fmap_app _ ms'). simpl.
        rewrite (assoc_L (++)). apply Permutation_cons_append.
      * constructor; [done|]. rewrite Hperm.
        apply (goes_before_all (true, m) (bs' ++ [b]) ms'); [|done|].
        -- apply Forall_app. split; [|apply Forall_singleton; simpl; lia].
           eapply Forall_impl; [done|]. simpl. lia.
        -- intros _. apply Forall_app. split; [|apply Forall_singleton; simpl; lia].
           eapply Forall_impl; [done|]. simpl. lia.
    + destruct (IH bs' (ms' ++ [m])) as (order & Hrun & Hperm & Hsorted);
        [rewrite length_app; simpl; lia|done..|].
      exists ((false, b) :: order). split; [|split].
      * intros v s. rewrite mapping_loop_block by done. by apply bind_ext.
      * rewrite Hperm, (fmap_app _ bs'). simpl.
        rewrite <- (assoc_L (++)). simpl. apply Permutation_middle.
      * constructor; [done|]. rewrite Hperm.
        apply (goes_before_all (false, b) bs' (ms' ++ [m])); [done| |done].
        apply Forall_app. split; [|apply Forall_singleton; simpl; lia].
        eapply Forall_impl; [done|]. simpl. lia.
Qed.

(** C3, as amended. The loop of [do_mapping] applies all the matches, block
    matches and modification matches, one after the other in an order that
    ascends on the lowest atom of the molecule each match touches; of a
    block match and a modification match with the same lowest atom the
    block match goes first, a modification match going before a block match
    only when its lowest atom is strictly lower. *)
Theorem matches_merged_by_lowest_atom (block_matches mod_matches : list Match) :
  Forall (λ m, match_map m ≠ []) block_matches →
  Forall (λ m, match_map m ≠ []) mod_matches →
  ∃ sorted_blocks sorted_mods order,
    sorted_desc block_matches = Ok sorted_blocks
    ∧ sorted_desc mod_matches = Ok sorted_mods
    ∧ (∀ v s, mapping_loop (length sorted_blocks + length sorted_mods)
                           sorted_blocks sorted_mods v s
              = apply_in_order order v s)
    ∧ order ≡ₚ (pair false <$> block_matches) ++ (pair true <$> mod_matches)
    ∧ StronglySorted goes_before order.
Proof.
  intros Hb Hm.
  destruct (sorted_desc_spec block_matches Hb) as (bs & Hbs & Hpb & Hdb & Hnb).
  destruct (sorted_desc_spec mod_matches Hm) as (ms & Hms & Hpm & Hdm & Hnm).
  destruct (mapping_loop_order (length bs + length ms) bs ms)
    as (order & Hrun & Hperm & Hsorted); [done..|].
  exists bs, ms, order. repeat split; [done..| |done].
  by rewrite Hperm, Hpb, Hpm.
Qed.

Lemma matches_merged_by_lowest_atom_witness :
  ∃ sorted_blocks sorted_mods order,
    sorted_desc [tie_block] = Ok sorted_blocks
    ∧ sorted_desc [tie_mod; unnamed_mod_match] = Ok sorted_mods
    ∧ (∀ v s, mapping_loop (length sorted_blocks + length sorted_mods)
                           sorted_blocks sorted_mods v s
              = apply_in_order order v s)
    ∧ order ≡ₚ (pair false <$> [tie_block])
               ++ (pair true <$> [tie_mod; unnamed_mod_match])
    ∧ StronglySorted goes_before order.
Proof.
  apply (matches_merged_by_lowest_atom [tie_block] [tie_mod; unnamed_mod_match]).
  - repeat constructor; discriminate.
  - repeat constructor; discriminate.
Defined.

(** C3, the claim as it stands fails: a block match and a modification
    match that both start at atom 1 are applied block match first. *)
Lemma block_match_first_on_equal_lowest_atom :
  min_key tie_block = Ok 1 ∧ min_key tie_mod = Ok 1
  ∧ match (mapping_loop 2 [tie_block] [tie_mod] (mkLoopVars [] [] ∅ ∅ [])
             (mkMapState (new_molecule None ∅) [] [])).1 with
    | Ok v => all_matches v = [tie_block; tie_mod]
    | Raise _ => False
    end.
Proof. repeat split; vm_compute; reflexivity. Qed.

(** ** The result of [do_mapping] *)

(** The test that queues an output node for removal reads the neighbours
    of the node, where the attributes of the node were meant: the key
    ['atomname'] is no neighbour, so the answer is never [None]. *)
Lemma adjacency_get_never_None (g : Graph Z) (n : Z) (key : string) (v : pyval) :
  adjacency_get g n (KStr key) (VStr "") = Ok v → is_None v = false.
Proof.
  unfold adjacency_get. destruct (has_node g n); [|done].
  intros [= <-]. by case_bool_decide.
Qed.

Lemma reconcile_node_queues_nothing molecule attribute_keep all_references_
    out_idx weights to_remove (s : MapState) r s' :
  reconcile_node molecule attribute_keep all_references_ out_idx weights to_remove s
  = (Ok r, s') →
  r = to_remove.
Proof.
  unfold reconcile_node. do 3 bind_step.
  rewrite bind_run. unfold get at 1. rewrite bind_run. unfold lift at 1.
  destruct (adjacency_get _ _ _ _) as [name|e] eqn:Hname; [|done].
  apply adjacency_get_never_None in Hname. rewrite Hname. by intros [= <- _].
Qed.

(** *** The force field of the result *)

Section preserves.
Context {S : Type} (I : S → Prop).

Lemma preserves_ret {A} (a : A) : preserves I (mret a : M S A).
Proof. by intros s. Qed.

Lemma preserves_raise {A} (e : exn) : preserves I (raise e : M S A).
Proof. by intros s. Qed.

Lemma preserves_lift {A} (r : result A) : preserves I (lift r : M S A).
Proof. by intros s. Qed.

Lemma preserves_get : preserves I (get : M S S).
Proof. by intros s. Qed.

Lemma preserves_modify (f : S → S) :
  (∀ s, I s → I (f s)) → preserves I (modify f).
Proof. intros Hf s Hs. by apply Hf. Qed.

Lemma preserves_bind {A B} (m : M S A) (f : A → M S B) :
  preserves I m → (∀ a, preserves I (f a)) → preserves I (m ≫= f).
Proof.
  intros Hm Hf s Hs. rewrite bind_run. specialize (Hm s Hs).
  destruct (m s) as [[a|e] s']; [by apply Hf|done].
Qed.

Lemma preserves_for_each {A} (l : list A) (body : A → M S unit) :
  (∀ x, preserves I (body x)) → preserves I (for_each l body).
Proof.
  intros Hbody. induction l as [|x l IH]; simpl; [apply preserves_ret|].
  apply preserves_bind; [apply Hbody | by intros _].
Qed.

Lemma preserves_for_fold {A B} (l : list A) (acc : B) (body : A → B → M S B) :
  (∀ x acc, preserves I (body x acc)) → preserves I (for_fold l acc body).
Proof.
  intros Hbody. revert acc. induction l as [|x l IH]; intros acc; simpl;
    [apply preserves_ret|].
  apply preserves_bind; [apply Hbody | apply IH].
Qed.
End preserves.

Lemma preserves_on_graph_out {A} (J : Molecule → Prop) (m : M Molecule A) :
  preserves J m → preserves (λ s, J (graph_out s)) (on_graph_out m).
Proof.
  intros Hm s Hs. unfold on_graph_out. specialize (Hm _ Hs).
  by destruct (m (graph_out s)) as [r g].
Qed.

(** The steps of a proof that a computation keeps a property: the
    computation is taken apart along its binds, loops and case
    distinctions. *)
Ltac preserves_step :=
  lazymatch goal with
  | |- preserves _ ?m =>
      lazymatch m with
      | mret _ => apply preserves_ret
      | raise _ => apply preserves_raise
      | lift _ => apply preserves_lift
      | get => apply preserves_get
      | modify _ => apply preserves_modify
      | _ ≫= _ => apply preserves_bind
      | for_each _ _ => apply preserves_for_each
      | for_fold _ _ _ => apply preserves_for_fold
      | on_graph_out _ => apply preserves_on_graph_out
      | if ?b then _ else _ => destruct b
      | (let '(_, _) := ?x in _) _ => destruct x
      | match ?x with _ => _ end => destruct x
      end
  | |- ∀ _, _ => intros
  end.

Lemma add_interaction_force_field (ff : option nat) type_ atoms_ parameters_ meta_ :
  preserves (λ m, force_field m = ff) (add_interaction type_ atoms_ parameters_ meta_).
Proof. unfold add_interaction. repeat preserves_step; done. Qed.

Lemma merge_nodes_force_field (ff : option nat) ro ocg idx ns correspondence :
  preserves (λ m, force_field m = ff) (merge_nodes ro ocg idx ns correspondence).
Proof.
  revert idx correspondence. induction ns as [|[node atom] ns IH];
    intros idx correspondence; simpl; [apply preserves_ret|].
  repeat preserves_step; done.
Qed.

Lemma merge_molecule_force_field (ff : option nat) molecule :
  preserves (λ m, force_field m = ff) (merge_molecule molecule).
Proof.
  unfold merge_molecule. repeat preserves_step; try done.
  - apply merge_nodes_force_field.
  - apply add_interaction_force_field.
Qed.

Lemma record_weight_force_field (ff : option nat) mol_idx out_idx weight :
  preserves (λ s, force_field (graph_out s) = ff) (record_weight mol_idx out_idx weight).
Proof. unfold record_weight. repeat preserves_step; done. Qed.

Lemma apply_block_mapping_force_field (ff : option nat) match_ :
  preserves (λ s, force_field (graph_out s) = ff) (apply_block_mapping match_).
Proof.
  unfold apply_block_mapping. repeat preserves_step; try done;
    try apply record_weight_force_field.
  apply (preserves_on_graph_out (λ m, force_field m = ff)).
  apply merge_molecule_force_field.
Qed.

Lemma apply_mod_mapping_force_field (ff : option nat) match_ :
  preserves (λ s, force_field (graph_out s) = ff) (apply_mod_mapping match_).
Proof.
  unfold apply_mod_mapping. repeat preserves_step; try done;
    apply record_weight_force_field.
Qed.

Lemma mapping_loop_force_field (ff : option nat) fuel block_matches mod_matches v :
  preserves (λ s, force_field (graph_out s) = ff)
            (mapping_loop fuel block_matches mod_matches v).
Proof.
  revert block_matches mod_matches v.
  induction fuel as [|fuel IH]; intros block_matches mod_matches v; simpl;
    [apply preserves_ret|].
  unfold mod_branch, block_branch. repeat preserves_step; try done.
  - apply apply_mod_mapping_force_field.
  - apply apply_block_mapping_force_field.
Qed.

Lemma set_node_attrs_force_field (ff : option nat) n new :
  preserves (λ s, force_field (graph_out s) = ff) (set_node_attrs n new).
Proof. unfold set_node_attrs. repeat preserves_step; done. Qed.

Lemma reconcile_node_force_field (ff : option nat) molecule attribute_keep
    all_references_ out_idx weights to_remove :
  preserves (λ s, force_field (graph_out s) = ff)
            (reconcile_node molecule attribute_keep all_references_ out_idx
                            weights to_remove).
Proof.
  unfold reconcile_node. repeat preserves_step; try done;
    apply set_node_attrs_force_field.
Qed.

Lemma connect_matches_force_field edges_between (ff : option nat) molecule
    none_to_one match1 match2 :
  preserves (λ s, force_field (graph_out s) = ff)
            (connect_matches edges_between molecule none_to_one match1 match2).
Proof. unfold connect_matches, out_idxs_of. repeat preserves_step; done. Qed.

Lemma do_mapping_steps_force_field edges_between (ff : option nat) molecule
    block_matches mod_matches attribute_keep :
  preserves (λ s, force_field (graph_out s) = ff)
            (do_mapping_steps edges_between molecule block_matches mod_matches
                              attribute_keep).
Proof.
  unfold do_mapping_steps. repeat preserves_step; try done.
  - apply mapping_loop_force_field.
  - apply reconcile_node_force_field.
  - apply connect_matches_force_field.
Qed.

(** The molecule that [do_mapping] returns is of the target force field. *)
Lemma do_mapping_force_field edges_between molecule block_matches mod_matches
    to_ff attribute_keep out :
  do_mapping edges_between molecule block_matches mod_matches to_ff attribute_keep
  = Ok out →
  force_field out = to_ff.
Proof.
  unfold do_mapping.
  destruct (sorted_desc block_matches) as [bs|]; [|done]. simpl.
  destruct (sorted_desc mod_matches) as [ms|]; [|done]. simpl.
  pose proof (do_mapping_steps_force_field edges_between to_ff molecule bs ms
                ("chain" :: attribute_keep)
                (mkMapState (new_molecule to_ff (mol_meta molecule)) [] [])
                eq_refl) as Hff.
  destruct (do_mapping_steps _ _ _ _ _ _) as [[to_remove|e] s]; [|done].
  by intros [= <-].
Qed.

Lemma reconcile_loop_queues_nothing molecule attribute_keep all_references_
    (rows : table) (to_remove : list Z) (s : MapState) r s' :
  for_fold rows to_remove
    (λ '(out_idx, weights) to_remove,
       reconcile_node molecule attribute_keep all_references_
                      out_idx weights to_remove) s
  = (Ok r, s') →
  r = to_remove.
Proof.
  revert to_remove s. induction rows as [|[out_idx weights] rows IH];
    intros to_remove s; simpl; [by intros [= <- _]|].
  rewrite bind_run.
  destruct (reconcile_node _ _ _ _ _ _ s) as [[r1|e] s1] eqn:Hnode; [|done].
  apply reconcile_node_queues_nothing in Hnode as ->. apply IH.
Qed.

(** No run of [do_mapping] has a node in [to_remove] when it comes to
    removing them. *)
Lemma do_mapping_steps_queue_nothing edges_between molecule block_matches
    mod_matches attribute_keep (s : MapState) to_remove s' :
  do_mapping_steps edges_between molecule block_matches mod_matches
                   attribute_keep s
  = (Ok to_remove, s') →
  to_remove = [].
Proof.
  unfold do_mapping_steps. bind_step.
  rewrite bind_run. unfold get at 1. rewrite bind_run.
  destruct (for_fold _ _ _ _) as [[r|e] s2] eqn:Hloop; [|done].
  apply reconcile_loop_queues_nothing in Hloop as ->.
  bind_step. by intros [= <- _].
Qed.

(** C4. The code at an input on which it departs from the claim: the
    output node that the modification match creates has [None] for its atom
    name, and [do_mapping] returns a molecule, of the target force field, in
    which that node is still present. *)
Theorem do_mapping_keeps_unnamed_particle :
  match do_mapping edges_between_undefined source_atom [] [unnamed_mod_match]
                   (Some 2%nat) [] with
  | Ok out =>
      (nodes (graph out)).*1 = [0]
      ∧ (node_attrs (graph out) 0 ≫= λ node, node !! "atomname") = Some VNone
      ∧ force_field out = Some 2%nat
  | Raise _ => False
  end.
Proof. vm_compute. by repeat split. Qed.

(** * More properties of [vermouth/molecule.py] *)

(** ** [add_or_replace_interaction] *)

Lemma py_eq_refl (v : pyval) : py_eq v v = true.
Proof. destruct v; simpl; by rewrite ?bool_decide_eq_true_2. Qed.

Lemma with_interactions_id (f : itable Z → itable Z) (m : Molecule) :
  f (interactions m) = interactions m → with_interactions f m = m.
Proof. destruct m. unfold with_interactions. simpl. by intros ->. Qed.

Lemma touch_known {N} (type_ : string) (d : itable N) :
  type_ ∈ d.*1 → touch type_ d = d.
Proof. intros H. unfold touch. by rewrite bool_decide_eq_true_2. Qed.

Lemma alter_list_keys {N} f (type_ : string) (d : itable N) :
  (alter_list f type_ d).*1 = d.*1.
Proof.
  induction d as [|[t l] d IH]; [done|]. cbn [alter_list].
  destruct (decide (t = type_)); rewrite !fmap_cons; [done|by rewrite IH].
Qed.

Lemma alter_list_id {N} f (type_ : string) (d : itable N) :
  f (get_list d type_) = get_list d type_ → alter_list f type_ d = d.
Proof.
  unfold get_list. induction d as [|[t l] d IH]; [done|]. simpl.
  rewrite lookup_key_cons. destruct (decide (t = type_)); simpl.
  - by intros ->.
  - intros H. by rewrite IH.
Qed.

Lemma get_interaction_run (type_ : string) (self : Molecule) :
  get_interaction type_ self
  = (Ok (get_list (interactions self) type_), with_interactions (touch type_) self).
Proof.
  unfold get_interaction. rewrite bind_run. unfold modify at 1.
  rewrite bind_run. unfold get at 1. cbn [interactions with_interactions].
  by rewrite get_list_touch.
Qed.

Lemma add_or_replace_interaction_run type_ atoms_ parameters_ meta_ (self : Molecule) :
  add_or_replace_interaction type_ atoms_ parameters_ meta_ self
  = match list_find (λ i, same_slot atoms_ (default ∅ meta_) i = true)
                    (get_list (interactions self) type_) with
    | Some (idx, _) =>
        (Ok tt,
         with_interactions
           (λ d, alter_list
                   (λ l, <[idx := mkInteraction atoms_ parameters_ (default ∅ meta_)]> l)
                   type_ (touch type_ d)) self)
    | None =>
        add_interaction type_ atoms_ parameters_ (Some (default ∅ meta_))
                        (with_interactions (touch type_) self)
    end.
Proof.
  unfold add_or_replace_interaction. rewrite bind_run, get_interaction_run.
  by destruct (list_find _ _) as [[idx x]|].
Qed.

(** The stored interaction that a call to [add_or_replace_interaction] left
    is the first of its slot, so that a second call finds it. *)
Lemma same_slot_first atoms_ parameters_ (meta_ : attrs) (l : list (Interaction Z))
    (p : nat) :
  l !! p = Some (mkInteraction atoms_ parameters_ meta_) →
  (∀ j y, l !! j = Some y → (j < p)%nat → same_slot atoms_ meta_ y ≠ true) →
  list_find (λ i, same_slot atoms_ meta_ i = true) l
  = Some (p, mkInteraction atoms_ parameters_ meta_).
Proof.
  intros Hp Hbefore. apply list_find_Some. split; [done|]. split; [|done].
  unfold same_slot. cbn [atoms meta]. by rewrite bool_decide_eq_true_2, py_eq_refl.
Qed.

(** X1. A call to [add_or_replace_interaction] that returns leaves the
    interaction stored under its type, changes the list of no other type,
    and makes the list of its type longer by one when no stored interaction
    had the same atoms and version, and no longer otherwise. *)
Theorem add_or_replace_interaction_stores
    type_ atoms_ parameters_ meta_ (self : Molecule) :
  let run := add_or_replace_interaction type_ atoms_ parameters_ meta_ self in
  let before := get_list (interactions self) type_ in
  let after := get_list (interactions run.2) type_ in
  run.1 = Ok tt →
  mkInteraction atoms_ parameters_ (default ∅ meta_) ∈ after
  ∧ (∀ t, t ≠ type_ → get_list (interactions run.2) t = get_list (interactions self) t)
  ∧ length after
    = if bool_decide (Exists (λ i, same_slot atoms_ (default ∅ meta_) i = true) before)
      then length before else S (length before).
Proof.
  cbn zeta. rewrite add_or_replace_interaction_run.
  destruct (list_find _ _) as [[idx x]|] eqn:Hfind.
  - intros _. cbn [snd interactions with_interactions].
    apply list_find_Some in Hfind as (Hidx & Hx & _).
    rewrite bool_decide_eq_true_2.
    2:{ apply Exists_exists. exists x. split; [|done]. by eapply list_elem_of_lookup_2. }
    split; [|split].
    + rewrite get_list_alter by apply touch_keys. rewrite decide_True by done.
      rewrite get_list_touch. apply list_elem_of_lookup. exists idx.
      apply list_lookup_insert_eq. by eapply lookup_lt_Some.
    + intros t Ht. rewrite get_list_alter by apply touch_keys.
      rewrite decide_False by done. by rewrite get_list_touch.
    + rewrite get_list_alter by apply touch_keys. rewrite decide_True by done.
      by rewrite get_list_touch, length_insert.
  - rewrite add_interaction_run. cbn [graph with_interactions].
    destruct (forallb _ atoms_); [|done]. intros _.
    cbn [snd interactions with_interactions].
    apply list_find_None in Hfind.
    rewrite bool_decide_eq_false_2.
    2:{ by apply Forall_Exists_neg. }
    rewrite !get_list_append, decide_True by done. rewrite !get_list_touch.
    split; [|split].
    + apply elem_of_app. right. by left.
    + intros t Ht. by rewrite get_list_append, decide_False, get_list_touch.
    + rewrite length_app. simpl. lia.
Qed.

Lemma add_or_replace_interaction_stores_witness :
  mkInteraction [0; 1] [VInt 7] ∅
  ∈ get_list (interactions (add_or_replace_interaction "bonds" [0; 1] [VInt 7] None dimer).2)
             "bonds".
Proof.
  apply (add_or_replace_interaction_stores "bonds" [0; 1] [VInt 7] None dimer).
  reflexivity.
Defined.

(** X2. [add_or_replace_interaction] is idempotent: after a call that
    returned, the same call returns again and leaves the molecule as the
    first call left it. *)
Theorem add_or_replace_interaction_idempotent
    type_ atoms_ parameters_ meta_ (self : Molecule) :
  let run := add_or_replace_interaction type_ atoms_ parameters_ meta_ self in
  run.1 = Ok tt →
  add_or_replace_interaction type_ atoms_ parameters_ meta_ run.2 = (Ok tt, run.2).
Proof.
  cbn zeta. set (new := mkInteraction atoms_ parameters_ (default ∅ meta_)).
  assert (∀ (s1 : Molecule) p,
    type_ ∈ (interactions s1).*1 →
    get_list (interactions s1) type_ !! p = Some new →
    (∀ j y, get_list (interactions s1) type_ !! j = Some y → (j < p)%nat →
            same_slot atoms_ (default ∅ meta_) y ≠ true) →
    add_or_replace_interaction type_ atoms_ parameters_ meta_ s1 = (Ok tt, s1))
    as Hagain.
  { intros s1 p Hkey Hp Hbefore. rewrite add_or_replace_interaction_run.
    rewrite (same_slot_first _ _ _ _ p Hp Hbefore). f_equal.
    apply with_interactions_id. rewrite touch_known by done.
    apply alter_list_id. by apply list_insert_id. }
  rewrite (add_or_replace_interaction_run _ _ _ _ self).
  destruct (list_find _ _) as [[idx x]|] eqn:Hfind.
  - intros _. cbn [snd]. apply list_find_Some in Hfind as (Hidx & Hx & Hbefore).
    apply (Hagain _ idx); cbn [interactions with_interactions].
    + rewrite alter_list_keys. apply touch_keys.
    + rewrite get_list_alter by apply touch_keys. rewrite decide_True by done.
      rewrite get_list_touch. apply list_lookup_insert_eq. by eapply lookup_lt_Some.
    + intros j y. rewrite get_list_alter by apply touch_keys.
      rewrite decide_True by done. rewrite get_list_touch.
      intros Hj Hlt. rewrite list_lookup_insert_ne in Hj by lia. by eapply Hbefore.
  - rewrite add_interaction_run. cbn [graph with_interactions].
    destruct (forallb _ atoms_); [|done]. intros _. cbn [snd].
    apply list_find_None in Hfind. rewrite Forall_forall in Hfind.
    apply (Hagain _ (length (get_list (interactions self) type_)));
      cbn [interactions with_interactions].
    + rewrite alter_list_keys. apply touch_keys.
    + rewrite get_list_append, decide_True by done. rewrite get_list_touch.
      by rewrite lookup_app_r, Nat.sub_diag.
    + intros j y. rewrite get_list_append, decide_True by done.
      rewrite get_list_touch. intros Hj Hlt. rewrite lookup_app_l in Hj by done.
      apply Hfind. by eapply list_elem_of_lookup_2.
Qed.

Lemma add_or_replace_interaction_idempotent_witness :
  add_or_replace_interaction "bonds" [0; 1] [VInt 7] None
    (add_or_replace_interaction "bonds" [0; 1] [VInt 7] None dimer).2
  = (Ok tt, (add_or_replace_interaction "bonds" [0; 1] [VInt 7] None dimer).2).
Proof.
  apply (add_or_replace_interaction_idempotent "bonds" [0; 1] [VInt 7] None dimer).
  reflexivity.
Defined.

(** ** [interaction_match] and [remove_matching_interaction] *)

Lemma find_matching_found molecule template_interaction (l : list (Interaction Z))
    (start idx : nat) :
  find_matching molecule template_interaction l start = Ok (Some idx) →
  ∃ l1 x l2,
    l = l1 ++ x :: l2 ∧ idx = (start + length l1)%nat
    ∧ interaction_match molecule x template_interaction = Ok true
    ∧ Forall (λ y, interaction_match molecule y template_interaction = Ok false) l1.
Proof.
  revert start. induction l as [|y l IH]; intros start; [done|]. simpl.
  destruct (interaction_match molecule y template_interaction) as [[]|e] eqn:Hy;
    [| |done].
  - intros [= <-]. exists [], y, l. repeat split; [simpl; lia|done|constructor].
  - intros (l1 & x & l2 & -> & -> & Hx & Hl1)%IH.
    exists (y :: l1), x, l2. repeat split; [simpl; lia|done|by constructor].
Qed.

Lemma remove_matching_interaction_run type_ template_interaction (self : Molecule) :
  remove_matching_interaction type_ template_interaction self
  = match find_matching (with_interactions (touch type_) self) template_interaction
                        (get_list (interactions self) type_) 0 with
    | Ok (Some idx) =>
        (Ok tt, with_interactions (λ d, alter_list (delete idx) type_ (touch type_ d)) self)
    | Ok None => (Raise ValueError, with_interactions (touch type_) self)
    | Raise e => (Raise e, with_interactions (touch type_) self)
    end.
Proof.
  unfold remove_matching_interaction. rewrite bind_run, get_interaction_run.
  rewrite bind_run. unfold get at 1. rewrite bind_run. unfold lift at 1.
  by destruct (find_matching _ _ _ _) as [[idx|]|e].
Qed.

(** X3. [remove_matching_interaction] removes one interaction, the first
    of its type that matches the template, and nothing else; when it raises,
    every list of interactions reads as before and the graph is as it was. *)
Theorem remove_matching_interaction_removes_first
    type_ template_interaction (self : Molecule) :
  let run := remove_matching_interaction type_ template_interaction self in
  graph run.2 = graph self
  ∧ (∀ t, t ≠ type_ → get_list (interactions run.2) t = get_list (interactions self) t)
  ∧ (run.1 = Ok tt →
     ∃ l1 x l2,
       get_list (interactions self) type_ = l1 ++ x :: l2
       ∧ get_list (interactions run.2) type_ = l1 ++ l2
       ∧ interaction_match self x template_interaction = Ok true
       ∧ Forall (λ y, interaction_match self y template_interaction = Ok false) l1)
  ∧ (∀ e, run.1 = Raise e →
          get_list (interactions run.2) type_ = get_list (interactions self) type_).
Proof.
  cbn zeta. rewrite remove_matching_interaction_run.
  destruct (find_matching _ _ _ _) as [[idx|]|e] eqn:Hfind;
    cbn [fst snd graph interactions with_interactions].
  - split; [done|]. split; [|split; [|done]].
    + intros t Ht. rewrite get_list_alter by apply touch_keys.
      by rewrite decide_False, get_list_touch.
    + intros _. apply find_matching_found in Hfind as (l1 & x & l2 & Hl & -> & Hx & Hl1).
      exists l1, x, l2. split; [done|]. split; [|done].
      rewrite get_list_alter by apply touch_keys.
      rewrite decide_True, get_list_touch, Hl by done. apply delete_middle.
  - split; [done|]. split; [by intros; rewrite get_list_touch|].
    split; [done|]. intros _ _. by rewrite get_list_touch.
  - split; [done|]. split; [by intros; rewrite get_list_touch|].
    split; [done|]. intros _ _. by rewrite get_list_touch.
Qed.

Lemma remove_matching_interaction_removes_first_witness :
  ∃ l1 x l2,
    get_list (interactions dimer) "bonds" = l1 ++ x :: l2
    ∧ get_list (interactions
                 (remove_matching_interaction "bonds"
                    (template_of (mkInteraction [0; 1] [] ∅)) dimer).2) "bonds"
      = l1 ++ l2
    ∧ interaction_match dimer x (template_of (mkInteraction [0; 1] [] ∅)) = Ok true
    ∧ Forall (λ y, interaction_match dimer y (template_of (mkInteraction [0; 1] [] ∅))
                   = Ok false) l1.
Proof.
  apply (remove_matching_interaction_removes_first "bonds"
           (template_of (mkInteraction [0; 1] [] ∅)) dimer).
  reflexivity.
Defined.

Lemma tuple_eq_refl (l : list pyval) : tuple_eq l l = true.
Proof. induction l as [|x l IH]; simpl; [done|]. by rewrite py_eq_refl, IH. Qed.

Lemma attributes_match_literals (attributes : attrs) (attrs_ : list (string * pyval)) :
  attributes_match attributes ((λ q, (q.1, Lit q.2)) <$> attrs_) []
  = Ok (forallb (λ q, py_eq (dict_get attributes q.1 VNone) q.2) attrs_).
Proof.
  induction attrs_ as [|[k v] attrs_ IH]; [done|].
  rewrite fmap_cons. cbn [attributes_match fst snd forallb].
  rewrite bool_decide_eq_false_2 by apply not_elem_of_nil.
  destruct (py_eq (dict_get attributes k VNone) v); simpl; [apply IH|done].
Qed.

Lemma atoms_match_unconstrained (nodes_ : list attrs) (n : nat) (and_then : result bool) :
  atoms_match nodes_ (replicate n []) and_then = and_then.
Proof.
  revert n. induction nodes_ as [|a nodes_ IH]; intros [|n]; simpl; try done.
Qed.

Lemma map_result_molecule_node (molecule : Molecule) (atoms_ : list Z) :
  forallb (has_node (graph molecule)) atoms_ = true →
  ∃ nodes_, map_result (molecule_node molecule) atoms_ = Ok nodes_.
Proof.
  induction atoms_ as [|a atoms_ IH]; simpl; [by eexists|].
  intros [Ha Hrest]%andb_prop. destruct (IH Hrest) as [nodes_ ->].
  unfold molecule_node, getitem_key.
  apply bool_decide_eq_true in Ha.
  destruct (lookup_key a (nodes (graph molecule))) as [attrs_|] eqn:Hlookup.
  - simpl. by eexists.
  - exfalso. apply list_elem_of_fmap in Ha as ([a' attrs_] & -> & Hin).
    unfold lookup_key in Hlookup.
    destruct (list_find _ _) as [[i p]|] eqn:Hfind; [done|].
    apply list_find_None in Hfind. rewrite Forall_forall in Hfind.
    by apply (Hfind _ Hin).
Qed.

(** X4. An interaction between atoms of the molecule matches the template
    that is made of it: its atoms, its parameters and its metadata. *)
Theorem interaction_match_itself (molecule : Molecule) (x : Interaction Z) :
  forallb (has_node (graph molecule)) (atoms x) = true →
  interaction_match molecule x (template_of x) = Ok true.
Proof.
  intros Hnodes. unfold interaction_match, template_of.
  cbn [template_atoms template_parameters template_atom_attrs template_meta].
  rewrite bool_decide_eq_true_2 by done. rewrite tuple_eq_refl, orb_true_r.
  cbn [andb default]. destruct (map_result_molecule_node _ _ Hnodes) as [nodes_ ->].
  simpl. rewrite atoms_match_unconstrained, attributes_match_literals. f_equal.
  apply forallb_true_elem. intros [k v] Hkv%elem_of_map_to_list. simpl.
  unfold dict_get. rewrite Hkv. apply py_eq_refl.
Qed.

Lemma interaction_match_itself_witness :
  interaction_match dimer (mkInteraction [0; 1] [VInt 3] {[ "version" := VInt 2 ]})
    (template_of (mkInteraction [0; 1] [VInt 3] {[ "version" := VInt 2 ]}))
  = Ok true.
Proof.
  apply (interaction_match_itself dimer
           (mkInteraction [0; 1] [VInt 3] {[ "version" := VInt 2 ]})).
  reflexivity.
Defined.

(** ** [find_atoms] *)

(** X5. [find_atoms] yields, in the order of the nodes, the atoms whose
    attributes match its keyword arguments taken as a template, in the
    sense of [attributes_match]; without arguments it yields every atom. *)
Theorem find_atoms_matches (attrs_ : list (string * pyval)) (self : Molecule) :
  find_atoms attrs_ self `sublist_of` (nodes (graph self)).*1
  ∧ (∀ n, n ∈ find_atoms attrs_ self
          ↔ ∃ node, (n, node) ∈ nodes (graph self)
                    ∧ attributes_match node ((λ q, (q.1, Lit q.2)) <$> attrs_) []
                      = Ok true)
  ∧ find_atoms [] self = (nodes (graph self)).*1.
Proof.
  unfold find_atoms. split; [|split].
  - apply fmap_sublist, sublist_filter.
  - intros n. rewrite list_elem_of_fmap. split.
    + intros ([n' node] & -> & [Hmatch Hin]%list_elem_of_filter).
      exists node. split; [done|]. simpl in Hmatch.
      by rewrite attributes_match_literals, Hmatch.
    + intros (node & Hin & Hmatch). exists (n, node). split; [done|].
      apply list_elem_of_filter. split; [|done].
      rewrite attributes_match_literals in Hmatch. simpl. by injection Hmatch.
  - f_equal. induction (nodes (graph self)) as [|p l IH]; [done|].
    rewrite filter_cons_True by done. by rewrite IH.
Qed.

(** ** [copy] *)

(** X6. A copy has the graph, the force field and the meta of the
    molecule, and neither its interactions nor its [nrexcl]; a molecule that
    has an [nrexcl] therefore refuses to merge its own copy. *)
Theorem copy_drops_interactions (self : Molecule) :
  graph (copy self) = graph self
  ∧ force_field (copy self) = force_field self
  ∧ mol_meta (copy self) = mol_meta self
  ∧ (∀ t, get_list (interactions (copy self)) t = [])
  ∧ (nrexcl self ≠ None →
     merge_molecule (copy self) self = (Raise ValueError, self)).
Proof.
  repeat split; try done. intros Hn. unfold merge_molecule.
  rewrite bind_run. unfold get at 1. cbn [force_field nrexcl copy].
  rewrite (bool_decide_eq_false_2 (force_field self ≠ _)) by (intros H; by apply H).
  by rewrite bool_decide_eq_true_2.
Qed.

Lemma copy_drops_interactions_witness :
  merge_molecule (copy dimer_nrexcl_3) dimer_nrexcl_3
  = (Raise ValueError, dimer_nrexcl_3).
Proof. by apply (copy_drops_interactions dimer_nrexcl_3). Defined.

(** ** [__getattr__] *)









(** * More properties of [Block] *)

(** ** Guessing angles and dihedrals *)

Lemma elem_of_neighbors {N} `{EqDecision N} (g : Graph N) (a b : N) :
  b ∈ neighbors g a ↔ joined (edges g) a b.
Proof.
  unfold neighbors, joined. rewrite list_elem_of_omap. split.
  - intros ([u v] & Hin & Hb). simpl in Hb.
    destruct (decide (u = a)) as [->|]; [injection Hb as ->; by left|].
    destruct (decide (v = a)) as [->|]; [injection Hb as ->; by right|done].
  - intros [Hin|Hin].
    + exists (a, b). split; [done|]. simpl. by rewrite decide_True.
    + exists (b, a). split; [done|]. simpl.
      destruct (decide (b = a)) as [->|]; [done|]. by rewrite decide_True.
Qed.

Lemma joined_sym {N} (pairs : list (N * N)) (u v : N) :
  joined pairs u v → joined pairs v u.
Proof. unfold joined. tauto. Qed.

Lemma joined_nodes {N} `{EqDecision N} (g : Graph N) (u v : N) :
  ends_are_nodes g = true → joined (edges g) u v →
  u ∈ (nodes g).*1 ∧ v ∈ (nodes g).*1.
Proof.
  unfold ends_are_nodes. rewrite forallb_true_elem.
  intros Hwf [H|H]; apply Hwf in H; apply andb_prop in H as [H1 H2];
    apply bool_decide_eq_true in H1, H2; tauto.
Qed.

Lemma elem_of_guess_angles (self : Block) (a b c : string) :
  (a, b, c) ∈ guess_angles self
  ↔ a ∈ (nodes (block_graph self)).*1
    ∧ joined (edges (block_graph self)) a b
    ∧ joined (edges (block_graph self)) b c
    ∧ c ≠ a.
Proof.
  unfold guess_angles. rewrite list_elem_of_bind. split.
  - intros (a' & (b' & (c' & Habc & Hc)%list_elem_of_bind & Hb)%list_elem_of_bind & Ha).
    destruct (decide (c' = a')); [by apply elem_of_nil in Habc|].
    apply list_elem_of_singleton in Habc as [= -> -> ->].
    by rewrite <- !elem_of_neighbors.
  - intros (Ha & Hb & Hc & Hne). exists a. split; [|done].
    apply list_elem_of_bind. exists b. split; [|by apply elem_of_neighbors].
    apply list_elem_of_bind. exists c. split; [|by apply elem_of_neighbors].
    rewrite decide_False by done. by left.
Qed.

(** X8. [guess_angles] yields exactly the triples [(a, b, c)] with an edge
    between [a] and [b], an edge between [b] and [c], and [c] other than
    [a]; it yields each angle in both directions. *)
Theorem guess_angles_paths (self : Block) (a b c : string) :
  ends_are_nodes (block_graph self) = true →
  ((a, b, c) ∈ guess_angles self
   ↔ has_edge (block_graph self) a b = true
     ∧ has_edge (block_graph self) b c = true ∧ c ≠ a)
  ∧ ((a, b, c) ∈ guess_angles self → (c, b, a) ∈ guess_angles self).
Proof.
  intros Hwf. rewrite !has_edge_joined, !elem_of_guess_angles. split.
  - split; [tauto|]. intros (Hab & Hbc & Hne). split; [|done].
    by apply (joined_nodes _ a b).
  - intros (_ & Hab & Hbc & Hne). split; [by apply (joined_nodes _ b c)|].
    split; [by apply joined_sym|]. split; [by apply joined_sym|done].
Qed.

Lemma guess_angles_paths_witness :
  ("N", "CA", "C") ∈ guess_angles (make_edges_from_interactions tripeptide_block).
Proof.
  apply (guess_angles_paths (make_edges_from_interactions tripeptide_block) "N" "CA" "C");
    [reflexivity|by repeat split].
Defined.

(** X9. [guess_dihedrals] yields exactly the quadruples [(a, b, c, d)] that
    extend an angle [(a, b, c)] by an edge between [c] and [d], with [d]
    other than [a] and [b]; it yields each dihedral in both directions. *)
Theorem guess_dihedrals_paths (self : Block) (a b c d : string) :
  ends_are_nodes (block_graph self) = true →
  ((a, b, c, d) ∈ guess_dihedrals self
   ↔ (a, b, c) ∈ guess_angles self
     ∧ has_edge (block_graph self) c d = true ∧ d ≠ a ∧ d ≠ b)
  ∧ ((a, b, c, d) ∈ guess_dihedrals self → (d, c, b, a) ∈ guess_dihedrals self).
Proof.
  intros Hwf.
  assert (∀ a b c d, (a, b, c, d) ∈ guess_dihedrals self
     ↔ (a, b, c) ∈ guess_angles self
       ∧ joined (edges (block_graph self)) c d ∧ d ≠ a ∧ d ≠ b) as Hiff.
  { clear. intros a b c d. unfold guess_dihedrals. rewrite list_elem_of_bind. split.
    - intros ([[a' b'] c'] & (d' & Hin & Hd)%list_elem_of_bind & Habc).
      simpl in *. case_bool_decide as Hnot; [by apply elem_of_nil in Hin|].
      apply list_elem_of_singleton in Hin as [= -> -> -> ->].
      apply elem_of_neighbors in Hd. split; [done|]. split; [done|].
      split; intros ->; apply Hnot; [by left|by right; left].
    - intros (Habc & Hd & Hda & Hdb). exists (a, b, c). split; [|done].
      apply list_elem_of_bind. exists d. split; [|by apply elem_of_neighbors].
      simpl. rewrite bool_decide_eq_false_2; [by left|].
      intros [->|[->|[]%elem_of_nil]%elem_of_cons]%elem_of_cons; done. }
  rewrite has_edge_joined. split; [apply Hiff|].
  rewrite !Hiff, !elem_of_guess_angles.
  intros ((Ha & Hab & Hbc & Hca) & Hcd & Hda & Hdb).
  split; [|split; [by apply joined_sym|split; congruence]].
  split; [by apply (joined_nodes _ c d)|].
  split; [by apply joined_sym|]. split; [by apply joined_sym|congruence].
Qed.

Lemma guess_dihedrals_paths_witness :
  ("O", "C", "CA", "N") ∈ guess_dihedrals (make_edges_from_interactions tripeptide_block).
Proof.
  apply (guess_dihedrals_paths (make_edges_from_interactions tripeptide_block)
           "N" "CA" "C" "O"); [reflexivity|].
  apply (bool_decide_unpack _). vm_compute. exact I.
Defined.

(** ** Making the edges twice *)

Section add_edge_lemmas.
Context {N : Type} `{EqDecision N}.

Lemma ends_are_nodes_spec (g : Graph N) :
  ends_are_nodes g = true
  ↔ ∀ u v, (u, v) ∈ edges g → u ∈ (nodes g).*1 ∧ v ∈ (nodes g).*1.
Proof.
  unfold ends_are_nodes. rewrite forallb_true_elem. split.
  - intros H u v Huv. specialize (H _ Huv). apply andb_prop in H as [H1 H2].
    by apply bool_decide_eq_true in H1, H2.
  - intros H [u v] Huv. destruct (H u v Huv) as [Hu Hv]. simpl.
    unfold has_node. by rewrite !bool_decide_eq_true_2.
Qed.

Lemma nodes_add_edge_elem (u v n : N) (g : Graph N) :
  n ∈ (nodes (add_edge u v g)).*1 ↔ n ∈ (nodes g).*1 ∨ n = u ∨ n = v.
Proof.
  unfold add_edge.
  set (g1 := if has_node g u then g else mkGraph (nodes g ++ [(u, ∅)]) (edges g)).
  set (g2 := if has_node g1 v then g1 else mkGraph (nodes g1 ++ [(v, ∅)]) (edges g1)).
  assert (n ∈ (nodes g1).*1 ↔ n ∈ (nodes g).*1 ∨ n = u) as H1.
  { unfold g1. destruct (has_node g u) eqn:Hu.
    - apply bool_decide_eq_true in Hu. split; [by left|]. by intros [?| ->].
    - simpl. rewrite fmap_app, elem_of_app. simpl. by rewrite list_elem_of_singleton. }
  assert (n ∈ (nodes g2).*1 ↔ n ∈ (nodes g1).*1 ∨ n = v) as H2.
  { unfold g2. destruct (has_node g1 v) eqn:Hv.
    - apply bool_decide_eq_true in Hv. split; [by left|]. by intros [?| ->].
    - simpl. rewrite fmap_app, elem_of_app. simpl. by rewrite list_elem_of_singleton. }
  destruct (has_edge g2 u v); simpl; rewrite H2, H1; tauto.
Qed.

Lemma add_edge_known (u v : N) (g : Graph N) :
  has_node g u = true → has_node g v = true → has_edge g u v = true →
  add_edge u v g = g.
Proof. intros Hu Hv Huv. unfold add_edge. by rewrite Hu, Hv, Huv. Qed.

Lemma add_edge_ends_are_nodes (u v : N) (g : Graph N) :
  ends_are_nodes g = true → ends_are_nodes (add_edge u v g) = true.
Proof.
  rewrite !ends_are_nodes_spec. intros Hwf a b. rewrite edges_add_edge.
  rewrite !nodes_add_edge_elem. destruct (has_edge g u v).
  - intros Hab. destruct (Hwf a b Hab). tauto.
  - intros [Hab|[= -> ->]%list_elem_of_singleton]%elem_of_app; [|tauto].
    destruct (Hwf a b Hab). tauto.
Qed.

Lemma add_edges_from_ends_are_nodes (pairs : list (N * N)) (g : Graph N) :
  ends_are_nodes g = true → ends_are_nodes (add_edges_from pairs g) = true.
Proof.
  unfold add_edges_from. revert g. induction pairs as [|[u v] pairs IH]; intros g Hwf;
    simpl; [done|]. by apply IH, add_edge_ends_are_nodes.
Qed.

Lemma add_edges_from_known (pairs : list (N * N)) (g : Graph N) :
  ends_are_nodes g = true →
  (∀ u v, (u, v) ∈ pairs → joined (edges g) u v) →
  add_edges_from pairs g = g.
Proof.
  intros Hwf. unfold add_edges_from. induction pairs as [|[u v] pairs IH]; intros Hpairs;
    simpl; [done|].
  assert (joined (edges g) u v) as Huv by (apply Hpairs; by left).
  destruct (joined_nodes g u v Hwf Huv) as [Hu Hv].
  rewrite add_edge_known.
  - apply IH. intros a b Hab. apply Hpairs. by right.
  - by apply bool_decide_eq_true.
  - by apply bool_decide_eq_true.
  - by apply has_edge_joined.
Qed.
End add_edge_lemmas.

Lemma with_block_graph_id (f : Graph string → Graph string) (b : Block) :
  f (block_graph b) = block_graph b → with_block_graph f b = b.
Proof. destruct b. unfold with_block_graph. simpl. by intros ->. Qed.

Lemma make_edges_fold_ends_are_nodes (l : list (Interaction string)) (self : Block) :
  ends_are_nodes (block_graph self) = true →
  ends_are_nodes (block_graph
    (foldl (λ self interaction,
              if makes_edges interaction
              then with_block_graph
                     (add_edges_from (consecutive_pairs (atoms interaction))) self
              else self) self l)) = true.
Proof.
  revert self. induction l as [|i l IH]; intros self Hwf; simpl; [done|].
  apply IH. destruct (makes_edges i); [|done].
  by apply add_edges_from_ends_are_nodes.
Qed.

Lemma make_edges_fold_known (l : list (Interaction string)) (self : Block) :
  ends_are_nodes (block_graph self) = true →
  (∀ i u v, i ∈ l → makes_edges i = true → (u, v) ∈ consecutive_pairs (atoms i) →
            joined (edges (block_graph self)) u v) →
  foldl (λ self interaction,
           if makes_edges interaction
           then with_block_graph
                  (add_edges_from (consecutive_pairs (atoms interaction))) self
           else self) self l = self.
Proof.
  intros Hwf. induction l as [|i l IH]; intros Hl; simpl; [done|].
  assert ((if makes_edges i
           then with_block_graph (add_edges_from (consecutive_pairs (atoms i))) self
           else self) = self) as ->.
  { destruct (makes_edges i) eqn:Hi; [|done]. apply with_block_graph_id.
    apply add_edges_from_known; [done|]. intros u v Huv. apply (Hl i); [by left|done..]. }
  apply IH. intros j u v Hj. apply Hl. by right.
Qed.

Lemma make_edges_types_ends_are_nodes (types : list string) (self : Block) :
  ends_are_nodes (block_graph self) = true →
  ends_are_nodes (block_graph
    (foldl (λ self type_, make_edges_from_interaction_type type_ self) self types))
  = true.
Proof.
  revert self. induction types as [|t types IH]; intros self Hwf; simpl; [done|].
  apply IH. by apply make_edges_fold_ends_are_nodes.
Qed.

Lemma make_edges_types_known (types : list string) (self : Block) :
  ends_are_nodes (block_graph self) = true →
  (∀ t i u v, t ∈ types → i ∈ get_list (block_interactions self) t →
              makes_edges i = true → (u, v) ∈ consecutive_pairs (atoms i) →
              joined (edges (block_graph self)) u v) →
  foldl (λ self type_, make_edges_from_interaction_type type_ self) self types = self.
Proof.
  intros Hwf. induction types as [|t types IH]; intros Hl; simpl; [done|].
  assert (make_edges_from_interaction_type t self = self) as ->.
  { apply make_edges_fold_known; [done|]. intros i u v. apply Hl. by left. }
  apply IH. intros t' i u v Ht'. apply Hl. by right.
Qed.

(** X10. Making the edges of a block a second time changes nothing, and
    the ends of the edges are nodes of the block after the call as they
    were before it. *)
Theorem make_edges_from_interactions_idempotent (self : Block) :
  ends_are_nodes (block_graph self) = true →
  ends_are_nodes (block_graph (make_edges_from_interactions self)) = true
  ∧ make_edges_from_interactions (make_edges_from_interactions self)
    = make_edges_from_interactions self.
Proof.
  intros Hwf.
  assert (ends_are_nodes (block_graph (make_edges_from_interactions self)) = true)
    as Hwf' by by apply make_edges_types_ends_are_nodes.
  split; [done|].
  apply make_edges_types_known; [done|]. intros t i u v Ht Hi Hmakes Huv.
  destruct (make_edges_types_spec known_types self u v) as [Hint Hedges].
  fold (make_edges_from_interactions self) in Hint, Hedges.
  apply Hedges. right. exists t, i. rewrite <- Hint. repeat split; try done. by left.
Qed.

Lemma make_edges_from_interactions_idempotent_witness :
  make_edges_from_interactions (make_edges_from_interactions tripeptide_block)
  = make_edges_from_interactions tripeptide_block.
Proof.
  by apply (make_edges_from_interactions_idempotent tripeptide_block).
Defined.

(** * Molecules stay well formed *)

Lemma molecule_wf_spec (m : Molecule) :
  molecule_wf m = true
  ↔ NoDup (nodes (graph m)).*1 ∧ interactions_wf m = true
    ∧ ends_are_nodes (graph m) = true.
Proof.
  unfold molecule_wf. rewrite !andb_true_iff, bool_decide_eq_true.
  change (edges_wf (graph m)) with (ends_are_nodes (graph m)). tauto.
Qed.

Lemma table_atoms_all_mono {N} (P Q : N → bool) (d : itable N) :
  (∀ a, P a = true → Q a = true) →
  table_atoms_all P d = true → table_atoms_all Q d = true.
Proof.
  intros HPQ. unfold table_atoms_all. rewrite !forallb_true_elem.
  intros H p Hp. specialize (H p Hp). rewrite forallb_true_elem in H.
  apply forallb_true_elem. intros i Hi. specialize (H i Hi).
  rewrite forallb_true_elem in H. apply forallb_true_elem. intros a Ha.
  by apply HPQ, H.
Qed.

Section graph_growth.
Context {N : Type} `{EqDecision N}.

Lemma update_node_keys (ns : list (N * attrs)) (n : N) (a : attrs) :
  (update_node ns n a).*1 = ns.*1.
Proof.
  induction ns as [|[m b] ns IH]; [done|]. cbn [update_node].
  destruct (decide (m = n)); rewrite !fmap_cons; [done|by rewrite IH].
Qed.

Lemma keys_add_node (n : N) (a : attrs) (g : Graph N) :
  (nodes (add_node n a g)).*1
  = if has_node g n then (nodes g).*1 else (nodes g).*1 ++ [n].
Proof.
  unfold add_node. destruct (has_node g n); cbn [nodes].
  - apply update_node_keys.
  - by rewrite fmap_app.
Qed.

Lemma add_node_NoDup (n : N) (a : attrs) (g : Graph N) :
  NoDup (nodes g).*1 → NoDup (nodes (add_node n a g)).*1.
Proof.
  intros Hnd. rewrite keys_add_node. destruct (has_node g n) eqn:Hn; [done|].
  apply bool_decide_eq_false in Hn. apply NoDup_app. split; [done|].
  split; [|apply NoDup_singleton]. by intros m Hm ->%list_elem_of_singleton.
Qed.

Lemma add_node_grows (n m : N) (a : attrs) (g : Graph N) :
  has_node g m = true → has_node (add_node n a g) m = true.
Proof.
  unfold has_node at 2. rewrite keys_add_node. intros Hm.
  apply bool_decide_eq_true in Hm. apply bool_decide_eq_true.
  destruct (has_node g n); [done|]. apply elem_of_app. by left.
Qed.

Lemma add_node_ends_are_nodes (n : N) (a : attrs) (g : Graph N) :
  ends_are_nodes g = true → ends_are_nodes (add_node n a g) = true.
Proof.
  unfold ends_are_nodes. rewrite !forallb_true_elem.
  assert (edges (add_node n a g) = edges g) as ->.
  { unfold add_node. by destruct (has_node g n). }
  intros H e He. specialize (H e He). apply andb_prop in H as [H1 H2].
  by rewrite !add_node_grows.
Qed.

Lemma add_edge_NoDup (u v : N) (g : Graph N) :
  NoDup (nodes g).*1 → NoDup (nodes (add_edge u v g)).*1.
Proof.
  intros Hnd. unfold add_edge.
  set (g1 := if has_node g u then g else mkGraph (nodes g ++ [(u, ∅)]) (edges g)).
  assert (NoDup (nodes g1).*1) as Hnd1.
  { unfold g1. destruct (has_node g u) eqn:Hu; [done|]. cbn [nodes].
    apply bool_decide_eq_false in Hu. rewrite fmap_app. apply NoDup_app.
    split; [done|]. split; [|apply NoDup_singleton].
    by intros m Hm ->%list_elem_of_singleton. }
  set (g2 := if has_node g1 v then g1 else mkGraph (nodes g1 ++ [(v, ∅)]) (edges g1)).
  assert (NoDup (nodes g2).*1) as Hnd2.
  { unfold g2. destruct (has_node g1 v) eqn:Hv; [done|]. cbn [nodes].
    apply bool_decide_eq_false in Hv. rewrite fmap_app. apply NoDup_app.
    split; [done|]. split; [|apply NoDup_singleton].
    by intros m Hm ->%list_elem_of_singleton. }
  by destruct (has_edge g2 u v).
Qed.

Lemma add_edge_grows (u v m : N) (g : Graph N) :
  has_node g m = true → has_node (add_edge u v g) m = true.
Proof.
  intros Hm. apply bool_decide_eq_true in Hm. apply bool_decide_eq_true.
  apply nodes_add_edge_elem. by left.
Qed.
End graph_growth.

(** A change of the graph that keeps the ids apart, keeps the nodes and
    keeps the ends of the edges among them keeps the molecule well formed. *)
Lemma molecule_wf_with_graph (f : Graph Z → Graph Z) (m : Molecule) :
  (NoDup (nodes (graph m)).*1 → NoDup (nodes (f (graph m))).*1) →
  (∀ n, has_node (graph m) n = true → has_node (f (graph m)) n = true) →
  (ends_are_nodes (graph m) = true → ends_are_nodes (f (graph m)) = true) →
  molecule_wf m = true → molecule_wf (with_graph f m) = true.
Proof.
  intros Hnd Hgrows Hends. rewrite !molecule_wf_spec.
  intros (Hnd0 & Hint & Hends0). split; [by apply Hnd|]. split; [|by apply Hends].
  unfold interactions_wf in *. cbn [graph interactions with_graph].
  by eapply table_atoms_all_mono.
Qed.

Lemma molecule_wf_add_node (n : Z) (a : attrs) (m : Molecule) :
  molecule_wf m = true → molecule_wf (with_graph (add_node n a) m) = true.
Proof.
  apply molecule_wf_with_graph.
  - apply add_node_NoDup.
  - intros k. apply add_node_grows.
  - apply add_node_ends_are_nodes.
Qed.

Lemma molecule_wf_add_edge (u v : Z) (m : Molecule) :
  molecule_wf m = true → molecule_wf (with_graph (add_edge u v) m) = true.
Proof.
  apply molecule_wf_with_graph.
  - apply add_edge_NoDup.
  - intros k. apply add_edge_grows.
  - apply add_edge_ends_are_nodes.
Qed.

Lemma add_interaction_wf type_ atoms_ parameters_ meta_ :
  preserves (λ m, molecule_wf m = true)
            (add_interaction type_ atoms_ parameters_ meta_).
Proof.
  intros m Hm. rewrite add_interaction_run.
  destruct (forallb (has_node (graph m)) atoms_) eqn:Hatoms; [|done].
  cbn [snd]. apply molecule_wf_spec in Hm as (Hnd & Hint & Hends).
  apply molecule_wf_spec. split; [done|]. split; [|done].
  unfold interactions_wf. cbn [graph interactions with_interactions].
  by apply table_atoms_all_append.
Qed.

Lemma merge_nodes_wf ro ocg idx ns correspondence :
  preserves (λ m, molecule_wf m = true) (merge_nodes ro ocg idx ns correspondence).
Proof.
  revert idx correspondence. induction ns as [|[node atom] ns IH];
    intros idx correspondence; simpl; [apply preserves_ret|].
  repeat preserves_step; try done. by apply molecule_wf_add_node.
Qed.

(** X11. [merge_molecule] keeps its receiver well formed, whether it
    returns or raises and whatever molecule it is given: no two atoms share
    an id, and every interaction and every edge is between atoms of the
    molecule. *)
Theorem merge_molecule_keeps_well_formed (self molecule : Molecule) :
  molecule_wf self = true → molecule_wf (merge_molecule molecule self).2 = true.
Proof.
  revert self. change (preserves (λ m, molecule_wf m = true) (merge_molecule molecule)).
  unfold merge_molecule. repeat preserves_step; try done.
  - apply merge_nodes_wf.
  - apply add_interaction_wf.
  - by apply molecule_wf_add_edge.
Qed.

Lemma merge_molecule_keeps_well_formed_witness :
  molecule_wf (merge_molecule dimer_5_7 dimer).2 = true.
Proof. by apply (merge_molecule_keeps_well_formed dimer dimer_5_7). Defined.

(** ** [to_molecule] *)

Lemma block_atom_attrs resid resname offset_charge_group (atom new_atom : attrs) :
  block_atom resid resname offset_charge_group atom = Ok new_atom →
  new_atom !! "resid" = Some (VInt resid)
  ∧ new_atom !! "resname" = Some (from_option VStr VNone resname)
  ∧ (∃ c, new_atom !! "charge_group" = Some (VInt c))
  ∧ (∀ k, k ≠ "resid" → k ≠ "resname" → k ≠ "charge_group" →
          new_atom !! k = atom !! k).
Proof.
  unfold block_atom. destruct (py_add _ _) as [cg|e]; [|done]. simpl.
  intros [= <-]. split; [|split; [|split]].
  - by rewrite lookup_insert_ne, lookup_insert_ne, lookup_insert_eq.
  - by rewrite lookup_insert_ne, lookup_insert_eq.
  - exists cg. by rewrite lookup_insert_eq.
  - intros k H1 H2 H3. by rewrite !lookup_insert_ne.
Qed.

Lemma name_atom_values (atom : attrs) (idx : Z) (name_to_idx name_to_idx' : gmap string Z) :
  name_atom atom idx name_to_idx = Ok name_to_idx' →
  ∀ k v, name_to_idx' !! k = Some v → name_to_idx !! k = Some v ∨ v = idx.
Proof.
  unfold name_atom. destruct (getitem atom "atomname") as [atomname|e]; [|done]. simpl.
  destruct atomname; simpl; try (by intros [= <-]; left).
  intros [= <-] k v. destruct (decide (s = k)) as [->|Hne].
  - rewrite lookup_insert_eq. intros [= <-]. by right.
  - rewrite lookup_insert_ne by done. by left.
Qed.

Lemma block_nodes_run resid resname offset_charge_group (atoms_ : list attrs)
    (idx : Z) (name_to_idx name_to_idx' : gmap string Z) (s s' : Molecule) :
  Forall (λ k, k < idx) (nodes (graph s)).*1 →
  block_nodes resid resname offset_charge_group idx atoms_ name_to_idx s
  = (Ok name_to_idx', s') →
  ∃ added,
    s' = with_graph (λ g, mkGraph (nodes g ++ added) (edges g)) s
    ∧ added.*1 = seqZ idx (Z.of_nat (length atoms_))
    ∧ Forall2 (λ atom new_atom,
                 block_atom resid resname offset_charge_group atom = Ok new_atom)
              atoms_ added.*2
    ∧ (∀ k v, name_to_idx' !! k = Some v →
              name_to_idx !! k = Some v
              ∨ v ∈ seqZ idx (Z.of_nat (length atoms_))).
Proof.
  revert idx name_to_idx s.
  induction atoms_ as [|atom atoms_ IH]; intros idx n2i s Hfresh.
  { simpl. intros [= <- <-]. exists []. split.
    - destruct s as [[ns es] ? ? ? ?]. unfold with_graph. simpl. by rewrite app_nil_r.
    - repeat split; [constructor|by left]. }
  cbn [block_nodes]. rewrite bind_run. unfold lift at 1.
  destruct (name_atom atom idx n2i) as [n2i1|e] eqn:Hname; [|done].
  rewrite bind_run. unfold lift at 1.
  destruct (block_atom resid resname offset_charge_group atom) as [new_atom|e] eqn:Hatom;
    [|done].
  rewrite bind_run. unfold modify at 1.
  assert (has_node (graph s) idx = false) as Hidx.
  { apply bool_decide_eq_false. intros Hin.
    rewrite Forall_forall in Hfresh. specialize (Hfresh idx Hin). lia. }
  set (s1 := with_graph (add_node idx new_atom) s).
  assert (graph s1 = mkGraph (nodes (graph s) ++ [(idx, new_atom)]) (edges (graph s)))
    as Hgraph1.
  { unfold s1, add_node. simpl. by rewrite Hidx. }
  intros Hrun. apply IH in Hrun as (added & -> & Hkeys & Hattrs & Hvalues).
  2:{ rewrite Hgraph1. cbn [nodes]. rewrite fmap_app. apply Forall_app. split.
      - eapply Forall_impl; [done|]. simpl. lia.
      - apply Forall_singleton. simpl. lia. }
  exists ((idx, new_atom) :: added). split; [|split; [|split]].
  - unfold with_graph. rewrite Hgraph1. cbn [graph nodes edges interactions nrexcl
      force_field mol_meta s1 with_graph]. by rewrite <- (assoc_L (++)).
  - cbn [length]. rewrite seqZ_succ, fmap_cons. by rewrite Hkeys.
  - rewrite fmap_cons. by constructor.
  - intros k v Hkv. cbn [length]. rewrite seqZ_succ.
    destruct (Hvalues k v Hkv) as [H1|H1].
    + destruct (name_atom_values _ _ _ _ Hname k v H1) as [?| ->]; [by left|].
      right. by left.
    + right. by right.
Qed.

Lemma to_molecule_edges_nodes (name_to_idx : gmap string Z)
    (es : list (string * string)) (s : Molecule) :
  (∀ k v, name_to_idx !! k = Some v → has_node (graph s) v = true) →
  nodes (graph (for_each es (λ edge,
    u ← lift (getitem name_to_idx edge.1);
    v ← lift (getitem name_to_idx edge.2);
    modify (with_graph (add_edge u v))) s).2) = nodes (graph s).
Proof.
  revert s. induction es as [|[a b] es IH]; intros s Hvalues; [done|].
  cbn [for_each]. rewrite !bind_run. unfold lift at 1, getitem at 1. cbn [fst].
  destruct (name_to_idx !! a) as [u|] eqn:Hu; [|done].
  rewrite bind_run. unfold lift at 1, getitem at 1. cbn [snd].
  destruct (name_to_idx !! b) as [v|] eqn:Hv; [|done].
  unfold modify at 1.
  assert (nodes (graph (with_graph (add_edge u v) s)) = nodes (graph s)) as Hsame.
  { cbn [graph with_graph]. apply nodes_add_edge; by eapply Hvalues. }
  rewrite IH; [done|]. intros k w Hk. unfold has_node. rewrite Hsame.
  by eapply Hvalues.
Qed.

Lemma add_interaction_graph (g : Graph Z) type_ atoms_ parameters_ meta_ :
  preserves (λ m, graph m = g) (add_interaction type_ atoms_ parameters_ meta_).
Proof. unfold add_interaction. repeat preserves_step; done. Qed.

(** X12. The molecule that [to_molecule] returns has one atom for each node
    of the block that carries attributes, numbered from [atom_offset] on in
    the order of the block; each atom has the residue id and the residue
    name of the call, an integer charge group, and the other attributes of
    its node. *)
Theorem to_molecule_atoms block_nrexcl atom_offset resid offset_charge_group
    (self : Block) (mol : Molecule) :
  to_molecule block_nrexcl atom_offset resid offset_charge_group self = Ok mol →
  (nodes (graph mol)).*1 = seqZ atom_offset (Z.of_nat (length (block_atoms self)))
  ∧ Forall2 (λ atom new_atom,
               new_atom !! "resid" = Some (VInt resid)
               ∧ new_atom !! "resname" = Some (from_option VStr VNone (block_name self))
               ∧ (∃ c, new_atom !! "charge_group" = Some (VInt c))
               ∧ (∀ k, k ≠ "resid" → k ≠ "resname" → k ≠ "charge_group" →
                       new_atom !! k = atom !! k))
            (block_atoms self) (nodes (graph mol)).*2.
Proof.
  unfold to_molecule, to_molecule_steps.
  rewrite bind_run.
  destruct (block_nodes _ _ _ _ _ _ _) as [[name_to_idx|e] s1] eqn:Hnodes; [|done].
  apply block_nodes_run in Hnodes as (added & -> & Hkeys & Hattrs & Hvalues);
    [|constructor].
  set (s1 := with_graph _ _).
  assert (nodes (graph s1) = added) as Hnodes1 by done.
  rewrite bind_run.
  match goal with |- context [for_each (block_interactions self) ?body s1] =>
    pose proof (preserves_for_each (λ m, graph m = graph s1)
                  (block_interactions self) body) as Hkeep;
    destruct (for_each (block_interactions self) body s1) as [[[]|e] s2] eqn:Hloop;
      [|done]
  end.
  assert (graph s2 = graph s1) as Hgraph2.
  { change s2 with (Ok (), s2).2. rewrite <- Hloop. apply Hkeep; [|done].
    intros [name l]. apply preserves_for_each. intros i.
    repeat preserves_step; try done. apply add_interaction_graph. }
  rewrite bind_run.
  match goal with |- context [for_each (edges (block_graph self)) ?body s2] =>
    pose proof (to_molecule_edges_nodes name_to_idx (edges (block_graph self)) s2)
      as Hedges;
    destruct (for_each (edges (block_graph self)) body s2) as [[[]|e] s3] eqn:Hloop3;
      [|done]
  end.
  cbn [snd] in Hedges. rewrite Hgraph2, Hnodes1 in Hedges.
  assert (nodes (graph s3) = added) as Hnodes3.
  { apply Hedges. intros k v Hkv. apply bool_decide_eq_true.
    rewrite ?Hgraph2, Hnodes1, Hkeys.
    destruct (Hvalues k v Hkv) as [H|H]; [by rewrite lookup_empty in H|done]. }
  assert (∀ mol, nodes (graph mol) = added →
    (nodes (graph mol)).*1 = seqZ atom_offset (Z.of_nat (length (block_atoms self)))
    ∧ Forall2 (λ atom new_atom,
                 new_atom !! "resid" = Some (VInt resid)
                 ∧ new_atom !! "resname" = Some (from_option VStr VNone (block_name self))
                 ∧ (∃ c, new_atom !! "charge_group" = Some (VInt c))
                 ∧ (∀ k, k ≠ "resid" → k ≠ "resname" → k ≠ "charge_group" →
                         new_atom !! k = atom !! k))
              (block_atoms self) (nodes (graph mol)).*2) as Hgoal.
  { intros m ->. split; [done|]. eapply Forall2_impl; [done|].
    intros atom new_atom. apply block_atom_attrs. }
  destruct block_nrexcl as [n|]; intros [= <-]; by apply Hgoal.
Qed.

Lemma to_molecule_atoms_witness :
  match to_molecule (Some (Some 3)) 5 7 1 named_block with
  | Ok mol => (nodes (graph mol)).*1 = seqZ 5 2
  | Raise _ => False
  end.
Proof.
  destruct (to_molecule (Some (Some 3)) 5 7 1 named_block) as [mol|e] eqn:Hmol;
    [|by vm_compute in Hmol].
  by apply (to_molecule_atoms (Some (Some 3)) 5 7 1 named_block mol).
Defined.

(** One step of a computation that returns, with a property that the step
    keeps. *)
Ltac bind_keep I tac :=
  rewrite bind_run;
  match goal with
  | |- context [match ?m ?s with (_, _) => _ end] =>
      let H := fresh "Hkeep" in
      assert (preserves I m) as H by tac;
      specialize (H s);
      destruct (m s) as [[?|?] ?] eqn:?; [cbn [snd] in H|done]
  end.

Lemma block_nodes_keeps (I : Molecule → Prop) resid resname ocg idx atoms_ name_to_idx :
  (∀ n a m, I m → I (with_graph (add_node n a) m)) →
  preserves I (block_nodes resid resname ocg idx atoms_ name_to_idx).
Proof.
  intros Hadd. revert idx name_to_idx. induction atoms_ as [|atom atoms_ IH];
    intros idx name_to_idx; simpl; [apply preserves_ret|].
  repeat preserves_step; try done. by apply Hadd.
Qed.

Lemma to_molecule_steps_keeps (I : Molecule → Prop) block_nrexcl atom_offset resid ocg
    (self : Block) :
  (∀ n a m, I m → I (with_graph (add_node n a) m)) →
  (∀ u v m, I m → I (with_graph (add_edge u v) m)) →
  (∀ type_ atoms_ parameters_,
     preserves I (add_interaction type_ atoms_ parameters_ None)) →
  (∀ n m, I m → I (with_nrexcl n m)) →
  preserves I (to_molecule_steps block_nrexcl atom_offset resid ocg self).
Proof.
  intros Hnode Hedge Hint Hnrexcl. unfold to_molecule_steps.
  repeat preserves_step; try done.
  - by apply block_nodes_keeps.
  - by apply Hedge.
  - by apply Hnrexcl.
Qed.

Lemma add_interaction_no_meta type_ atoms_ parameters_ :
  preserves (λ m, ∀ t i, i ∈ get_list (interactions m) t → meta i = ∅)
            (add_interaction type_ atoms_ parameters_ None).
Proof.
  intros m Hm. rewrite add_interaction_run.
  destruct (forallb (has_node (graph m)) atoms_); [|done].
  cbn [snd interactions with_interactions]. intros t i. rewrite get_list_append.
  destruct (decide (t = type_)) as [->|]; [|by apply Hm].
  intros [Hi| ->%list_elem_of_singleton]%elem_of_app; [by eapply Hm|done].
Qed.

Lemma add_interaction_nrexcl (n : option Z) type_ atoms_ parameters_ meta_ :
  preserves (λ m, nrexcl m = n) (add_interaction type_ atoms_ parameters_ meta_).
Proof. unfold add_interaction. repeat preserves_step; done. Qed.

Lemma to_molecule_invariants block_nrexcl atom_offset resid offset_charge_group
    (self : Block) (mol : Molecule) :
  to_molecule block_nrexcl atom_offset resid offset_charge_group self = Ok mol →
  molecule_wf mol = true
  ∧ force_field mol = None
  ∧ nrexcl mol = default None block_nrexcl
  ∧ (∀ t i, i ∈ get_list (interactions mol) t → meta i = ∅).
Proof.
  unfold to_molecule.
  pose proof (to_molecule_steps_keeps (λ m, molecule_wf m = true) block_nrexcl
                atom_offset resid offset_charge_group self) as Hwf.
  pose proof (to_molecule_steps_keeps (λ m, force_field m = None) block_nrexcl
                atom_offset resid offset_charge_group self) as Hff.
  pose proof (to_molecule_steps_keeps
                (λ m, ∀ t i, i ∈ get_list (interactions m) t → meta i = ∅)
                block_nrexcl atom_offset resid offset_charge_group self) as Hmeta.
  assert (∀ r s, to_molecule_steps block_nrexcl atom_offset resid offset_charge_group
                   self (new_molecule None ∅) = (Ok r, s) →
                 nrexcl s = default None block_nrexcl) as Hnrexcl.
  { unfold to_molecule_steps. intros r s.
    bind_keep (λ m : Molecule, nrexcl m = None)
      ltac:(by apply block_nodes_keeps).
    bind_keep (λ m : Molecule, nrexcl m = None)
      ltac:(repeat preserves_step; try done; apply add_interaction_nrexcl).
    bind_keep (λ m : Molecule, nrexcl m = None)
      ltac:(repeat preserves_step; done).
    destruct block_nrexcl as [n|]; intros [= _ <-]; [done|]. simpl. auto. }
  destruct (to_molecule_steps _ _ _ _ _ _) as [[[]|e] s] eqn:Hrun; [|done].
  intros [= <-]. split; [|split; [|split]].
  - change s with (Ok (), s).2. rewrite <- Hrun. apply Hwf; try done.
    + intros. by apply molecule_wf_add_node.
    + intros. by apply molecule_wf_add_edge.
    + intros. apply add_interaction_wf.
  - change s with (Ok (), s).2. rewrite <- Hrun. apply Hff; try done.
    intros. apply add_interaction_force_field.
  - by eapply Hnrexcl.
  - change s with (Ok (), s).2. rewrite <- Hrun. apply Hmeta; try done.
    + intros. apply add_interaction_no_meta.
    + intros t i []%elem_of_nil.
Qed.

Lemma name_atom_names (atom : attrs) (idx : Z) (name_to_idx name_to_idx' : gmap string Z) :
  name_atom atom idx name_to_idx = Ok name_to_idx' →
  ∀ k v, name_to_idx' !! k = Some v →
         name_to_idx !! k = Some v ∨ (v = idx ∧ atom !! "atomname" = Some (VStr k)).
Proof.
  unfold name_atom, getitem.
  destruct (atom !! "atomname") as [atomname|] eqn:Hname; [|done]. simpl.
  destruct atomname; simpl; try (by intros [= <-]; left).
  intros [= <-] k v. destruct (decide (s = k)) as [->|Hne].
  - rewrite lookup_insert_eq. intros [= <-]. by right.
  - rewrite lookup_insert_ne by done. by left.
Qed.

Lemma block_nodes_names resid resname offset_charge_group (atoms_ : list attrs)
    (idx : Z) (name_to_idx name_to_idx' : gmap string Z) (s s' : Molecule) :
  Forall (λ k, k < idx) (nodes (graph s)).*1 →
  block_nodes resid resname offset_charge_group idx atoms_ name_to_idx s
  = (Ok name_to_idx', s') →
  ∀ k v, name_to_idx' !! k = Some v →
         name_to_idx !! k = Some v
         ∨ ∃ new_atom, (v, new_atom) ∈ nodes (graph s')
                       ∧ new_atom !! "atomname" = Some (VStr k).
Proof.
  revert idx name_to_idx s.
  induction atoms_ as [|atom atoms_ IH]; intros idx n2i s Hfresh.
  { simpl. intros [= <- <-] k v ?. by left. }
  cbn [block_nodes]. rewrite bind_run. unfold lift at 1.
  destruct (name_atom atom idx n2i) as [n2i1|e] eqn:Hname; [|done].
  rewrite bind_run. unfold lift at 1.
  destruct (block_atom resid resname offset_charge_group atom) as [new_atom|e] eqn:Hatom;
    [|done].
  rewrite bind_run. unfold modify at 1.
  assert (has_node (graph s) idx = false) as Hidx.
  { apply bool_decide_eq_false. intros Hin.
    rewrite Forall_forall in Hfresh. specialize (Hfresh idx Hin). lia. }
  set (s1 := with_graph (add_node idx new_atom) s).
  assert (graph s1 = mkGraph (nodes (graph s) ++ [(idx, new_atom)]) (edges (graph s)))
    as Hgraph1.
  { unfold s1, add_node. simpl. by rewrite Hidx. }
  assert (Forall (λ k, k < idx + 1) (nodes (graph s1)).*1) as Hfresh1.
  { rewrite Hgraph1. cbn [nodes]. rewrite fmap_app. apply Forall_app. split.
    - eapply Forall_impl; [done|]. simpl. lia.
    - apply Forall_singleton. simpl. lia. }
  intros Hrun k v Hkv.
  destruct (block_nodes_run _ _ _ _ _ _ _ _ _ Hfresh1 Hrun) as (added & Hs' & _).
  destruct (IH _ _ _ Hfresh1 Hrun k v Hkv) as [H1|H1]; [|by right].
  destruct (name_atom_names _ _ _ _ Hname k v H1) as [?|[-> Hk]]; [by left|].
  right. exists new_atom. split.
  - rewrite Hs'. cbn [graph with_graph nodes]. apply elem_of_app. left.
    rewrite Hgraph1. cbn [nodes]. apply elem_of_app. right. by left.
  - destruct (block_atom_attrs _ _ _ _ _ Hatom) as (_ & _ & _ & Hother).
    by rewrite Hother.
Qed.

Lemma map_result_getitem (name_to_idx : gmap string Z) (names : list string)
    (idxs : list Z) :
  map_result (getitem name_to_idx) names = Ok idxs →
  Forall2 (λ name idx, name_to_idx !! name = Some idx) names idxs.
Proof.
  revert idxs. induction names as [|n names IH]; intros idxs; cbn [map_result].
  - intros [= <-]. constructor.
  - destruct (getitem name_to_idx n) as [i|e] eqn:Hn; [|done]. cbn.
    destruct (map_result _ names) as [rest|e]; [|done]. cbn.
    intros [= <-]. constructor; [|by apply IH].
    unfold getitem in Hn. destruct (name_to_idx !! n); by simplify_eq.
Qed.

Lemma block_interactions_of_type_run (name_to_idx : gmap string Z) (name : string)
    (l : list (Interaction string)) (s s' : Molecule) u :
  for_each l (λ interaction,
    atoms_ ← lift (map_result (getitem name_to_idx) (atoms interaction));
    add_interaction name atoms_ (parameters interaction) None) s = (Ok u, s') →
  graph s' = graph s
  ∧ ∃ new,
      Forall2 (renamed name_to_idx) l new
      ∧ ∀ t, get_list (interactions s') t
             = get_list (interactions s) t ++ (if decide (t = name) then new else []).
Proof.
  revert s. induction l as [|i l IH]; intros s.
  { simpl. intros [= <- <-]. split; [done|]. exists []. split; [constructor|].
    intros t. destruct (decide _); by rewrite app_nil_r. }
  cbn [for_each]. rewrite !bind_run. unfold lift at 1.
  destruct (map_result (getitem name_to_idx) (atoms i)) as [atoms_|e] eqn:Hatoms;
    [|done].
  rewrite add_interaction_run. destruct (forallb _ atoms_); [|done].
  intros (Hg & new & Hnew & Hlists)%IH. split; [done|].
  exists (mkInteraction atoms_ (parameters i) ∅ :: new). split.
  - constructor; [|done]. split; [by apply map_result_getitem|done].
  - intros t. rewrite Hlists. cbn [interactions with_interactions default].
    rewrite get_list_append. destruct (decide (t = name)); [|done].
    by rewrite <- (assoc_L (++)).
Qed.

Lemma block_interactions_run (name_to_idx : gmap string Z) (d : itable string)
    (s s' : Molecule) u :
  NoDup d.*1 →
  for_each d (λ '(name, interactions_),
    for_each interactions_ (λ interaction,
      atoms_ ← lift (map_result (getitem name_to_idx) (atoms interaction));
      add_interaction name atoms_ (parameters interaction) None)) s = (Ok u, s') →
  graph s' = graph s
  ∧ ∀ t, ∃ new,
      Forall2 (renamed name_to_idx) (get_list d t) new
      ∧ get_list (interactions s') t = get_list (interactions s) t ++ new.
Proof.
  revert s. induction d as [|[name l] d IH]; intros s Hnd.
  { simpl. intros [= <- <-]. split; [done|]. intros t. exists [].
    split; [constructor|by rewrite app_nil_r]. }
  rewrite fmap_cons in Hnd. apply NoDup_cons in Hnd as [Hname Hnd].
  cbn [for_each]. rewrite bind_run.
  destruct (for_each l _ s) as [[[]|e] s1] eqn:Hl; [|done].
  apply block_interactions_of_type_run in Hl as (Hg1 & new1 & Hnew1 & Hlists1).
  intros (Hg & Hlists)%IH; [|done]. split; [congruence|].
  intros t. destruct (Hlists t) as (new & Hnew & Ht). rewrite Ht, Hlists1.
  unfold get_list at 1. rewrite lookup_key_cons.
  destruct (decide (name = t)) as [->|Hne].
  - rewrite decide_True by done. cbn [default].
    unfold get_list in Hnew. rewrite (lookup_key_None t d Hname) in Hnew.
    apply Forall2_nil_inv_l in Hnew as ->.
    exists new1. split; [done|]. by rewrite app_nil_r.
  - rewrite decide_False by done. exists new. by rewrite app_nil_r.
Qed.

Lemma block_edges_run (name_to_idx : gmap string Z) (es : list (string * string))
    (s s' : Molecule) u :
  (∀ k v, name_to_idx !! k = Some v → has_node (graph s) v = true) →
  for_each es (λ edge,
    u ← lift (getitem name_to_idx edge.1);
    v ← lift (getitem name_to_idx edge.2);
    modify (with_graph (add_edge u v))) s = (Ok u, s') →
  nodes (graph s') = nodes (graph s)
  ∧ interactions s' = interactions s
  ∧ ∀ i j, joined (edges (graph s')) i j
           ↔ joined (edges (graph s)) i j
             ∨ ∃ a b, joined es a b
                      ∧ name_to_idx !! a = Some i ∧ name_to_idx !! b = Some j.
Proof.
  revert s. induction es as [|[a0 b0] es IH]; intros s Hvalues.
  { simpl. intros [= <- <-]. split; [done|]. split; [done|]. intros i j. split; [by left|].
    intros [?|(a & b & [[]%elem_of_nil|[]%elem_of_nil] & _)]. done. }
  cbn [for_each]. rewrite !bind_run. unfold lift at 1, getitem at 1. cbn [fst].
  destruct (name_to_idx !! a0) as [u0|] eqn:Hu; [|done].
  rewrite bind_run. unfold lift at 1, getitem at 1. cbn [snd].
  destruct (name_to_idx !! b0) as [v0|] eqn:Hv; [|done].
  unfold modify at 1.
  assert (nodes (graph (with_graph (add_edge u0 v0) s)) = nodes (graph s)) as Hsame.
  { cbn [graph with_graph]. apply nodes_add_edge; by eapply Hvalues. }
  intros (Hnodes & Hint & Hedges)%IH.
  2:{ intros k w Hk. unfold has_node. rewrite Hsame. by eapply Hvalues. }
  split; [by rewrite Hnodes|]. split; [done|].
  intros i j. rewrite Hedges. cbn [graph with_graph]. rewrite joined_add_edge.
  unfold joined. rewrite !list_elem_of_singleton. split.
  - intros [[H|[[= -> ->]|[= -> ->]]]|(a & b & Hab & Ha & Hb)].
    + by left.
    + right. exists a0, b0. split; [left; by left|done].
    + right. exists b0, a0. split; [right; by left|done].
    + right. exists a, b. split; [|done]. destruct Hab; [left|right]; by right.
  - intros [H|(a & b & [Hab|Hab] & Ha & Hb)]; [by left; left| |].
    + apply elem_of_cons in Hab as [[= -> ->]|Hab].
      * left. right. left. congruence.
      * right. exists a, b. split; [by left|done].
    + apply elem_of_cons in Hab as [[= -> ->]|Hab].
      * left. right. right. congruence.
      * right. exists a, b. split; [by right|done].
Qed.

(** X13. The molecule that [to_molecule] returns is well formed, has no
    force field and has the [nrexcl] of the block when the block has one and
    none otherwise. It has the interactions of the block, type by type and
    in their order, between the atoms that stand for the names, with their
    parameters and without their metadata; an atom stands for a name when it
    carries it as its ['atomname']. It has an edge exactly between the atoms
    that stand for the ends of an edge of the block. *)
Theorem to_molecule_well_formed block_nrexcl atom_offset resid offset_charge_group
    (self : Block) (mol : Molecule) :
  NoDup (block_interactions self).*1 →
  to_molecule block_nrexcl atom_offset resid offset_charge_group self = Ok mol →
  molecule_wf mol = true
  ∧ force_field mol = None
  ∧ nrexcl mol = default None block_nrexcl
  ∧ ∃ name_to_idx : gmap string Z,
      (∀ name idx, name_to_idx !! name = Some idx →
         ∃ atom, (idx, atom) ∈ nodes (graph mol)
                 ∧ atom !! "atomname" = Some (VStr name))
      ∧ (∀ t, Forall2 (renamed name_to_idx)
                      (get_list (block_interactions self) t)
                      (get_list (interactions mol) t))
      ∧ (∀ i j, has_edge (graph mol) i j = true
                ↔ ∃ a b, joined (edges (block_graph self)) a b
                         ∧ name_to_idx !! a = Some i ∧ name_to_idx !! b = Some j).
Proof.
  intros Hnd Hmol.
  destruct (to_molecule_invariants _ _ _ _ _ _ Hmol) as (Hwf & Hff & Hnrexcl & _).
  split; [done|]. split; [done|]. split; [done|].
  revert Hmol. unfold to_molecule, to_molecule_steps. rewrite bind_run.
  destruct (block_nodes _ _ _ _ _ _ _) as [[name_to_idx|e] s1] eqn:Hnodes; [|done].
  assert (Forall (λ k, k < atom_offset) (nodes (graph (new_molecule None ∅))).*1)
    as Hfresh by constructor.
  pose proof (block_nodes_names _ _ _ _ _ _ _ _ _ Hfresh Hnodes) as Hnames.
  rewrite bind_run.
  destruct (for_each (block_interactions self) _ s1) as [[[]|e] s2] eqn:Hloop2; [|done].
  apply block_interactions_run in Hloop2 as (Hgraph2 & Hlists2); [|done].
  rewrite bind_run.
  destruct (for_each (edges (block_graph self)) _ s2) as [[[]|e] s3] eqn:Hloop3; [|done].
  assert (∀ k v, name_to_idx !! k = Some v →
            ∃ new_atom, (v, new_atom) ∈ nodes (graph s1)
                        ∧ new_atom !! "atomname" = Some (VStr k)) as Hnames1.
  { intros k v Hkv. destruct (Hnames k v Hkv) as [H|H]; [|done].
    by rewrite lookup_empty in H. }
  apply block_edges_run in Hloop3 as (Hnodes3 & Hint3 & Hedges3).
  2:{ intros k v Hkv. destruct (Hnames1 k v Hkv) as (new_atom & Hin & _).
      apply bool_decide_eq_true. rewrite Hgraph2.
      apply list_elem_of_fmap. by exists (v, new_atom). }
  assert (edges (graph s1) = []) as Hedges1.
  { apply block_nodes_run in Hnodes as (added & -> & _); [done|constructor]. }
  assert (interactions s1 = []) as Hint1.
  { apply block_nodes_run in Hnodes as (added & -> & _); [done|constructor]. }
  assert (∀ m : Molecule,
            nodes (graph m) = nodes (graph s3) → edges (graph m) = edges (graph s3) →
            interactions m = interactions s3 →
            ∃ name_to_idx : gmap string Z,
              (∀ name idx, name_to_idx !! name = Some idx →
                 ∃ atom, (idx, atom) ∈ nodes (graph m)
                         ∧ atom !! "atomname" = Some (VStr name))
              ∧ (∀ t, Forall2 (renamed name_to_idx)
                              (get_list (block_interactions self) t)
                              (get_list (interactions m) t))
              ∧ (∀ i j, has_edge (graph m) i j = true
                        ↔ ∃ a b, joined (edges (block_graph self)) a b
                                 ∧ name_to_idx !! a = Some i
                                 ∧ name_to_idx !! b = Some j)) as Hgoal.
  { intros m Hn He Hi. exists name_to_idx. split; [|split].
    - intros name idx Hname. rewrite Hn, Hnodes3, Hgraph2. by apply Hnames1.
    - intros t. destruct (Hlists2 t) as (new & Hnew & Ht).
      rewrite Hi, Hint3, Ht, Hint1. by cbn.
    - intros i j. rewrite has_edge_joined, He, Hedges3, Hgraph2, Hedges1.
      split; [|by right]. intros [[[]%elem_of_nil|[]%elem_of_nil]|H]. done. }
  destruct block_nrexcl as [n|]; intros [= <-]; by apply Hgoal.
Qed.

Lemma to_molecule_well_formed_witness :
  match to_molecule (Some (Some 3)) 5 7 1 named_block with
  | Ok mol =>
      nrexcl mol = Some 3
      ∧ ∃ name_to_idx : gmap string Z,
          ∀ t, Forall2 (renamed name_to_idx)
                       (get_list (block_interactions named_block) t)
                       (get_list (interactions mol) t)
  | Raise _ => False
  end.
Proof.
  destruct (to_molecule (Some (Some 3)) 5 7 1 named_block) as [mol|e] eqn:Hmol;
    [|by vm_compute in Hmol].
  destruct (to_molecule_well_formed (Some (Some 3)) 5 7 1 named_block mol)
    as (_ & _ & Hnrexcl & name_to_idx & _ & Hlists & _).
  - apply (bool_decide_unpack _). vm_compute. exact I.
  - exact Hmol.
  - split; [done|]. by exists name_to_idx.
Defined.

(** * More properties of the resolution mapping *)

(** ** What the output keeps while the matches are merged *)

Section kept_by_edits.
Variable I : Molecule → Prop.
Hypothesis HI : kept_by_edits I.

Lemma merge_nodes_keeps ro ocg idx ns correspondence :
  preserves I (merge_nodes ro ocg idx ns correspondence).
Proof.
  destruct HI as (Hnode & _). revert idx correspondence.
  induction ns as [|[node atom] ns IH]; intros idx correspondence; simpl;
    [apply preserves_ret|].
  repeat preserves_step; try done. by apply Hnode.
Qed.

Lemma merge_molecule_keeps molecule : preserves I (merge_molecule molecule).
Proof.
  pose proof merge_nodes_keeps as Hnodes. destruct HI as (Hnode & Hedge & Hint & _).
  unfold merge_molecule.
  repeat preserves_step; try done;
    first [apply Hnodes | apply Hint | by apply Hedge].
Qed.

Lemma record_weight_keeps mol_idx out_idx weight :
  preserves (λ s, I (graph_out s)) (record_weight mol_idx out_idx weight).
Proof. unfold record_weight. repeat preserves_step; done. Qed.

Lemma apply_block_mapping_keeps match_ :
  preserves (λ s, I (graph_out s)) (apply_block_mapping match_).
Proof.
  pose proof merge_molecule_keeps as Hmerge. destruct HI as (_ & _ & _ & Hnrexcl).
  unfold apply_block_mapping.
  repeat preserves_step; try done; try apply record_weight_keeps;
    first [ by apply Hmerge
          | apply (preserves_on_graph_out I); apply Hmerge
          | cbn [graph_out with_graph_out]; by apply Hnrexcl ].
Qed.

Lemma apply_mod_mapping_keeps match_ :
  preserves (λ s, I (graph_out s)) (apply_mod_mapping match_).
Proof.
  destruct HI as (Hnode & _). unfold apply_mod_mapping.
  repeat preserves_step; try done; try apply record_weight_keeps.
  cbn [graph_out with_graph_out]. by apply Hnode.
Qed.

Lemma mapping_loop_keeps fuel block_matches mod_matches v :
  preserves (λ s, I (graph_out s)) (mapping_loop fuel block_matches mod_matches v).
Proof.
  revert block_matches mod_matches v.
  induction fuel as [|fuel IH]; intros block_matches mod_matches v; simpl;
    [apply preserves_ret|].
  unfold mod_branch, block_branch. repeat preserves_step; try done.
  - apply apply_mod_mapping_keeps.
  - apply apply_block_mapping_keeps.
Qed.

Lemma set_node_attrs_keeps n new :
  preserves (λ s, I (graph_out s)) (set_node_attrs n new).
Proof.
  destruct HI as (Hnode & _). unfold set_node_attrs.
  repeat preserves_step; try done. cbn [graph_out with_graph_out]. by apply Hnode.
Qed.

Lemma reconcile_node_keeps molecule attribute_keep all_references_ out_idx weights
    to_remove :
  preserves (λ s, I (graph_out s))
            (reconcile_node molecule attribute_keep all_references_ out_idx
                            weights to_remove).
Proof.
  unfold reconcile_node. repeat preserves_step; try done;
    apply set_node_attrs_keeps.
Qed.

Lemma connect_matches_keeps edges_between molecule none_to_one match1 match2 :
  preserves (λ s, I (graph_out s))
            (connect_matches edges_between molecule none_to_one match1 match2).
Proof.
  destruct HI as (_ & Hedge & _). unfold connect_matches, out_idxs_of.
  repeat preserves_step; try done. cbn [graph_out with_graph_out]. by apply Hedge.
Qed.

Lemma do_mapping_steps_keeps edges_between molecule block_matches mod_matches
    attribute_keep :
  preserves (λ s, I (graph_out s))
            (do_mapping_steps edges_between molecule block_matches mod_matches
                              attribute_keep).
Proof.
  unfold do_mapping_steps. repeat preserves_step; try done.
  - apply mapping_loop_keeps.
  - apply reconcile_node_keeps.
  - apply connect_matches_keeps.
Qed.
End kept_by_edits.

Lemma molecule_wf_kept : kept_by_edits (λ m, molecule_wf m = true).
Proof.
  split; [|split; [|split]].
  - intros. by apply molecule_wf_add_node.
  - intros. by apply molecule_wf_add_edge.
  - intros. apply add_interaction_wf.
  - done.
Qed.

Lemma meta_kept (meta_ : attrs) : kept_by_edits (λ m, mol_meta m = meta_).
Proof.
  split; [|split; [|split]]; try done.
  intros. unfold add_interaction. repeat preserves_step; done.
Qed.

Lemma remove_nodes_from_nil {N} `{EqDecision N} (g : Graph N) :
  remove_nodes_from [] g = g.
Proof.
  destruct g as [ns es]. unfold remove_nodes_from. cbn [nodes edges]. f_equal.
  - induction ns as [|p ns IH]; [done|].
    rewrite filter_cons_True by apply not_elem_of_nil. by rewrite IH.
  - induction es as [|e es IH]; [done|].
    rewrite filter_cons_True by (split; apply not_elem_of_nil). by rewrite IH.
Qed.

Lemma with_graph_id (f : Graph Z → Graph Z) (m : Molecule) :
  f (graph m) = graph m → with_graph f m = m.
Proof. destruct m. unfold with_graph. simpl. by intros ->. Qed.

Lemma do_mapping_result edges_between molecule block_matches mod_matches
    to_ff attribute_keep out :
  do_mapping edges_between molecule block_matches mod_matches to_ff attribute_keep
  = Ok out →
  molecule_wf out = true ∧ force_field out = to_ff ∧ mol_meta out = mol_meta molecule.
Proof.
  intros Hout. split; [|split; [by eapply do_mapping_force_field|]];
    revert Hout; unfold do_mapping;
    (destruct (sorted_desc block_matches) as [bs|]; [|done]); simpl;
    (destruct (sorted_desc mod_matches) as [ms|]; [|done]); simpl.
  - pose proof (do_mapping_steps_keeps _ molecule_wf_kept edges_between molecule bs ms
                  ("chain" :: attribute_keep)
                  (mkMapState (new_molecule to_ff (mol_meta molecule)) [] [])
                  eq_refl) as Hwf.
    destruct (do_mapping_steps _ _ _ _ _ _) as [[to_remove|e] s] eqn:Hsteps; [|done].
    apply do_mapping_steps_queue_nothing in Hsteps as ->.
    intros [= <-]. rewrite with_graph_id; [done|apply remove_nodes_from_nil].
  - pose proof (do_mapping_steps_keeps _ (meta_kept (mol_meta molecule)) edges_between
                  molecule bs ms ("chain" :: attribute_keep)
                  (mkMapState (new_molecule to_ff (mol_meta molecule)) [] [])
                  eq_refl) as Hmeta.
    destruct (do_mapping_steps _ _ _ _ _ _) as [[to_remove|e] s]; [|done].
    by intros [= <-].
Qed.

(** ** The two tables of weights *)

Lemma lookup_key_set_key {K V} `{EqDecision K} (k k' : K) (v : V) (d : list (K * V)) :
  lookup_key k' (set_key k v d) = if decide (k = k') then Some v else lookup_key k' d.
Proof.
  induction d as [|[k0 v0] d IH]; cbn [set_key].
  - rewrite lookup_key_cons. by destruct (decide (k = k')).
  - destruct (decide (k0 = k)) as [->|Hne]; rewrite !lookup_key_cons;
      [by destruct (decide (k = k'))|].
    rewrite IH. destruct (decide (k0 = k')) as [->|]; [|done].
    by rewrite decide_False by done.
Qed.

Lemma entry_table_set (i j w : Z) (t : table) (i' j' : Z) :
  entry (table_set i j w t) i' j'
  = if decide (i = i' ∧ j = j') then Some w else entry t i' j'.
Proof.
  unfold entry, table_set. rewrite lookup_key_set_key.
  destruct (decide (i = i')) as [<-|Hi]; simpl.
  - rewrite lookup_key_set_key. destruct (decide (j = j')) as [<-|Hj].
    + by rewrite decide_True.
    + rewrite decide_False by (by intros [_ ?]).
      by destruct (lookup_key i t).
  - by rewrite decide_False by (by intros [? _]).
Qed.

Lemma record_weight_transposed mol_idx out_idx weight :
  preserves (λ s, transposed (mol_to_out s) (out_to_mol s))
            (record_weight mol_idx out_idx weight).
Proof.
  intros s Hs i j.
  change (entry (table_set mol_idx out_idx weight (mol_to_out s)) i j
          = entry (table_set out_idx mol_idx weight (out_to_mol s)) j i).
  rewrite !entry_table_set, Hs.
  destruct (decide (mol_idx = i ∧ out_idx = j)) as [[-> ->]|Hne].
  - by rewrite decide_True.
  - by rewrite decide_False by (intros [-> ->]; by apply Hne).
Qed.

Lemma on_graph_out_tables {A} (I : table → table → Prop) (m : M Molecule A) :
  preserves (λ s, I (mol_to_out s) (out_to_mol s)) (on_graph_out m).
Proof. intros s Hs. unfold on_graph_out. by destruct (m (graph_out s)) as [r g]. Qed.

Lemma apply_block_mapping_transposed match_ :
  preserves (λ s, transposed (mol_to_out s) (out_to_mol s)) (apply_block_mapping match_).
Proof.
  unfold apply_block_mapping.
  repeat preserves_step; try done;
    first [ apply record_weight_transposed
          | apply (on_graph_out_tables transposed) ].
Qed.

Lemma apply_mod_mapping_transposed match_ :
  preserves (λ s, transposed (mol_to_out s) (out_to_mol s)) (apply_mod_mapping match_).
Proof.
  unfold apply_mod_mapping.
  repeat preserves_step; try done; apply record_weight_transposed.
Qed.

Lemma mapping_loop_transposed fuel block_matches mod_matches v :
  preserves (λ s, transposed (mol_to_out s) (out_to_mol s))
            (mapping_loop fuel block_matches mod_matches v).
Proof.
  revert block_matches mod_matches v.
  induction fuel as [|fuel IH]; intros block_matches mod_matches v; simpl;
    [apply preserves_ret|].
  unfold mod_branch, block_branch.
  repeat preserves_step; try done;
    first [apply apply_mod_mapping_transposed | apply apply_block_mapping_transposed].
Qed.

Lemma reconcile_node_transposed molecule attribute_keep all_references_ out_idx
    weights to_remove :
  preserves (λ s, transposed (mol_to_out s) (out_to_mol s))
            (reconcile_node molecule attribute_keep all_references_ out_idx
                            weights to_remove).
Proof.
  unfold reconcile_node, set_node_attrs. repeat preserves_step; done.
Qed.

Lemma out_idxs_of_transposed none_to_one mol_idx :
  preserves (λ s, transposed (mol_to_out s) (out_to_mol s))
            (out_idxs_of none_to_one mol_idx).
Proof.
  intros s Hs i j.
  change (entry (if bool_decide (mol_idx ∈ (mol_to_out s).*1) then mol_to_out s
                 else mol_to_out s ++ [(mol_idx, [])]) i j
          = entry (out_to_mol s) j i).
  rewrite <- Hs. case_bool_decide as Hin; [done|].
  unfold entry. rewrite lookup_key_app.
  destruct (lookup_key i (mol_to_out s)); [done|].
  rewrite lookup_key_cons. by destruct (decide (mol_idx = i)).
Qed.

Lemma connect_matches_transposed edges_between molecule none_to_one match1 match2 :
  preserves (λ s, transposed (mol_to_out s) (out_to_mol s))
            (connect_matches edges_between molecule none_to_one match1 match2).
Proof.
  unfold connect_matches.
  repeat preserves_step; try done; apply out_idxs_of_transposed.
Qed.

(** X15. The two tables of weights that [do_mapping] keeps say the same at
    every moment: [out_to_mol[o][m]] is there exactly when [mol_to_out[m][o]]
    is, with the same weight, whether the merge of the matches returns or
    raises. *)
Theorem do_mapping_tables_transposed edges_between molecule block_matches mod_matches
    attribute_keep s :
  transposed (mol_to_out s) (out_to_mol s) →
  transposed
    (mol_to_out (do_mapping_steps edges_between molecule block_matches mod_matches
                                  attribute_keep s).2)
    (out_to_mol (do_mapping_steps edges_between molecule block_matches mod_matches
                                  attribute_keep s).2).
Proof.
  revert s.
  change (preserves (λ s, transposed (mol_to_out s) (out_to_mol s))
            (do_mapping_steps edges_between molecule block_matches mod_matches
                              attribute_keep)).
  unfold do_mapping_steps.
  repeat preserves_step; try done;
    first [ apply mapping_loop_transposed
          | apply reconcile_node_transposed
          | apply connect_matches_transposed ].
Qed.

Lemma do_mapping_tables_transposed_witness :
  transposed
    (mol_to_out (do_mapping_steps edges_between_undefined source_atom []
                   [unnamed_mod_match] []
                   (mkMapState (new_molecule (Some 2%nat) ∅) [] [])).2)
    (out_to_mol (do_mapping_steps edges_between_undefined source_atom []
                   [unnamed_mod_match] []
                   (mkMapState (new_molecule (Some 2%nat) ∅) [] [])).2).
Proof.
  apply (do_mapping_tables_transposed edges_between_undefined source_atom []
           [unnamed_mod_match] [] (mkMapState (new_molecule (Some 2%nat) ∅) [] [])).
  intros i j. reflexivity.
Defined.

(** ** What [apply_block_mapping] and [apply_mod_mapping] can return *)

Lemma merge_molecule_result molecule self r merged :
  merge_molecule molecule self = (Ok r, merged) → r = RNone.
Proof.
  unfold merge_molecule. rewrite bind_run. unfold get at 1.
  case_bool_decide; [done|]. case_bool_decide; [done|].
  rewrite bind_run.
  destruct (lift (merge_offsets self) self) as [[[[o ro] ocg]|e] s1]; [|done].
  rewrite bind_run. destruct (merge_nodes _ _ _ _ _ s1) as [[corr|e] s2]; [|done].
  rewrite bind_run.
  destruct (for_each (interactions molecule) _ s2) as [[[]|e] s3]; [|done].
  rewrite bind_run.
  destruct (for_each (edges (graph molecule)) _ s3) as [[[]|e] s4]; [|done].
  by intros [= <- _].
Qed.

Lemma rows_without_weights {S} (rows : table) (k : Z → Z → Z → M S unit) (s s' : S) u :
  for_each rows (λ '(mol_idx, row),
    for_each row (λ '(block_idx, weight),
      out_idx ← lift (subscript RNone block_idx);
      k mol_idx out_idx weight)) s = (Ok u, s') →
  Forall (λ p, p.2 = []) rows.
Proof.
  revert s. induction rows as [|[mol_idx row] rows IH]; intros s; [constructor|].
  cbn [for_each]. rewrite bind_run. destruct row as [|[block_idx weight] row].
  - simpl. intros H. constructor; [done|]. by eapply IH.
  - by cbn.
Qed.

Lemma apply_block_mapping_returns match_ s r :
  (apply_block_mapping match_ s).1 = Ok r →
  nodes (graph (match_graph match_)) = []
  ∧ Forall (λ p, p.2 = []) (match_map match_)
  ∧ r.2 = [].
Proof.
  unfold apply_block_mapping. rewrite bind_run. unfold get at 1.
  bind_step. rewrite bind_run.
  destruct (on_graph_out _ _) as [[block_to_out|e] s2] eqn:Hmerge; [|done].
  assert (block_to_out = RNone) as ->.
  { revert Hmerge. unfold on_graph_out.
    destruct (merge_molecule _ _) as [r' g] eqn:Hm. intros [= -> _].
    by eapply merge_molecule_result. }
  rewrite bind_run. unfold get at 1. rewrite bind_run.
  destruct (for_each (match_map match_) _ s2) as [[[]|e] s3] eqn:Hrows; [|done].
  apply rows_without_weights in Hrows.
  assert (match_map match_ ≫= (λ p, p.2.*1) = []) as ->.
  { induction Hrows as [|[i row] rows Hrow _ IH]; [done|].
    simpl in Hrow. subst row. by rewrite bind_cons, IH. }
  rewrite bind_run.
  destruct (nodes (graph (match_graph match_))) as [|[n attrs_] ns].
  - simpl. by intros [= <-].
  - rewrite fmap_cons, filter_cons_True by apply not_elem_of_nil. by cbn.
Qed.

(** X16. [apply_block_mapping] returns only for a match whose block has no
    node and whose correspondence has no weight; for every other match it
    raises, since it indexes what [merge_molecule] returned. *)
Theorem apply_block_mapping_returns_on_empty match_ s r :
  (apply_block_mapping match_ s).1 = Ok r →
  nodes (graph (match_graph match_)) = []
  ∧ Forall (λ p, p.2 = []) (match_map match_)
  ∧ r.2 = [].
Proof. apply apply_block_mapping_returns. Qed.

Lemma apply_block_mapping_returns_on_empty_witness :
  nodes (graph (match_graph (mkMatch [(4, [])] (new_molecule None ∅) ∅))) = []
  ∧ Forall (λ p, p.2 = []) (match_map (mkMatch [(4, [])] (new_molecule None ∅) ∅))
  ∧ (@nil Z, @nil Z).2 = [].
Proof.
  apply (apply_block_mapping_returns_on_empty
           (mkMatch [(4, [])] (new_molecule None ∅) ∅)
           (mkMapState (new_molecule None ∅) [] []) ([], [])).
  reflexivity.
Defined.

Lemma interactions_never_applied {S} (d : itable Z) (mod_to_mol : table) (s s' : S) u :
  for_each d (λ '(interaction_type, interactions_),
    for_each interactions_ (λ interaction,
      _ ← lift (map_result (getitem_key mod_to_mol) (atoms interaction));
      _ ← lift (getitem (∅ : gmap string unit) interaction_type);
      raise TypeError)) s = (Ok u, s') →
  Forall (λ p, p.2 = []) d.
Proof.
  revert s. induction d as [|[type_ l] d IH]; intros s; [constructor|].
  cbn [for_each]. rewrite bind_run. destruct l as [|i l].
  - simpl. intros H. constructor; [done|]. by eapply IH.
  - cbn [for_each]. rewrite !bind_run. unfold lift at 1.
    by destruct (map_result _ _).
Qed.

Lemma apply_mod_mapping_keeps_bonds match_ (d : itable Z) (es : list (Z * Z)) :
  preserves (λ s, interactions (graph_out s) = d ∧ edges (graph (graph_out s)) = es)
            (apply_mod_mapping match_).
Proof.
  unfold apply_mod_mapping. repeat preserves_step; try done.
  - cbn. unfold add_node. by destruct (has_node _ _).
  - unfold record_weight. repeat preserves_step; done.
Qed.

(** X17. [apply_mod_mapping] leaves the interactions and the edges of the
    output as they are, and it returns only for a modification without any
    interaction, with an empty dict: the interactions of a modification are
    never applied. *)
Theorem apply_mod_mapping_applies_no_interaction match_ s :
  interactions (graph_out (apply_mod_mapping match_ s).2) = interactions (graph_out s)
  ∧ edges (graph (graph_out (apply_mod_mapping match_ s).2))
    = edges (graph (graph_out s))
  ∧ ∀ r, (apply_mod_mapping match_ s).1 = Ok r →
         r = ∅ ∧ Forall (λ p, p.2 = []) (interactions (match_graph match_)).
Proof.
  pose proof (apply_mod_mapping_keeps_bonds match_ _ _ s (conj eq_refl eq_refl))
    as [Hinteractions Hedges].
  split; [done|split; [done|]].
  - intros r. unfold apply_mod_mapping. do 2 bind_step. rewrite bind_run.
    destruct (for_each (interactions (match_graph match_)) _ _) as [[[]|e] s3] eqn:Hint;
      [|done].
    apply interactions_never_applied in Hint. by intros [= <-].
Qed.

Lemma apply_mod_mapping_applies_no_interaction_witness :
  (∅ : gmap string unit) = ∅
  ∧ Forall (λ p, p.2 = []) (interactions (match_graph unnamed_mod_match)).
Proof.
  apply (proj2 (proj2 (apply_mod_mapping_applies_no_interaction unnamed_mod_match
                         (mkMapState (new_molecule None ∅) [] []))) ∅).
  vm_compute. reflexivity.
Defined.


(** ** What [do_mapping] returns *)

Section ensures.
Context {S : Type} (I : S → Prop).

Lemma ensures_preserves {A} (m : M S A) : preserves I m → ensures I m.
Proof. intros H s Hs. specialize (H s Hs). by destruct (m s) as [[a|e] s']. Qed.

Lemma ensures_bind {A B} (m : M S A) (f : A → M S B) :
  ensures I m → (∀ a, ensures I (f a)) → ensures I (m ≫= f).
Proof.
  intros Hm Hf s Hs. rewrite bind_run. specialize (Hm s Hs).
  destruct (m s) as [[a|e] s']; [by apply Hf|done].
Qed.

Lemma ensures_lift_bind {A B} (r : result A) (f : A → M S B) :
  (∀ a, r = Ok a → ensures I (f a)) → ensures I (lift r ≫= f).
Proof.
  intros Hf s Hs. rewrite bind_run. unfold lift.
  destruct r as [a|e]; [by apply Hf|done].
Qed.

Lemma ensures_ret_bind {A B} (a : A) (f : A → M S B) :
  ensures I (f a) → ensures I (mret a ≫= f).
Proof. intros Hf s Hs. rewrite bind_run. by apply Hf. Qed.

Lemma ensures_for_each {A} (l : list A) (body : A → M S unit) :
  (∀ x, ensures I (body x)) → ensures I (for_each l body).
Proof.
  intros Hbody. induction l as [|x l IH]; simpl; [by intros s|].
  apply ensures_bind; [apply Hbody | by intros _].
Qed.
End ensures.

Lemma ensures_on_graph_out {A} (J : Molecule → Prop) (m : M Molecule A) :
  ensures J m → ensures (λ s, J (graph_out s)) (on_graph_out m).
Proof.
  intros Hm s Hs. unfold on_graph_out. specialize (Hm _ Hs).
  by destruct (m (graph_out s)) as [[r|e] g].
Qed.

(** The steps of a proof that a computation that returns keeps a property *)
Ltac ensures_step :=
  lazymatch goal with
  | |- ensures _ ?m =>
      lazymatch m with
      | mret _ => apply ensures_preserves, preserves_ret
      | raise _ => apply ensures_preserves, preserves_raise
      | lift _ => apply ensures_preserves, preserves_lift
      | get => apply ensures_preserves, preserves_get
      | modify _ => apply ensures_preserves, preserves_modify
      | _ ≫= _ => apply ensures_bind
      | for_each _ _ => apply ensures_for_each
      | if ?b then _ else _ => destruct b
      | (let '(_, _) := ?x in _) _ => destruct x
      | match ?x with _ => _ end => destruct x
      end
  | |- ∀ _, _ => intros
  end.

Lemma translate_empty (atoms_ atoms' : list Z) :
  translate ∅ atoms_ = Ok atoms' → atoms_ = [] ∧ atoms' = [].
Proof. destruct atoms_ as [|a atoms_]; [by intros [= <-]|done]. Qed.

Lemma add_interaction_unbonded type_ parameters_ meta_ :
  ensures unbonded (add_interaction type_ [] parameters_ meta_).
Proof.
  intros m [Hedges Hint]. rewrite add_interaction_run. cbn.
  split; [done|]. by apply table_atoms_all_append.
Qed.

(** A molecule without atoms that is merged, when the merge returns, leaves
    no edge and no interaction between atoms. *)
Lemma merge_molecule_unbonded (molecule : Molecule) :
  nodes (graph molecule) = [] → ensures unbonded (merge_molecule molecule).
Proof.
  intros Hnodes. unfold merge_molecule. rewrite Hnodes.
  apply ensures_bind; [apply ensures_preserves, preserves_get|]. intros self.
  destruct (bool_decide (force_field self ≠ force_field molecule));
    [apply ensures_preserves, preserves_raise|].
  destruct (bool_decide (nrexcl self ≠ nrexcl molecule));
    [apply ensures_preserves, preserves_raise|].
  apply ensures_lift_bind. intros [[offset residue_offset] offset_charge_group] _.
  cbn [merge_nodes]. apply ensures_ret_bind.
  apply ensures_bind.
  - apply ensures_for_each. intros [name interactions_].
    apply ensures_for_each. intros interaction.
    apply ensures_lift_bind. intros atoms_ [_ ->]%translate_empty.
    apply add_interaction_unbonded.
  - intros _. apply ensures_bind; [|intros; apply ensures_preserves, preserves_ret].
    apply ensures_for_each. intros edge.
    apply ensures_lift_bind. intros u Hu. unfold getitem in Hu.
    by rewrite lookup_empty in Hu.
Qed.

Lemma record_weight_graph_out (J : Molecule → Prop) mol_idx out_idx weight :
  preserves (λ s, J (graph_out s)) (record_weight mol_idx out_idx weight).
Proof. unfold record_weight. repeat preserves_step; done. Qed.

Lemma apply_block_mapping_unbonded_empty (match_ : Match) :
  nodes (graph (match_graph match_)) = [] →
  ensures (λ s, unbonded (graph_out s)) (apply_block_mapping match_).
Proof.
  intros Hnodes. unfold apply_block_mapping.
  apply ensures_bind; [apply ensures_preserves, preserves_get|]. intros s0.
  apply ensures_bind.
  { apply ensures_preserves. destruct (nrexcl (graph_out s0)); repeat preserves_step; done. }
  intros _. apply ensures_bind.
  { apply (ensures_on_graph_out unbonded). by apply merge_molecule_unbonded. }
  intros block_to_out. apply ensures_preserves.
  repeat preserves_step; try done; apply record_weight_graph_out.
Qed.

Lemma apply_block_mapping_unbonded (match_ : Match) :
  ensures (λ s, unbonded (graph_out s)) (apply_block_mapping match_).
Proof.
  intros s Hs. destruct (apply_block_mapping match_ s) as [[r|e] s'] eqn:Hrun; [|done].
  assert (nodes (graph (match_graph match_)) = []) as Hnodes.
  { eapply (apply_block_mapping_returns match_ s r). by rewrite Hrun. }
  pose proof (apply_block_mapping_unbonded_empty match_ Hnodes s Hs) as H.
  by rewrite Hrun in H.
Qed.

Lemma apply_mod_mapping_unbonded (match_ : Match) :
  ensures (λ s, unbonded (graph_out s)) (apply_mod_mapping match_).
Proof.
  apply ensures_preserves. intros s [Hedges Hint].
  destruct (apply_mod_mapping_keeps_bonds match_ _ _ s (conj eq_refl eq_refl))
    as [Hint' Hedges'].
  unfold unbonded. by rewrite Hedges', Hint'.
Qed.

Lemma mapping_loop_unbonded fuel block_matches mod_matches v :
  ensures (λ s, unbonded (graph_out s)) (mapping_loop fuel block_matches mod_matches v).
Proof.
  revert block_matches mod_matches v.
  induction fuel as [|fuel IH]; intros block_matches mod_matches v; simpl;
    [apply ensures_preserves, preserves_ret|].
  unfold mod_branch, block_branch.
  repeat ensures_step; try done;
    first [apply apply_mod_mapping_unbonded | apply apply_block_mapping_unbonded].
Qed.

Lemma reconcile_node_unbonded molecule attribute_keep all_references_ out_idx weights
    to_remove :
  preserves (λ s, unbonded (graph_out s))
            (reconcile_node molecule attribute_keep all_references_ out_idx
                            weights to_remove).
Proof.
  unfold reconcile_node, set_node_attrs. repeat preserves_step; try done;
    cbn [graph_out with_graph_out]; unfold unbonded, add_node in *;
    cbn [graph with_graph interactions];
    by destruct (has_node _ _).
Qed.

Lemma mod_branch_all_matches match_ v s v' s' :
  mod_branch match_ v s = (Ok v', s') → all_matches v' = all_matches v ++ [match_].
Proof.
  unfold mod_branch. rewrite bind_run.
  destruct (apply_mod_mapping match_ s) as [[a|e] s1]; [|done]. by intros [= <- _].
Qed.

Lemma block_branch_all_matches match_ v s v' s' :
  block_branch match_ v s = (Ok v', s') → all_matches v' = all_matches v ++ [match_].
Proof.
  unfold block_branch. rewrite bind_run.
  destruct (apply_block_mapping match_ s) as [[[overlap none_to_one]|e] s1]; [|done].
  by intros [= <- _].
Qed.

Lemma last_length {A} (l : list A) (x : A) :
  last l = Some x → length l = S (length (removelast l)).
Proof.
  intros [l' ->]%last_Some. rewrite removelast_last, length_app. simpl. lia.
Qed.

(** When the loop over the matches returns, it has taken every match. *)
Lemma mapping_loop_all_matches fuel block_matches mod_matches v s v' s' :
  (length block_matches + length mod_matches ≤ fuel)%nat →
  mapping_loop fuel block_matches mod_matches v s = (Ok v', s') →
  length (all_matches v')
  = (length (all_matches v) + length block_matches + length mod_matches)%nat.
Proof.
  revert block_matches mod_matches v s.
  induction fuel as [|fuel IH]; intros block_matches mod_matches v s Hfuel.
  { destruct block_matches, mod_matches; simpl in Hfuel; try lia.
    simpl. intros [= <- _]. lia. }
  cbn [mapping_loop]. case_bool_decide as Hempty.
  { destruct Hempty as [-> ->]. intros [= <- _]. simpl. lia. }
  rewrite bind_run. unfold lift at 1.
  destruct (takes_mod block_matches mod_matches) as [[|]|e]; [| |done].
  - destruct (last mod_matches) as [match_|] eqn:Hlast; [|done].
    apply last_length in Hlast. rewrite bind_run.
    destruct (mod_branch match_ v s) as [[v1|e] s1] eqn:Hbranch; [|done].
    apply mod_branch_all_matches in Hbranch.
    intros Hrun%IH; [|lia]. rewrite Hrun, Hbranch, length_app. simpl. lia.
  - destruct (last block_matches) as [match_|] eqn:Hlast; [|done].
    apply last_length in Hlast. rewrite bind_run.
    destruct (block_branch match_ v s) as [[v1|e] s1] eqn:Hbranch; [|done].
    apply block_branch_all_matches in Hbranch.
    intros Hrun%IH; [|lia]. rewrite Hrun, Hbranch, length_app. simpl. lia.
Qed.

Lemma combinations2_nil {A} (l : list A) :
  combinations2 l = [] → (length l ≤ 1)%nat.
Proof. destruct l as [|x [|y l]]; simpl; [lia|lia|done]. Qed.

(** With the [edges_between] that the source has, the merge of the matches
    returns only when there is at most one match, and it then leaves the
    output without a bond. *)
Lemma do_mapping_steps_returns molecule block_matches mod_matches attribute_keep
    (s s' : MapState) to_remove :
  unbonded (graph_out s) →
  do_mapping_steps edges_between_undefined molecule block_matches mod_matches
                   attribute_keep s = (Ok to_remove, s') →
  unbonded (graph_out s') ∧ (length block_matches + length mod_matches ≤ 1)%nat.
Proof.
  intros Hs. unfold do_mapping_steps. rewrite bind_run.
  pose proof (mapping_loop_unbonded (length block_matches + length mod_matches)
                block_matches mod_matches (mkLoopVars [] [] ∅ ∅ []) s Hs) as Hs1.
  destruct (mapping_loop _ _ _ _ s) as [[v|e] s1] eqn:Hloop; [|done].
  apply mapping_loop_all_matches in Hloop; [|lia]. simpl in Hloop.
  rewrite bind_run. unfold get at 1. rewrite bind_run.
  match goal with |- context [for_fold ?l ?acc ?body s1] =>
    pose proof (preserves_for_fold (λ s, unbonded (graph_out s)) l acc body) as Hs2;
    destruct (for_fold l acc body s1) as [[r|e] s2] eqn:Hfold; [|done]
  end.
  assert (unbonded (graph_out s2)) as Hunbonded2.
  { change s2 with (Ok r, s2).2. rewrite <- Hfold. apply Hs2; [|done].
    intros [out_idx weights] acc. apply reconcile_node_unbonded. }
  rewrite bind_run.
  destruct (combinations2 (all_matches v)) as [|[match1 match2] rest] eqn:Hpairs.
  - apply combinations2_nil in Hpairs. simpl. intros [= _ <-]. split; [done|lia].
  - by cbn.
Qed.

Lemma map_result_min_key_Ok (matches : list Match) keys :
  map_result min_key matches = Ok keys → Forall (λ m, match_map m ≠ []) matches.
Proof.
  revert keys. induction matches as [|m matches IH]; intros keys; [constructor|].
  cbn [map_result]. destruct (min_key m) as [k|e] eqn:Hk; [|done]. cbn.
  destruct (map_result min_key matches) as [ks|e]; [|done]. intros _.
  constructor; [|by eapply IH]. unfold min_key in Hk. intros Hm. by rewrite Hm in Hk.
Qed.

Lemma sorted_desc_length (matches sorted_ : list Match) :
  sorted_desc matches = Ok sorted_ → length sorted_ = length matches.
Proof.
  intros Hsorted.
  assert (Forall (λ m, match_map m ≠ []) matches) as Hne.
  { unfold sorted_desc in Hsorted.
    destruct (map_result min_key matches) as [keys|e] eqn:Hkeys; [|done].
    by eapply map_result_min_key_Ok. }
  destruct (sorted_desc_spec matches Hne) as (sorted' & Hs' & Hperm & _).
  rewrite Hsorted in Hs'. injection Hs' as <-. by rewrite Hperm.
Qed.

Lemma do_mapping_returns_on_one_match_lemma molecule block_matches mod_matches
    to_ff attribute_keep out :
  do_mapping edges_between_undefined molecule block_matches mod_matches to_ff
             attribute_keep = Ok out →
  (length block_matches + length mod_matches ≤ 1)%nat
  ∧ unbonded out
  ∧ force_field out = to_ff
  ∧ mol_meta out = mol_meta molecule.
Proof.
  intros Hout.
  destruct (do_mapping_result _ _ _ _ _ _ _ Hout) as (_ & Hff & Hmeta).
  revert Hout. unfold do_mapping.
  destruct (sorted_desc block_matches) as [bs|] eqn:Hbs; [|done]. simpl.
  destruct (sorted_desc mod_matches) as [ms|] eqn:Hms; [|done]. simpl.
  apply sorted_desc_length in Hbs, Hms.
  destruct (do_mapping_steps _ _ _ _ _ _) as [[to_remove|e] s] eqn:Hsteps; [|done].
  pose proof (do_mapping_steps_queue_nothing _ _ _ _ _ _ _ _ Hsteps) as ->.
  apply do_mapping_steps_returns in Hsteps as [Hunbonded Hlen]; [|by split].
  intros [= <-]. rewrite with_graph_id by apply remove_nodes_from_nil.
  split; [lia|]. split; [done|]. split; [|done].
  by rewrite with_graph_id in Hff by apply remove_nodes_from_nil.
Qed.

(** X14. As the source has it, without a method [edges_between],
    [do_mapping] returns only when there is at most one match in all. What
    it returns then has no edge and no interaction between atoms, is of the
    target force field and carries the meta of the molecule that was
    mapped. *)
Theorem do_mapping_returns_on_one_match molecule block_matches mod_matches
    to_ff attribute_keep out :
  do_mapping edges_between_undefined molecule block_matches mod_matches to_ff
             attribute_keep = Ok out →
  (length block_matches + length mod_matches ≤ 1)%nat
  ∧ unbonded out
  ∧ force_field out = to_ff
  ∧ mol_meta out = mol_meta molecule.
Proof. apply do_mapping_returns_on_one_match_lemma. Qed.

Lemma do_mapping_returns_on_one_match_witness :
  match do_mapping edges_between_undefined source_atom [] [unnamed_mod_match]
                   (Some 2%nat) [] with
  | Ok out => (0 + 1 ≤ 1)%nat ∧ unbonded out ∧ force_field out = Some 2%nat
              ∧ mol_meta out = mol_meta source_atom
  | Raise _ => False
  end.
Proof.
  destruct (do_mapping edges_between_undefined source_atom [] [unnamed_mod_match]
              (Some 2%nat) []) as [out|e] eqn:Hout; [|by vm_compute in Hout].
  by apply (do_mapping_returns_on_one_match source_atom [] [unnamed_mod_match]
              (Some 2%nat) [] out).
Defined.

(** ** The node matchers *)

Lemma lookup_key_without_key (k k' : string) (d : list (string * tvalue)) :
  lookup_key k' (without_key k d) = if decide (k = k') then None else lookup_key k' d.
Proof.
  unfold without_key. induction d as [|[k0 v0] d IH].
  - by destruct (decide (k = k')).
  - rewrite filter_cons. cbn [fst]. destruct (decide (k0 ≠ k)) as [Hne|Heq].
    + rewrite !lookup_key_cons, IH.
      destruct (decide (k0 = k')) as [->|]; [|done]. by rewrite decide_False by done.
    + apply dec_stable in Heq as ->. rewrite IH, lookup_key_cons.
      by destruct (decide (k = k')).
Qed.

Lemma without_key_set_key_ne (k k' : string) (v : tvalue) (d : list (string * tvalue)) :
  k ≠ k' → without_key k (set_key k' v d) = set_key k' v (without_key k d).
Proof.
  intros Hne. unfold without_key. induction d as [|[k0 v0] d IH]; cbn [set_key].
  - by rewrite filter_cons_True by (cbn; congruence).
  - destruct (decide (k0 = k')) as [->|Hne'].
    + rewrite !filter_cons_True by (cbn; congruence). cbn [set_key].
      by rewrite decide_True.
    + rewrite !filter_cons. cbn [fst]. destruct (decide (k0 ≠ k)); [|done].
      cbn [set_key]. rewrite decide_False by done. by rewrite IH.
Qed.

Lemma without_key_set_key (k : string) (v : tvalue) (d : list (string * tvalue)) :
  without_key k (set_key k v d) = without_key k d.
Proof.
  unfold without_key. induction d as [|[k0 v0] d IH]; cbn [set_key].
  - by rewrite filter_cons_False by (cbn; intros H; by apply H).
  - destruct (decide (k0 = k)) as [->|Hne].
    + by rewrite !filter_cons_False by (cbn; intros H; by apply H).
    + rewrite !filter_cons_True by done. by rewrite IH.
Qed.

Lemma without_key_twice (k : string) (d : list (string * tvalue)) :
  without_key k (without_key k d) = without_key k d.
Proof. unfold without_key. apply list_filter_filter_l. by intros. Qed.

(** X18. [_old_atomname_match] raises a [KeyError] for a node without
    ['atomname'], also when the node has the ['_old_atomname'] that would be
    compared. *)
Theorem old_atomname_match_needs_atomname (node1 : attrs)
    (node2 : list (string * tvalue)) :
  node1 !! "atomname" = None ∨ lookup_key "atomname" node2 = None →
  old_atomname_match node1 node2 = Raise KeyError.
Proof.
  unfold old_atomname_match, getitem, getitem_key. intros [H1|H2].
  - by rewrite H1.
  - rewrite H2. by destruct (node1 !! "atomname").
Qed.

Lemma old_atomname_match_needs_atomname_witness :
  old_atomname_match {[ "_old_atomname" := VStr "CA" ]}
                     [("atomname", Lit (VStr "CA"))] = Raise KeyError.
Proof.
  apply (old_atomname_match_needs_atomname {[ "_old_atomname" := VStr "CA" ]}
           [("atomname", Lit (VStr "CA"))]).
  left. reflexivity.
Defined.

(** X19. Between two nodes that both have an ['_old_atomname'],
    [_old_atomname_match] does not look at the values of ['atomname']:
    whatever they are, the answer is the same. *)
Theorem old_atomname_match_by_old_name (node1 : attrs) (node2 : list (string * tvalue))
    (a a' : pyval) (b b' : tvalue) :
  is_Some (node1 !! "_old_atomname") →
  is_Some (lookup_key "_old_atomname" node2) →
  old_atomname_match (<["atomname" := a]> node1) (set_key "atomname" b node2)
  = old_atomname_match (<["atomname" := a']> node1) (set_key "atomname" b' node2).
Proof.
  intros [old1 Hold1] [old2 Hold2]. unfold old_atomname_match, getitem, getitem_key.
  rewrite !lookup_insert_eq, !lookup_key_set_key.
  rewrite !(decide_True (P := "atomname" = "atomname")) by done.
  rewrite !(decide_False (P := "atomname" = "_old_atomname")) by done.
  cbn [mbind result_bind]. unfold dict_get.
  rewrite !lookup_insert_ne, Hold1, Hold2 by done. cbn [default].
  rewrite !(delete_insert_ne _ "atomname" "_name") by done.
  rewrite !delete_insert_eq.
  rewrite !(without_key_set_key_ne "atomname" "_name") by done.
  by rewrite !without_key_set_key.
Qed.

Lemma old_atomname_match_by_old_name_witness :
  old_atomname_match (<["atomname" := VStr "CA"]> {[ "_old_atomname" := VStr "C1" ]})
                     (set_key "atomname" (Lit (VStr "CA"))
                              [("_old_atomname", Lit (VStr "C1"))])
  = old_atomname_match (<["atomname" := VStr "X"]> {[ "_old_atomname" := VStr "C1" ]})
                       (set_key "atomname" (Lit (VStr "Y"))
                                [("_old_atomname", Lit (VStr "C1"))]).
Proof.
  apply (old_atomname_match_by_old_name {[ "_old_atomname" := VStr "C1" ]}
           [("_old_atomname", Lit (VStr "C1"))]
           (VStr "CA") (VStr "X") (Lit (VStr "CA")) (Lit (VStr "Y")));
    eexists; reflexivity.
Defined.

Lemma falsy_at_without_key (k k' : string) (node : list (string * tvalue)) :
  falsy_at k' (without_key k node) = if decide (k = k') then false else falsy_at k' node.
Proof.
  unfold falsy_at. rewrite lookup_key_without_key. by destruct (decide (k = k')).
Qed.

(** X20. What [ptm_resname_match] deletes from the template node it was
    given changes no later answer: a second call on the node as the first
    call left it answers as it would on the node as it was, and leaves the
    node as it finds it. *)
Theorem ptm_resname_match_side_effect (node1 node1' : attrs)
    (node2 : list (string * tvalue)) :
  (ptm_resname_match node1' (ptm_resname_match node1 node2).2).1
  = (ptm_resname_match node1' node2).1
  ∧ (ptm_resname_match node1' (ptm_resname_match node1 node2).2).2
    = (ptm_resname_match node1 node2).2.
Proof.
  unfold ptm_resname_match. cbn [fst snd].
  destruct (falsy_at "resname" node2) eqn:Hres.
  - rewrite andb_false_r, Hres.
    by destruct (falsy_at "PTM_atom" (without_key "resname" node2)).
  - rewrite andb_true_r. destruct (falsy_at "PTM_atom" node2) eqn:Hptm.
    + assert (falsy_at "resname" (without_key "PTM_atom" node2) = false) as ->.
      { rewrite falsy_at_without_key. by destruct (decide _). }
      assert (falsy_at "PTM_atom" (without_key "PTM_atom" node2) = false) as ->.
      { rewrite falsy_at_without_key. by destruct (decide _). }
      done.
    + by rewrite Hres, Hptm.
Qed.

(** ** The matches of the modifications *)

Lemma keep_matches_claims (yielded : list Match) (modified_nodes : gset Z) :
  ∃ claimed : list Z,
    NoDup claimed
    ∧ Forall (λ n, n ∈ modified_nodes) claimed
    ∧ Forall2 (λ match_ n, n ∈ (match_map match_).*1)
              (keep_matches yielded modified_nodes) claimed.
Proof.
  revert modified_nodes.
  induction yielded as [|match_ rest IH]; intros modified_nodes; cbn [keep_matches].
  { exists []. repeat split; constructor. }
  case_bool_decide as Hnone; [apply IH|].
  apply set_choose_L in Hnone as [n Hn].
  apply elem_of_intersection in Hn as [Hmod Htouched].
  apply elem_of_list_to_set in Htouched.
  destruct (IH (modified_nodes ∖ list_to_set (match_map match_).*1))
    as (claimed & Hdup & Hin & Hkept).
  exists (n :: claimed). split; [|split].
  - constructor; [|done]. intros Hn.
    rewrite Forall_forall in Hin. apply Hin in Hn.
    apply elem_of_difference in Hn as [_ Hn]. apply Hn. by apply elem_of_list_to_set.
  - constructor; [done|]. eapply Forall_impl; [done|].
    intros k Hk. by apply elem_of_difference in Hk as [? _].
  - by constructor.
Qed.

(** X21. Every match that [modification_matches] keeps holds a modified
    node of its own, one that no other kept match was kept for; so it keeps
    no more matches than there are modified nodes. *)
Theorem keep_matches_one_node_each (yielded : list Match) (modified_nodes : gset Z) :
  (∃ claimed : list Z,
     NoDup claimed
     ∧ Forall (λ n, n ∈ modified_nodes) claimed
     ∧ Forall2 (λ match_ n, n ∈ (match_map match_).*1)
               (keep_matches yielded modified_nodes) claimed)
  ∧ (length (keep_matches yielded modified_nodes) ≤ size modified_nodes)%nat
  ∧ keep_matches yielded modified_nodes `sublist_of` yielded.
Proof.
  destruct (keep_matches_claims yielded modified_nodes) as (claimed & Hdup & Hin & Hkept).
  split; [by exists claimed|split].
  - rewrite (Forall2_length _ _ _ Hkept).
    rewrite <- (size_list_to_set (C := gset Z) claimed) by done.
    apply subseteq_size. intros n Hn%elem_of_list_to_set.
    rewrite Forall_forall in Hin. by apply Hin.
  - clear. revert modified_nodes.
    induction yielded as [|match_ rest IH]; intros modified_nodes; cbn [keep_matches];
      [done|].
    case_bool_decide; [apply sublist_cons | apply sublist_skip]; apply IH.
Qed.

(** ** Dihedrals and impropers around a bond *)

Lemma middle_spec {A} (a d : A) (center : list A) :
  middle (a :: center ++ [d]) = center.
Proof. unfold middle. cbn [tail]. apply removelast_last. Qed.

Lemma middle_inv {A} (l center : list A) :
  middle l = center → center ≠ [] → ∃ a d, l = a :: center ++ [d].
Proof.
  unfold middle. destruct l as [|a l]; [by intros <-|]. cbn [tail].
  destruct l as [|b l _] using rev_ind; [by intros <-|].
  rewrite removelast_last. intros -> _. by exists a, b.
Qed.

(** X22. [has_dihedral_around] answers only for a block without any
    dihedral, and then [False]: with a dihedral it subscripts a named tuple
    by a string and raises a [TypeError], also on the dihedrals that
    [make_edges_from_interactions] reads. *)
Theorem has_dihedral_around_never_true (center : list string) (self : Block) :
  has_dihedral_around center self
  = if bool_decide (get_list (block_interactions self) "dihedrals" = [])
    then Ok false else Raise TypeError.
Proof.
  unfold has_dihedral_around.
  destruct (get_list (block_interactions self) "dihedrals") as [|dih rest].
  - rewrite bool_decide_eq_true_2 by done. cbn.
    by rewrite bool_decide_eq_false_2 by apply not_elem_of_nil.
  - by rewrite bool_decide_eq_false_2 by done.
Qed.

(** X23. [has_improper_around] holds exactly when an improper of the block
    has the atoms of [center], in their order, between its first and its
    last atom. *)
Theorem has_improper_around_spec (center : list string) (self : Block) :
  center ≠ [] →
  has_improper_around center self = true
  ↔ ∃ improper a d,
      improper ∈ get_list (block_interactions self) "impropers"
      ∧ atoms improper = a :: center ++ [d].
Proof.
  intros Hcenter. unfold has_improper_around. rewrite bool_decide_eq_true.
  rewrite list_elem_of_fmap. split.
  - intros (improper & Hmid & Hin). symmetry in Hmid.
    apply middle_inv in Hmid as (a & d & Hatoms); [|done]. by exists improper, a, d.
  - intros (improper & a & d & Hin & Hatoms). exists improper. split; [|done].
    by rewrite Hatoms, middle_spec.
Qed.


Lemma has_improper_around_spec_witness :
  has_improper_around ["CA"; "C"]
    (mkBlock (mkGraph [] []) None
             [("impropers", [mkInteraction ["N"; "CA"; "C"; "O"] [] ∅])]) = true
  ↔ ∃ improper a d,
      improper ∈ get_list (block_interactions
                             (mkBlock (mkGraph [] []) None
                                [("impropers",
                                  [mkInteraction ["N"; "CA"; "C"; "O"] [] ∅])]))
                          "impropers"
      ∧ atoms improper = a :: ["CA"; "C"] ++ [d].
Proof.
  apply (has_improper_around_spec ["CA"; "C"]
           (mkBlock (mkGraph [] []) None
                    [("impropers", [mkInteraction ["N"; "CA"; "C"; "O"] [] ∅])])).
  discriminate.
Defined.

(** ** The processor *)

Section DoMapping_properties.
Variable edges_between : Molecule → list Z → list Z → result (list (Z * Z)).
Variable find_matches : Molecule → result (list Match * list Match).
Variable to_ff : option nat.
Variable attribute_keep : list string.

Lemma run_molecules_delete_unknown (todo mols : list Molecule) :
  run_molecules edges_between find_matches to_ff true attribute_keep todo mols
  = run_molecules edges_between find_matches to_ff false attribute_keep todo mols.
Proof.
  revert mols. induction todo as [|molecule rest IH]; intros mols; [done|].
  cbn [run_molecules]. destruct (run_molecule _ _ _ _ _) as [new_molecule|[]]; try done.
Qed.

(** X24. [delete_unknown] changes nothing in what [run_system] does: a
    [KeyError] of a molecule is raised again with the option as without it. *)
Theorem run_system_ignores_delete_unknown (system : System) :
  run_system edges_between find_matches to_ff true attribute_keep system
  = run_system edges_between find_matches to_ff false attribute_keep system.
Proof. unfold run_system. by rewrite run_molecules_delete_unknown. Qed.

End DoMapping_properties.

Lemma run_molecules_result find_matches to_ff (delete_unknown : bool) attribute_keep
    (todo mols out : list Molecule) :
  run_molecules edges_between_undefined find_matches to_ff delete_unknown
                attribute_keep todo mols = Ok out →
  Forall (λ molecule, ∃ block_matches mod_matches,
            find_matches molecule = Ok (block_matches, mod_matches)
            ∧ (length block_matches + length mod_matches ≤ 1)%nat) todo
  ∧ ∃ new,
      out = mols ++ new
      ∧ (length new ≤ length todo)%nat
      ∧ Forall (λ m, molecule_truthy m = true ∧ unbonded m
                     ∧ force_field m = to_ff
                     ∧ ∃ molecule, molecule ∈ todo ∧ mol_meta m = mol_meta molecule)
               new.
Proof.
  revert mols. induction todo as [|molecule rest IH]; intros mols; cbn [run_molecules].
  { intros [= <-]. split; [constructor|]. exists []. by rewrite app_nil_r. }
  destruct (run_molecule _ _ _ _ _) as [new_molecule|e] eqn:Hrun.
  - unfold run_molecule in Hrun.
    destruct (find_matches molecule) as [[bs ms]|e] eqn:Hfind; [|done]. cbn in Hrun.
    apply do_mapping_returns_on_one_match_lemma in Hrun
      as (Hlen & Hunbonded & Hff & Hmeta).
    intros (Hrest & new & -> & Hlen' & Hnew)%IH. split.
    { constructor; [|done]. by exists bs, ms. }
    assert (Forall (λ m, molecule_truthy m = true ∧ unbonded m
                         ∧ force_field m = to_ff
                         ∧ ∃ molecule0, molecule0 ∈ molecule :: rest
                                        ∧ mol_meta m = mol_meta molecule0) new) as Hnew'.
    { eapply Forall_impl; [done|]. intros m (? & ? & ? & molecule0 & ? & ?).
      repeat (split; [done|]). exists molecule0. split; [by right|done]. }
    destruct (molecule_truthy new_molecule) eqn:Htruthy.
    + exists (new_molecule :: new). split; [by rewrite <- app_assoc|].
      split; [simpl; lia|]. constructor; [|done].
      repeat (split; [done|]). exists molecule. split; [by left|done].
    + exists new. split; [done|]. split; [simpl; lia|done].
  - destruct e; [|destruct delete_unknown|..]; done.
Qed.

(** X25. As the source has it, without a method [edges_between],
    [run_system] returns only when the mappings give at most one match for
    each molecule of the system. The system is then of the target force
    field and holds no more molecules than before; each of them has a node,
    has no edge and no interaction between atoms, is of the target force
    field and carries the meta of a molecule the system held. *)
Theorem run_system_result find_matches to_ff (delete_unknown : bool) attribute_keep
    (system out : System) :
  run_system edges_between_undefined find_matches to_ff delete_unknown
             attribute_keep system = Ok out →
  system_force_field out = to_ff
  ∧ (length (molecules out) ≤ length (molecules system))%nat
  ∧ Forall (λ molecule, ∃ block_matches mod_matches,
              find_matches molecule = Ok (block_matches, mod_matches)
              ∧ (length block_matches + length mod_matches ≤ 1)%nat)
           (molecules system)
  ∧ Forall (λ m, molecule_truthy m = true ∧ unbonded m
                 ∧ force_field m = to_ff
                 ∧ ∃ molecule, molecule ∈ molecules system
                               ∧ mol_meta m = mol_meta molecule)
           (molecules out).
Proof.
  unfold run_system.
  destruct (run_molecules _ _ _ _ _ _ _) as [mols|e] eqn:Hrun; [|done].
  intros [= <-].
  apply run_molecules_result in Hrun as (Hmatches & new & -> & Hlen & Hnew).
  done.
Qed.

Lemma run_system_result_witness :
  match run_system edges_between_undefined (λ _, Ok ([], [unnamed_mod_match]))
                   (Some 2%nat) false [] (mkSystem [source_atom] None) with
  | Ok out =>
      system_force_field out = Some 2%nat
      ∧ (length (molecules out) ≤ 1)%nat
      ∧ Forall (λ m, molecule_truthy m = true ∧ unbonded m
                     ∧ force_field m = Some 2%nat
                     ∧ ∃ molecule, molecule ∈ [source_atom]
                                   ∧ mol_meta m = mol_meta molecule)
               (molecules out)
  | Raise _ => False
  end.
Proof.
  destruct (run_system edges_between_undefined (λ _, Ok ([], [unnamed_mod_match]))
              (Some 2%nat) false [] (mkSystem [source_atom] None))
    as [out|e] eqn:Hout; [|by vm_compute in Hout].
  destruct (run_system_result (λ _, Ok ([], [unnamed_mod_match])) (Some 2%nat) false []
              (mkSystem [source_atom] None) out Hout) as (H1 & H2 & _ & H4).
  done.
Defined.
